(** * Marketing crawler: discovery engine and extraction pipeline

    A shallow embedding of the crawl discovery engine (smart_crawler.py),
    the retrying page fetcher (content_crawler.py), the AI accumulation
    step (value_extraction.py) and the producer/consumer hand-off (run.py),
    with the properties the specification states about them.

    Conventions.
    - Python [str] values that the code only passes around (file paths,
      error messages) are [string].  URLs, which the code takes apart, are
      [list ascii]: the UTF-8 bytes of the Python string, so that every
      delimiter the code looks for is one element.
    - Python [int] is [Z].
    - The network, the file system and the AI service are parameters of
      the sections that use them; timestamps are left out. *)

From Stdlib Require Import ZArith Lia Ascii String DecimalString.
From stdpp Require Import gmap strings list list_numbers.

Local Open Scope Z_scope.
#[local] Set Warnings "-clear-no-such-hyp".

(** [str(n)] for a Python int. *)
Definition str_of_int (n : Z) : string :=
  NilZero.string_of_int (Z.to_int n).

(* ===================================================================== *)
(** * Python strings                                                    *)
(* ===================================================================== *)

Module PyStr.

Abbreviation str := (list ascii).

(** A literal. *)
Definition py (s : string) : str := list_ascii_of_string s.

Definition code (c : ascii) : N := N_of_ascii c.

Definition is_char (c : ascii) : ascii -> bool := fun x => bool_decide (x = c).

Definition one_of (cs : str) : ascii -> bool := fun x => bool_decide (x ∈ cs).

(** [break_at P s]: the longest prefix of [s] without a character in [P],
    and what follows it (empty, or starting with the first such character). *)
Fixpoint break_at (P : ascii -> bool) (s : str) : str * str :=
  match s with
  | [] => ([], [])
  | c :: s' =>
      if P c then ([], s)
      else let '(a, b) := break_at P s' in (c :: a, b)
  end.

(** [c in s] for a character. *)
Definition has_char (c : ascii) (s : str) : bool := existsb (is_char c) s.

Fixpoint startswith (s p : str) : bool :=
  match p, s with
  | [], _ => true
  | a :: p', b :: s' => bool_decide (a = b) && startswith s' p'
  | _ :: _, [] => false
  end.

(** [sub in s]. *)
Fixpoint contains (sub s : str) : bool :=
  startswith s sub ||
  match s with
  | [] => false
  | _ :: s' => contains sub s'
  end.

Definition endswith (s p : str) : bool := startswith (rev s) (rev p).

Fixpoint lstrip (P : ascii -> bool) (s : str) : str :=
  match s with
  | [] => []
  | c :: s' => if P c then lstrip P s' else s
  end.

Definition rstrip (P : ascii -> bool) (s : str) : str :=
  rev (lstrip P (rev s)).

Definition strip (P : ascii -> bool) (s : str) : str :=
  rstrip P (lstrip P s).

(** [s.split(c)]: always at least one piece. *)
Fixpoint split (c : ascii) (s : str) : list str :=
  match s with
  | [] => [[]]
  | x :: s' =>
      if bool_decide (x = c) then [] :: split c s'
      else match split c s' with
           | h :: t => (x :: h) :: t
           | [] => [[x]]
           end
  end.

(** [sep.join(pieces)]. *)
Fixpoint join (sep : str) (pieces : list str) : str :=
  match pieces with
  | [] => []
  | [p] => p
  | p :: rest => p ++ sep ++ join sep rest
  end.

Definition in_range (lo hi : N) (c : ascii) : bool :=
  (lo <=? code c)%N && (code c <=? hi)%N.

Definition is_upper : ascii -> bool := in_range 65 90.
Definition is_lower : ascii -> bool := in_range 97 122.
Definition is_digit : ascii -> bool := in_range 48 57.
Definition is_alpha (c : ascii) : bool := is_upper c || is_lower c.

Definition lower_char (c : ascii) : ascii :=
  if is_upper c then ascii_of_N (code c + 32) else c.

(** [s.lower()] on the ASCII letters. *)
Definition lower (s : str) : str := lower_char <$> s.

(** [s.replace(a, b)] for single characters. *)
Definition replace_char (a b : ascii) (s : str) : str :=
  (fun x => if bool_decide (x = a) then b else x) <$> s.

(** [s.replace(a, "")]. *)
Definition remove_char (a : ascii) (s : str) : str :=
  filter (fun x => x <> a) s.

End PyStr.


(* ===================================================================== *)
(** * urllib.parse, as CPython 3.12 has it                                *)
(* ===================================================================== *)

(** The functions of the standard library that [smart_crawler.py] calls,
    written after their source.  A string is its UTF-8 bytes; the model
    leaves out what cannot be said on bytes or never returns: the
    [ValueError] of [urlsplit] for a malformed bracketed host, and the
    replacement character [unquote] puts where percent-escapes do not
    decode to UTF-8. *)

Module UrlLib.
Import PyStr.

(** [_WHATWG_C0_CONTROL_OR_SPACE]: the characters [urlsplit] strips on
    the left. *)
Definition c0_control_or_space (c : ascii) : bool := (code c <=? 32)%N.

(** [_UNSAFE_URL_BYTES_TO_REMOVE = ['\t', '\r', '\n']]. *)
Definition unsafe_url_byte (c : ascii) : bool :=
  one_of ["009"; "013"; "010"]%char c.

(** [scheme_chars]: letters, digits and [+-.]. *)
Definition scheme_char (c : ascii) : bool :=
  is_alpha c || is_digit c || one_of ["+"; "-"; "."]%char c.

(** [i = url.find(':')]: the scheme is [url[:i]] when [i > 0], [url[0]]
    is a letter and every character of [url[:i]] is a scheme character. *)
Definition split_scheme (url : str) : str * str :=
  match break_at (is_char ":") url with
  | (c :: before, _ :: after) =>
      if is_alpha c && forallb scheme_char (c :: before)
      then (lower (c :: before), after)
      else ([], url)
  | _ => ([], url)
  end.

(** [if url[:2] == '//': netloc, url = _splitnetloc(url, 2)]. *)
Definition split_netloc (url : str) : str * str :=
  match url with
  | "/" :: "/" :: rest => break_at (one_of ["/"; "?"; "#"]) rest
  | _ => ([], url)
  end%char.

(** [if c in url: url, tail = url.split(c, 1)]. *)
Definition split_once (c : ascii) (url : str) : str * str :=
  match break_at (is_char c) url with
  | (before, _ :: after) => (before, after)
  | (before, []) => (before, [])
  end.

(** [urlsplit(url)]: (scheme, netloc, path, query, fragment). *)
Definition urlsplit (url : str) : str * str * str * str * str :=
  let url := lstrip c0_control_or_space url in
  let url := filter (fun c => negb (unsafe_url_byte c)) url in
  let '(scheme, url) := split_scheme url in
  let '(netloc, url) := split_netloc url in
  let '(url, fragment) := split_once "#" url in
  let '(url, query) := split_once "?" url in
  (scheme, netloc, url, query, fragment).

(** [uses_params]. *)
Definition uses_params : list str :=
  py <$> [""; "ftp"; "hdl"; "prospero"; "http"; "imap"; "https"; "shttp";
          "rtsp"; "rtspu"; "sip"; "sips"; "mms"; "sftp"; "tel"]%string.

(** The last element of [s.split('/')]: what follows the last slash. *)
Definition last_segment (s : str) : str :=
  rev (fst (break_at (is_char "/") (rev s))).

(** [_splitparams(url)]: cut at the first [;] after the last [/]. *)
Definition _splitparams (url : str) : str * str :=
  let seg := last_segment url in
  let dir := take (length url - length seg) url in
  match break_at (is_char ";") seg with
  | (before, _ :: after) => (dir ++ before, after)
  | (_, []) => (url, [])
  end.

Record ParseResult : Type := {
  scheme : str;
  netloc : str;
  path : str;
  params : str;
  query : str;
  fragment : str
}.

Definition urlparse (url : str) : ParseResult :=
  let '(scheme, netloc, url, query, fragment) := urlsplit url in
  let '(url, params) :=
    if bool_decide (scheme ∈ uses_params) && has_char ";" url
    then _splitparams url
    else (url, []) in
  Build_ParseResult scheme netloc url params query fragment.

(** ** Percent encoding *)

Definition hex_digit (n : N) : ascii :=
  if (n <? 10)%N then ascii_of_N (48 + n) else ascii_of_N (55 + n).

Definition hex_value (c : ascii) : option N :=
  if is_digit c then Some (code c - 48)%N
  else if in_range 65 70 c then Some (code c - 55)%N
  else if in_range 97 102 c then Some (code c - 87)%N
  else None.

(** [_ALWAYS_SAFE]: letters, digits and [_.-~]. *)
Definition always_safe (c : ascii) : bool :=
  is_alpha c || is_digit c || one_of ["_"; "."; "-"; "~"]%char c.

(** [quote_plus(s, safe='')]: safe bytes stay, a space becomes [+],
    every other byte becomes [%XX]. *)
Definition quote_plus_byte (c : ascii) : str :=
  if always_safe c then [c]
  else if bool_decide (c = " "%char) then ["+"%char]
  else ["%"%char; hex_digit (code c / 16); hex_digit (code c mod 16)].

Definition quote_plus (s : str) : str := mbind quote_plus_byte s.

(** [unquote(s)]: every [%XX] with two hex digits becomes the byte; a [%]
    not followed by two hex digits stays. *)
Fixpoint unquote (s : str) : str :=
  match s with
  | [] => []
  | c :: s1 =>
      match s1 with
      | h1 :: (h2 :: s3) =>
          if bool_decide (c = "%"%char) then
            match hex_value h1, hex_value h2 with
            | Some a, Some b => ascii_of_N (16 * a + b) :: unquote s3
            | _, _ => c :: unquote s1
            end
          else c :: unquote s1
      | _ => c :: unquote s1
      end
  end.

(** [unquote(s.replace('+', ' '))], as [parse_qsl] decodes names and
    values. *)
Definition unquote_plus (s : str) : str := unquote (replace_char "+" " " s).

(** [parse_qsl(qs, keep_blank_values=True)]. *)
Definition parse_qsl (qs : str) : list (str * str) :=
  omap (fun name_value =>
          match name_value with
          | [] => None
          | _ =>
              let '(name, rest) := break_at (is_char "=") name_value in
              Some (unquote_plus name, unquote_plus (tail rest))
          end)
       (split "&" qs).

(** A [dict] with string keys and list values, in insertion order. *)
Abbreviation qdict := (list (str * list str)).

(** [d[name].append(value)] if [name in d], else [d[name] = [value]]. *)
Fixpoint dict_append (d : qdict) (name value : str) : qdict :=
  match d with
  | [] => [(name, [value])]
  | (k, vs) :: d' =>
      if bool_decide (k = name) then (k, vs ++ [value]) :: d'
      else (k, vs) :: dict_append d' name value
  end.

(** [parse_qs(qs, keep_blank_values=True)]. *)
Definition parse_qs (qs : str) : qdict :=
  fold_left (fun d nv => dict_append d nv.1 nv.2) (parse_qsl qs) [].

(** [urlencode(query, doseq=True)] for a dict of lists. *)
Definition urlencode (query : qdict) : str :=
  join (py "&")
    (mbind (fun kv => (fun v => quote_plus kv.1 ++ py "=" ++ quote_plus v)
                        <$> kv.2) query).

(** ** What the statements about [urlsplit] and the query codec need *)

(** The characters [urlencode] produces. *)
Definition query_char (c : ascii) : bool :=
  always_safe c || one_of ["+"; "%"; "="; "&"]%char c.

(** The pairs [urlencode] writes, in order. *)
Definition flatten (d : qdict) : list (str * str) :=
  d ≫= fun kv => (fun v => (kv.1, v)) <$> kv.2.

(** One [name=value] piece of the encoded query. *)
Definition piece (nv : str * str) : str :=
  quote_plus nv.1 ++ py "=" ++ quote_plus nv.2.

(** Keys are distinct and every key has at least one value. *)
Definition well_formed (d : qdict) : Prop :=
  NoDup d.*1 /\ Forall (fun kv => kv.2 <> []) d.

(** A scheme as [urlsplit] returns it: it starts with a letter and holds
    scheme characters, none of them upper case. *)
Definition scheme_ok (s : str) : Prop :=
  (exists c rest, s = c :: rest /\ is_alpha c = true)
  /\ Forall (fun x => scheme_char x = true /\ is_upper x = false) s.

(** Characters that do not end a netloc; characters [urlsplit] does not
    remove; characters of a path; a path that is empty or starts at the
    root. *)
Definition no_delim (c : ascii) : Prop := one_of ["/"; "?"; "#"]%char c = false.
Definition url_safe (c : ascii) : Prop := unsafe_url_byte c = false.
Definition path_char (c : ascii) : Prop :=
  c <> "?"%char /\ c <> "#"%char /\ url_safe c.
Definition rooted (p : str) : Prop := p = [] \/ exists p', p = "/"%char :: p'.

(** What the four components [clean_url] uses always satisfy. *)
Definition components_ok (s n p : str) : Prop :=
  (s = [] \/ scheme_ok s)
  /\ Forall no_delim n /\ Forall url_safe n
  /\ Forall path_char p
  /\ (n <> [] -> rooted p).

End UrlLib.


(* ===================================================================== *)
(** * smart_crawler.py: SmartCrawler                                      *)
(* ===================================================================== *)

Module SmartCrawler.
Import PyStr UrlLib.

(** [self.tracking_params]. *)
Definition tracking_params : list str :=
  py <$> ["utm_source"; "utm_medium"; "utm_campaign"; "utm_term";
          "utm_content"; "fbclid"; "gclid"; "msclkid"; "mc_cid"; "mc_eid";
          "ref"; "source"; "promo"; "_ga"; "_gl"; "referrer"]%string.

(** [self.skip_patterns]. *)
Definition skip_patterns : list str :=
  py <$> [".pdf"; ".doc"; ".docx"; ".xls"; ".xlsx"; ".ppt"; ".pptx";
          ".zip"; ".rar"; ".tar"; ".gz";
          ".jpg"; ".jpeg"; ".png"; ".gif"; ".svg"; ".ico"; ".webp";
          ".mp3"; ".mp4"; ".avi"; ".mov"; ".wmv";
          ".css"; ".js"; ".json"; ".xml";
          "/wp-json/"; "/wp-content/uploads/"; "/wp-admin/";
          "/api/"; "/feed/"; "/rss/";
          "?replytocom="; "?attachment_id="; "/trackback/"]%string.

(** [{k: v for k, v in params.items() if k not in self.tracking_params}]. *)
Definition cleaned_params (params : qdict) : qdict :=
  filter (fun kv => kv.1 ∉ tracking_params) params.

Definition clean_url (url : str) : str :=
  let parsed := urlparse url in
  let bare := scheme parsed ++ py "://" ++ netloc parsed ++ path parsed in
  let clean_url :=
    match query parsed with
    | [] => bare
    | _ =>
        match cleaned_params (parse_qs (query parsed)) with
        | [] => bare
        | cleaned => bare ++ py "?" ++ urlencode cleaned
        end
    end in
  (* Remove trailing slash (except root) *)
  if endswith clean_url (py "/") && bool_decide (1 < length (path parsed))%nat
  then rstrip (is_char "/") clean_url
  else clean_url.

(** [clean_url] with the two places where the query is dropped folded
    into one. *)
Definition kept_query (q : str) : str :=
  match q with
  | [] => []
  | _ => urlencode (cleaned_params (parse_qs q))
  end.

(** A URL without its query, and the query to put after a [?] if there
    is one. *)
Definition with_query (bare e : str) : str :=
  bare ++ match e with [] => [] | _ => py "?" ++ e end.

Definition should_skip_url (url : str) : bool :=
  let url_lower := lower url in
  existsb (fun pattern => contains pattern url_lower) skip_patterns.

Definition calculate_priority (url : str) (context : string) (depth : Z) : Z :=
  let path := path (urlparse url) in
  let path_parts :=
    filter (fun p => p <> []) (split "/" (strip (is_char "/") path)) in
  if bool_decide (path ∈ [py "/"; py ""]) then 100
  else
    let score := 50 in
    let score :=
      if bool_decide (context = "nav"%string) then score + 30
      else if bool_decide (context = "footer"%string) then score + 20
      else if bool_decide (context = "homepage"%string) then score + 25
      else score + 0 in
    let url_depth := length path_parts in
    let score :=
      match url_depth with
      | 1%nat => score + 20
      | 2%nat => score + 10
      | 3%nat => score + 0
      | 4%nat => score - 10
      | _ => score - 20
      end in
    let score := score - depth * 5 in
    let score := if has_char "?" url then score - 5 else score in
    Z.max 0 (Z.min 100 score).

(** ** The scoring rule as the specification words it *)

(** The number of path segments: the maximal runs of characters other
    than [/].  [at_start] says that the previous character was a slash (or
    that there is none). *)
Fixpoint count_segments_from (at_start : bool) (path : str) : nat :=
  match path with
  | [] => 0
  | c :: rest =>
      if bool_decide (c = "/"%char) then count_segments_from true rest
      else ((if at_start then 1 else 0) + count_segments_from false rest)%nat
  end.

Definition count_segments (path : str) : nat := count_segments_from true path.

Definition context_bonus (context : string) : Z :=
  if bool_decide (context = "nav"%string) then 30
  else if bool_decide (context = "footer"%string) then 20
  else if bool_decide (context = "homepage"%string) then 25
  else 0.

(** The segment bonus where the specification gives one: for 1, 2, 3, 4
    and for 5 or more segments. *)
Definition segment_bonus_listed (n : nat) : option Z :=
  match n with
  | 0%nat => None
  | 1%nat => Some 20
  | 2%nat => Some 10
  | 3%nat => Some 0
  | 4%nat => Some (-10)
  | _ => Some (-20)
  end.

(** The segment bonus of the code: -20 is the [else] branch, taken also
    for no segment at all. *)
Definition segment_bonus (n : nat) : Z :=
  default (-20) (segment_bonus_listed n).

Definition clamp (score : Z) : Z := Z.max 0 (Z.min 100 score).

Definition is_root (path : str) : bool :=
  bool_decide (path = py "/") || bool_decide (path = py "").

(** The formula with the listed bonuses and the penalty for a URL that
    has a query component; no value where no bonus is listed. *)
Definition priority_as_specified (url : str) (context : string) (depth : Z)
  : option Z :=
  let parsed := urlparse url in
  if is_root (path parsed) then Some 100
  else
    bonus ← segment_bonus_listed (count_segments (path parsed));
    Some (clamp (50 + context_bonus context + bonus - 5 * depth
                 - (if bool_decide (query parsed = []) then 0 else 5))).

(** The formula the code computes: the [else] bonus for any other
    segment count, and the penalty for a [?] anywhere in the URL. *)
Definition priority_formula (url : str) (context : string) (depth : Z) : Z :=
  let path := path (urlparse url) in
  if is_root path then 100
  else clamp (50 + context_bonus context
              + segment_bonus (count_segments path)
              - 5 * depth
              - (if has_char "?" url then 5 else 0)).

(** What a sitemap candidate URL answers with status 200 and a body that
    parses: the [<sitemap><loc>] texts and the [<url><loc>] texts. *)
Record sitemap_doc : Type := {
  sitemaps : list str;
  urls : list str
}.

(** [len(d)] for a dict. *)
Definition len {V} (d : gmap str V) : Z := Z.of_nat (size d).

(** The state of [discover_important_pages]: the two dicts of the
    crawler, the queue and the visited set of the walk, and (for the
    statements only) the pages handed to [extract_all_links], in order. *)
Record walk : Type := Walk {
  discovered_urls : gmap str Z;
  url_depths : gmap str Z;
  to_crawl : list (str * Z);
  crawled : gset str;
  extracted : list str
}.

Section Discovery.
Variable base_url : str.
Variable max_urls : Z.
Variable max_depth : Z.

(** The site.  [get_sitemap u] is [None] when the request or the XML
    parser raises or the status is not 200; [get_sub_sitemap u] is [None]
    when fetching or parsing a child sitemap raises;
    [extract_all_links u] is the items of the dict that method returns
    (empty when the page cannot be fetched). *)
Variable get_sitemap : str -> option sitemap_doc.
Variable get_sub_sitemap : str -> option (list str).
Variable extract_all_links : str -> list (str * string).

Definition domain : str := netloc (urlparse base_url).

(** The [<loc>] texts that survive normalization and the skip filter. *)
Definition keep_locs (locs : list str) : list str :=
  filter (fun u => should_skip_url u = false) (clean_url <$> locs).

Fixpoint try_sitemaps (sitemap_urls : list str) : list str :=
  match sitemap_urls with
  | [] => []
  | sitemap_url :: rest =>
      match get_sitemap sitemap_url with
      | Some doc =>
          match sitemaps doc with
          | [] => keep_locs (urls doc)
          | subs =>
              mbind (fun sub => match get_sub_sitemap sub with
                                | Some locs => keep_locs locs
                                | None => []
                                end)
                    (take 5 subs)
          end
      | None => try_sitemaps rest
      end
  end.

Definition parse_sitemap : list str :=
  try_sitemaps [base_url ++ py "/sitemap.xml";
                base_url ++ py "/sitemap_index.xml";
                py "https://" ++ domain ++ py "/sitemap.xml";
                py "https://" ++ domain ++ py "/sitemap_index.xml"].

(** The state before the sitemap is looked at. *)
Definition start : walk :=
  Walk {[ base_url := 100 ]} {[ base_url := 0 ]} [(base_url, 0)] ∅ [].

(** [for url in sitemap_urls: ...]. *)
Definition seed_sitemap (w : walk) (url : str) : walk :=
  if bool_decide (url ∈ dom (discovered_urls w)) then w
  else
    let priority := calculate_priority url "sitemap" 1 in
    Walk (<[url := priority]> (discovered_urls w))
         (<[url := 1]> (url_depths w))
         (to_crawl w) (crawled w) (extracted w).

Definition seeded : walk := fold_left seed_sitemap parse_sitemap start.

(** [for url, context in page_links.items(): ...]. *)
Fixpoint scan_links (current_depth : Z) (page_links : list (str * string))
    (w : walk) : walk :=
  match page_links with
  | [] => w
  | (url, context) :: rest =>
      if bool_decide (len (discovered_urls w) >= max_urls) then w
      else
        let priority := calculate_priority url context (current_depth + 1) in
        if bool_decide (url ∈ dom (discovered_urls w))
        then scan_links current_depth rest w
        else
          let to_crawl' :=
            if bool_decide (current_depth + 1 <= max_depth)
            then to_crawl w ++ [(url, current_depth + 1)]
            else to_crawl w in
          scan_links current_depth rest
            (Walk (<[url := priority]> (discovered_urls w))
                  (<[url := current_depth + 1]> (url_depths w))
                  to_crawl' (crawled w) (extracted w))
  end.

(** One iteration of [while to_crawl and len(...) < self.max_urls];
    [None] when the loop condition fails. *)
Definition bfs_step (w : walk) : option walk :=
  match to_crawl w with
  | [] => None
  | (current_url, current_depth) :: rest =>
      if bool_decide (len (discovered_urls w) < max_urls) then
        if bool_decide (current_url ∈ crawled w)
           || bool_decide (current_depth > max_depth)
        then Some (Walk (discovered_urls w) (url_depths w) rest
                        (crawled w) (extracted w))
        else
          Some (scan_links current_depth (extract_all_links current_url)
                  (Walk (discovered_urls w) (url_depths w) rest
                        ({[ current_url ]} ∪ crawled w)
                        (extracted w ++ [current_url])))
      else None
  end.

(** The walk after [n] iterations (or at its end, if that comes first). *)
Fixpoint bfs (n : nat) (w : walk) : walk :=
  match n with
  | O => w
  | S n' => match bfs_step w with
            | Some w' => bfs n' w'
            | None => w
            end
  end.

(** Iterations that are always enough: each one takes an entry off the
    queue, and an entry is put on it only together with a new key of
    [discovered_urls], of which there is room for [max_urls - len] more. *)
Definition room (w : walk) : nat :=
  Z.to_nat (max_urls - len (discovered_urls w)).

Definition enough (w : walk) : nat := (length (to_crawl w) + room w)%nat.

Definition discover_important_pages : walk := bfs (enough seeded) seeded.

(** What holds of the walk after any number of iterations: a queue entry
    is the seed pair or a link found later, no deeper than [max_depth];
    no page was handed to [extract_all_links] twice, and [crawled] is the
    set of those pages; keys are never removed from [discovered_urls], and
    their number grows only while it is below [max_urls]. *)
Definition walk_invariant (w : walk) : Prop :=
  Forall (fun e => e = (base_url, 0)
                   \/ (e.2 <= max_depth
                       /\ e.1 ∉ dom (discovered_urls seeded))) (to_crawl w)
  /\ NoDup (extracted w)
  /\ (forall u, u ∈ crawled w <-> u ∈ extracted w)
  /\ dom (discovered_urls seeded) ⊆ dom (discovered_urls w)
  /\ len (discovered_urls w) <= Z.max max_urls (len (discovered_urls seeded)).

End Discovery.
End SmartCrawler.

(* ===================================================================== *)
(** * content_crawler.py: ContentExtractor                                *)
(* ===================================================================== *)

Module ContentExtractor.

(** What one pass through the [try] body of [extract_clean_content] ends
  in: the page was fetched and parsed, or one of the three handlers ran. *)
Inductive attempt_outcome : Type :=
| Fetched (content : string) (word_count : Z)
| Timeout (e : string)             (* requests.exceptions.Timeout *)
| RequestException (e : string)    (* any other requests exception *)
| OtherException (e : string).     (* except Exception *)

(** The dict [extract_clean_content] returns, with the keys both the
  success and the failure dict carry ([error] is absent on success;
  the timestamp in [metadata] is left out). *)
Record fetch_result : Type := FetchResult {
  metadata_url : string;
  content : string;
  error : option string;
  extraction_successful : bool;
  attempts : Z
}.

(** What the function does to the outside world, in order. *)
Inductive event : Type :=
| EvRequest (attempt : Z)          (* requests.get in iteration [attempt] *)
| EvSleep (seconds : Z).           (* time.sleep(seconds) *)

Section Extract.
(** [fetch url attempt]: how the [try] body ends in iteration [attempt]
    (0-based, as the loop variable). *)
Variable fetch : string -> Z -> attempt_outcome.

Definition failure (url : string) (msg : string) (n : Z) : fetch_result :=
  FetchResult url "" (Some msg) false n.

(** The body of [for attempt in range(self.max_retries)], over the
    attempts that are left.  Running off the end of the range leaves
    the function without a [return]: Python's [None]. *)
Fixpoint for_attempt (url : string) (max_retries : Z) (rng : list Z)
  : option fetch_result * list event :=
  match rng with
  | [] => (None, [])
  | attempt :: rest =>
    match fetch url attempt with
    | Fetched text wc =>
        (Some (FetchResult url text None true (attempt + 1)),
         [EvRequest attempt])
    | Timeout e =>
        if bool_decide (attempt < max_retries - 1) then
          let wait_time := 2 ^ (attempt + 1) in
          let '(r, tr) := for_attempt url max_retries rest in
          (r, EvRequest attempt :: EvSleep wait_time :: tr)
        else
          (Some (failure url
                   ("Timeout after " +:+ str_of_int max_retries
                      +:+ " attempts: " +:+ e) max_retries),
           [EvRequest attempt])
    | RequestException e =>
        if bool_decide (attempt < max_retries - 1) then
          let wait_time := 2 ^ (attempt + 1) in
          let '(r, tr) := for_attempt url max_retries rest in
          (r, EvRequest attempt :: EvSleep wait_time :: tr)
        else
          (Some (failure url
                   ("Request failed after " +:+ str_of_int max_retries
                      +:+ " attempts: " +:+ e) max_retries),
           [EvRequest attempt])
    | OtherException e =>
        (Some (failure url e (attempt + 1)), [EvRequest attempt])
    end
  end.

Definition extract_clean_content (url : string) (max_retries : Z)
  : option fetch_result * list event :=
  for_attempt url max_retries (seqZ 0 max_retries).

(** Projections of a trace. *)
Definition requests (tr : list event) : list Z :=
  omap (fun ev => match ev with EvRequest a => Some a | _ => None end) tr.

Definition sleeps (tr : list event) : list Z :=
  omap (fun ev => match ev with EvSleep s => Some s | _ => None end) tr.

(** The error of a transient failure, if the outcome is one. *)
Definition transient_error (o : attempt_outcome) : option string :=
  match o with
  | Timeout e | RequestException e => Some e
  | _ => None
  end.

(** [e] occurs in [msg] as its tail: the handlers end the message with
    [str(e)]. *)
Definition carries (msg e : string) : Prop :=
  exists prefix, msg = prefix +:+ e.

End Extract.

(** The trace of a run in which attempts [a .. a+k] all fail transiently:
    request, sleep [2^(attempt+1)], request, ..., request. *)
Definition backoff_trace (a : Z) (k : nat) : list event :=
  concat ((fun i => [EvRequest i; EvSleep (2 ^ (i + 1))])
            <$> seqZ a (Z.of_nat k))
  ++ [EvRequest (a + Z.of_nat k)].

End ContentExtractor.


(* ===================================================================== *)
(** * value_extraction.py                                                 *)
(* ===================================================================== *)

(** A function either returns a value or raises. *)
Inductive outcome (A : Type) : Type :=
| Returned (a : A)
| Raised (e : string).
Arguments Returned {A} a.
Arguments Raised {A} e.

#[global] Instance outcome_ret : MRet outcome := fun A a => Returned a.
#[global] Instance outcome_bind : MBind outcome := fun A B k m =>
  match m with
  | Returned a => k a
  | Raised e => Raised e
  end.

Module ValueExtraction.

#[local] Set Warnings "-register-all".

(** The values [json.loads] produces. *)
Inductive json : Type :=
| JNull
| JBool (b : bool)
| JNum (n : Z)
| JStr (s : string)
| JList (l : list json)
| JDict (d : list (string * json)).

Definition get_empty_structure : json :=
  JDict [("company_name", JStr "");
         ("company_email", JStr "");
         ("company_location", JStr "");
         ("company_phone", JStr "");
         ("company_industry_type", JStr "");
         ("company_social_links",
          JDict [("linkedin", JStr ""); ("twitter", JStr "");
                 ("facebook", JStr ""); ("instagram", JStr "");
                 ("youtube", JStr ""); ("other", JList [])]);
         ("description", JStr "");
         ("company_persons", JList [])]%string.

(** One entry of the OpenAI request log. *)
Record log_entry : Type := LogEntry {
  file_processed : string;
  prompt : string;
  response : string;
  tokens_used : option (Z * Z * Z)
}.

(** [log_openai_request]: the log file holds a list; the entry goes at
    its end. *)
Definition log_openai_request (log : list log_entry)
    (file_being_processed prompt response_content : string)
    (tokens_used : option (Z * Z * Z)) : list log_entry :=
  log ++ [LogEntry file_being_processed prompt response_content tokens_used].

(** What [client.chat.completions.create] does. *)
Inductive completion : Type :=
| Completion (content : string) (prompt_tokens completion_tokens total_tokens : Z)
| CreateRaises (e : string).

(** [bool(v)]. *)
Definition truthy (v : json) : bool :=
  match v with
  | JNull => false
  | JBool b => b
  | JNum n => negb (n =? 0)
  | JStr s => negb (bool_decide (s = ""%string))
  | JList l => negb (bool_decide (length l = 0%nat))
  | JDict d => negb (bool_decide (length d = 0%nat))
  end.

Fixpoint lookup_key (d : list (string * json)) (k : string) : option json :=
  match d with
  | [] => None
  | (k', v) :: d' => if bool_decide (k' = k) then Some v else lookup_key d' k
  end.

(** [v.get(k, default)]; only a dict has [get]. *)
Definition py_get (v : json) (k : string) (default : json) : outcome json :=
  match v with
  | JDict d => Returned (from_option id default (lookup_key d k))
  | _ => Raised "AttributeError: object has no attribute 'get'"
  end.

(** [len(v)]. *)
Definition py_len (v : json) : outcome Z :=
  match v with
  | JStr s => Returned (Z.of_nat (String.length s))
  | JList l => Returned (Z.of_nat (length l))
  | JDict d => Returned (Z.of_nat (length d))
  | _ => Raised "TypeError: object has no len()"
  end.

Section Extract.
(** The file system, the prompt template and the services:
    [read_file_content p] is [None] when opening or reading [p] raises;
    [make_prompt dumped content] is the f-string around
    [json.dumps(current_data, indent=2)] and the file content;
    [json_loads s] is [None] when [s] is not JSON. *)
Variable basename : string -> string.
Variable read_file_content : string -> option string.
Variable json_dumps : json -> string.
Variable make_prompt : string -> string -> string.
Variable create : string -> completion.
Variable json_loads : string -> option json.

(** The statements of the [try] block after the log entry is written:
    they only print, but their look-ups can raise. *)
Definition show_what_was_found (extracted_data current_data : json)
  : outcome unit :=
  _ ← py_get extracted_data "company_name" JNull;
  persons ← py_get extracted_data "company_persons" JNull;
  if truthy persons then
    new ← py_len persons;
    old_persons ← py_get current_data "company_persons" (JList []);
    old ← py_len old_persons;
    mret tt
  else mret tt.

(** The [try] block: the extracted data, or the exception it raised, and
    the log as it stands then. *)
Definition try_extract (filename prompt : string) (current_data : json)
    (log : list log_entry) : outcome json * list log_entry :=
  match create prompt with
  | CreateRaises e => (Raised e, log)
  | Completion response_content ptok ctok ttok =>
      match json_loads response_content with
      | None => (Raised "JSONDecodeError", log)
      | Some extracted_data =>
          let log := log_openai_request log filename prompt response_content
                       (Some (ptok, ctok, ttok)) in
          match show_what_was_found extracted_data current_data with
          | Raised e => (Raised e, log)
          | Returned _ => (Returned extracted_data, log)
          end
      end
  end.

Definition extract_value_from_file (filepath : string) (current_data : json)
    (log : list log_entry) : outcome json * list log_entry :=
  let filename := basename filepath in
  match read_file_content filepath with
  | None => (Raised "OSError", log)
  | Some file_content =>
      let prompt := make_prompt (json_dumps current_data) file_content in
      match try_extract filename prompt current_data log with
      | (Returned extracted_data, log) => (Returned extracted_data, log)
      | (Raised e, log) =>
          (Returned current_data,
           log_openai_request log filename prompt ("ERROR: " +:+ e) None)
      end
  end.

(** The prompt the call for [filepath] is made with. *)
Definition prompt_for (filepath : string) (current_data : json)
  : option string :=
  make_prompt (json_dumps current_data) <$> read_file_content filepath.

End Extract.
End ValueExtraction.

(* ===================================================================== *)
(** * run.py: WorkflowEngine, the producer and the consumer               *)
(* ===================================================================== *)

Module WorkflowEngine.
Import ValueExtraction.

(** Where the producer [extract_content] stands: before the iteration
    for the [idx]-th URL with [todo] left, after its [return], or dead
    from an exception. *)
Inductive producer_pc : Type :=
| PLoop (idx : Z) (todo : list string)
| PReturned
| PCrashed.

(** Where the consumer [extract_values_from_queue] stands: at the top of
    [while True], in [file_queue.get()], after its [return], or dead from
    an exception of [extract_value_from_file]. *)
Inductive consumer_pc : Type :=
| CPoll
| CGet
| CReturned
| CCrashed (e : string).

(** The two loops, the queue and the flag between them, and the files the
    consumer writes.  [enqueued], [taken] and [drained] are not in the
    program: they record the items put on the queue, the items
    [file_queue.get()] returned and the items the drain threw away. *)
Record system : Type := System {
  producer : producer_pc;
  successful : Z;
  failed_urls : list (string * string);
  file_queue : list (option string);
  job_cancellation : gmap string bool;
  consumer : consumer_pc;
  accumulated_data : json;
  file_count : Z;
  log_file : list log_entry;
  progress_file : option (string * json);
  output_file : option json;
  enqueued : list (option string);
  taken : list (option string);
  drained : list (option string)
}.

(** The artifact paths among queue items (the sentinel is [None]). *)
Definition paths (items : list (option string)) : list string :=
  omap id items.

(** The artifacts handed to [extract_value_from_file], in order. *)
Definition processed (s : system) : list string := paths (taken s).

(** Who moves next: the producer thread, the consumer thread, or the
    request handler [cancel_job(job_id)]. *)
Inductive actor : Type :=
| Producer
| Consumer
| CancelJob (job_id : string).

Section Pipeline.
(** The arguments of the two methods ([job_id] is [None] when it is not
    passed; the dict is the module-level [job_cancellation] of app.py). *)
Variable job_id : option string.
Variable useful_urls : list string.

(** The services the loops call. *)
Variable extract_clean_content : string -> option ContentExtractor.fetch_result.
Variable save_as_markdown : Z -> string -> string.
Variable basename : string -> string.
Variable read_file_content : string -> option string.
Variable json_dumps : json -> string.
Variable make_prompt : string -> string -> string.
Variable create : string -> completion.
Variable json_loads : string -> option json.

(** [job_id and job_cancellation and job_cancellation.get(job_id)]; a
    dict that is not passed ([None]) is as falsy as the empty one. *)
Definition cancelled (job_cancellation : gmap string bool) : bool :=
  match job_id with
  | None => false
  | Some j =>
      negb (bool_decide (j = ""%string))
      && negb (bool_decide (size job_cancellation = 0%nat))
      && from_option id false (job_cancellation !! j)
  end.

(** One iteration of the [for] loop of [extract_content], or the code
    after the loop.  [useful_urls] is the list read from the CSV file; when
    it is empty the method returns early after the same [put(None)] that
    follows the loop. *)
Definition producer_step (s : system) : option system :=
  match producer s with
  | PLoop idx [] =>
      (* Signal completion to consumer *)
      Some (System PReturned (successful s) (failed_urls s)
              (file_queue s ++ [None]) (job_cancellation s)
              (consumer s) (accumulated_data s) (file_count s) (log_file s)
              (progress_file s) (output_file s)
              (enqueued s ++ [None]) (taken s) (drained s))
  | PLoop idx (url :: todo) =>
      if cancelled (job_cancellation s) then
        Some (System PReturned (successful s) (failed_urls s)
                (file_queue s ++ [None]) (job_cancellation s)
                (consumer s) (accumulated_data s) (file_count s) (log_file s)
                (progress_file s) (output_file s)
                (enqueued s ++ [None]) (taken s) (drained s))
      else
        match extract_clean_content url with
        | None =>
            (* data is None: data['extraction_successful'] raises *)
            Some (System PCrashed (successful s) (failed_urls s)
                    (file_queue s) (job_cancellation s)
                    (consumer s) (accumulated_data s) (file_count s)
                    (log_file s) (progress_file s) (output_file s)
                    (enqueued s) (taken s) (drained s))
        | Some data =>
            if ContentExtractor.extraction_successful data then
              let filepath := save_as_markdown idx url in
              Some (System (PLoop (idx + 1) todo) (successful s + 1)
                      (failed_urls s)
                      (file_queue s ++ [Some filepath]) (job_cancellation s)
                      (consumer s) (accumulated_data s) (file_count s)
                      (log_file s) (progress_file s) (output_file s)
                      (enqueued s ++ [Some filepath]) (taken s) (drained s))
            else
              Some (System (PLoop (idx + 1) todo) (successful s)
                      (failed_urls s ++
                         [(url, default "Unknown"%string
                                  (ContentExtractor.error data))])
                      (file_queue s) (job_cancellation s)
                      (consumer s) (accumulated_data s) (file_count s)
                      (log_file s) (progress_file s) (output_file s)
                      (enqueued s) (taken s) (drained s))
        end
  | PReturned | PCrashed => None
  end.

(** The consumer, from one blocking point to the next: the cancellation
    check at the top of the loop, and [file_queue.get()] with the rest
    of the iteration.  [None] when the thread is blocked or gone. *)
Definition consumer_step (s : system) : option system :=
  match consumer s with
  | CPoll =>
      if cancelled (job_cancellation s) then
        (* Drain the queue; save partial results *)
        Some (System (producer s) (successful s) (failed_urls s)
                [] (job_cancellation s)
                CReturned (accumulated_data s) (file_count s) (log_file s)
                (progress_file s)
                (if bool_decide (file_count s > 0)
                 then Some (accumulated_data s) else output_file s)
                (enqueued s) (taken s) (drained s ++ file_queue s))
      else
        Some (System (producer s) (successful s) (failed_urls s)
                (file_queue s) (job_cancellation s)
                CGet (accumulated_data s) (file_count s) (log_file s)
                (progress_file s) (output_file s)
                (enqueued s) (taken s) (drained s))
  | CGet =>
      match file_queue s with
      | [] => None
      | None :: rest =>
          (* None signals completion: break, then save final output *)
          Some (System (producer s) (successful s) (failed_urls s)
                  rest (job_cancellation s)
                  CReturned (accumulated_data s) (file_count s) (log_file s)
                  (progress_file s) (Some (accumulated_data s))
                  (enqueued s) (taken s ++ [None]) (drained s))
      | Some filepath :: rest =>
          let file_count := file_count s + 1 in
          let filename := basename filepath in
          match extract_value_from_file basename read_file_content json_dumps
                  make_prompt create json_loads
                  filepath (accumulated_data s) (log_file s) with
          | (Returned accumulated_data, log) =>
              Some (System (producer s) (successful s) (failed_urls s)
                      rest (job_cancellation s)
                      CPoll accumulated_data file_count log
                      (Some (filename, accumulated_data)) (output_file s)
                      (enqueued s) (taken s ++ [Some filepath]) (drained s))
          | (Raised e, log) =>
              Some (System (producer s) (successful s) (failed_urls s)
                      rest (job_cancellation s)
                      (CCrashed e) (accumulated_data s) file_count log
                      (progress_file s) (output_file s)
                      (enqueued s) (taken s ++ [Some filepath]) (drained s))
          end
      end
  | CReturned | CCrashed _ => None
  end.

(** [cancel_job]: [if job_id in job_cancellation: job_cancellation[job_id] = True]. *)
Definition cancel_job (j : string) (s : system) : system :=
  System (producer s) (successful s) (failed_urls s)
    (file_queue s)
    (if bool_decide (j ∈ dom (job_cancellation s))
     then <[j := true]> (job_cancellation s) else job_cancellation s)
    (consumer s) (accumulated_data s) (file_count s) (log_file s)
    (progress_file s) (output_file s)
    (enqueued s) (taken s) (drained s).

Definition step (a : actor) (s : system) : option system :=
  match a with
  | Producer => producer_step s
  | Consumer => consumer_step s
  | CancelJob j => Some (cancel_job j s)
  end.

(** A schedule names who moves at each instant; a thread that cannot
    move when it is named stays where it is. *)
Definition run (schedule : list actor) (s : system) : system :=
  fold_left (fun s a => default s (step a s)) schedule s.

(** Both methods at their first statement, an empty queue, and the job
    registered as [run_pipeline_async] does ([job_cancellation[job_id] =
    False]). *)
Definition initial (job_cancellation : gmap string bool) : system :=
  System (PLoop 1 useful_urls) 0 [] [] job_cancellation
         CPoll get_empty_structure 0 [] None None [] [] [].

(** The accumulated snapshot as a left-to-right fold of the extraction
    step over a list of artifacts, with the log it leaves. *)
Fixpoint fold_artifacts (paths : list string) (data : json)
    (log : list log_entry) : outcome json * list log_entry :=
  match paths with
  | [] => (Returned data, log)
  | p :: rest =>
      match extract_value_from_file basename read_file_content json_dumps
              make_prompt create json_loads p data log with
      | (Returned data', log') => fold_artifacts rest data' log'
      | (Raised e, log') => (Raised e, log')
      end
  end.

(** The consumer's variables agree with the artifacts it has processed. *)
Definition consumer_ok (s : system) : Prop :=
  fold_artifacts (processed s) get_empty_structure []
    = (Returned (accumulated_data s), log_file s)
  /\ file_count s = Z.of_nat (length (processed s)).

(** What holds of every state the two threads can reach. *)
Definition invariant (s : system) : Prop :=
  enqueued s = taken s ++ drained s ++ file_queue s
  /\ enqueued s
     = (Some <$> paths (enqueued s))
       ++ match producer s with PReturned => [None] | _ => [] end
  /\ match consumer s with
     | CPoll | CGet =>
         consumer_ok s /\ taken s = Some <$> processed s
         /\ drained s = [] /\ output_file s = None
     | CReturned =>
         consumer_ok s
         /\ ((taken s = (Some <$> processed s) ++ [None]
              /\ drained s = []
              /\ output_file s = Some (accumulated_data s))
             \/ (taken s = Some <$> processed s
                 /\ cancelled (job_cancellation s) = true
                 /\ output_file s
                    = if bool_decide (file_count s > 0)
                      then Some (accumulated_data s) else None))
     | CCrashed e =>
         taken s = Some <$> processed s
         /\ exists log,
             fold_artifacts (processed s) get_empty_structure []
               = (Raised e, log)
     end.

End Pipeline.
End WorkflowEngine.

(* ===================================================================== *)
(** * A small site and pipeline to run the definitions on                 *)
(* ===================================================================== *)

Module Sample.
Import ValueExtraction WorkflowEngine.

(** Every page is fetched at the first attempt. *)
Definition extract_clean_content (url : string)
  : option ContentExtractor.fetch_result :=
  Some (ContentExtractor.FetchResult url "text" None true 1).

Definition save_as_markdown (idx : Z) (url : string) : string := url.
Definition basename (p : string) : string := p.
Definition read_file_content (p : string) : option string := Some p.

(** The snapshot is a dict with a description; the service appends the
    new content to it, so the order of the artifacts shows in the result. *)
Definition json_dumps (d : json) : string :=
  match d with
  | JDict [(_, JStr s)] => s
  | _ => ""
  end.
Definition make_prompt (dumped content : string) : string :=
  dumped +:+ content.
Definition json_loads (s : string) : option json :=
  Some (JDict [("description"%string, JStr s)]).
Definition create (prompt : string) : completion :=
  Completion prompt 0 0 0.

(** The same service, failing on the second artifact. *)
Definition create_failing (prompt : string) : completion :=
  if bool_decide (prompt = "AB"%string) then CreateRaises "rate limit"
  else Completion prompt 0 0 0.

Definition run (job_id : option string) (useful_urls : list string)
    (jc : gmap string bool) (schedule : list actor) : system :=
  WorkflowEngine.run job_id extract_clean_content save_as_markdown basename
    read_file_content json_dumps make_prompt create json_loads schedule
    (initial useful_urls jc).

End Sample.

Module SampleSite.
Import PyStr SmartCrawler.

Definition base_url : str := py "https://example.com".

(** A plain sitemap with three locations at [/sitemap.xml]. *)
Definition get_sitemap (u : str) : option sitemap_doc :=
  if bool_decide (u = py "https://example.com/sitemap.xml") then
    Some {| sitemaps := [];
            urls := [py "https://example.com/about";
                     py "https://example.com/team/";
                     py "https://example.com/pricing?utm_source=ad"] |}
  else None.

Definition get_sub_sitemap (u : str) : option (list str) := None.

(** The home page links to the blog and to [/about]; the blog links to a
    post; no other page has links. *)
Definition extract_all_links (u : str) : list (str * string) :=
  if bool_decide (u = base_url) then
    [(py "https://example.com/blog", "nav"%string);
     (py "https://example.com/about", "nav"%string)]
  else if bool_decide (u = py "https://example.com/blog") then
    [(py "https://example.com/blog/post-1", "body"%string)]
  else [].

Definition seeded : walk :=
  SmartCrawler.seeded base_url get_sitemap get_sub_sitemap.

Definition discover_important_pages (max_urls max_depth : Z) : walk :=
  SmartCrawler.discover_important_pages base_url max_urls max_depth
    get_sitemap get_sub_sitemap extract_all_links.

End SampleSite.

(* ===================================================================== *)
(** * More of the code                                                    *)
(* ===================================================================== *)

Module Backoff.
Import ContentExtractor.

(** The seconds a run spends in [time.sleep]. *)
Definition total_sleep (tr : list event) : Z := foldr Z.add 0 (sleeps tr).

(** Request, sleep, request, sleep, ...: what [k] transient failures from
    attempt [a] on leave in the trace. *)
Definition retries_trace (a : Z) (k : nat) : list event :=
  concat ((fun i => [EvRequest i; EvSleep (2 ^ (i + 1))])
            <$> seqZ a (Z.of_nat k)).

End Backoff.

Module WalkRecords.
Import PyStr SmartCrawler.

(** What the two dicts and the queue of the walk hold together: the same
    keys in both dicts, scores from 0 to 100, depths from 0 to one beyond
    [max_depth] (the sitemap's depth 1 included), every queue entry at
    the depth recorded for its URL, and every extracted page recorded. *)
Definition recorded (max_depth : Z) (w : walk) : Prop :=
  dom (discovered_urls w) = dom (url_depths w)
  /\ (forall u p, discovered_urls w !! u = Some p -> 0 <= p <= 100)
  /\ (forall u d, url_depths w !! u = Some d ->
                  0 <= d <= Z.max 1 (max_depth + 1))
  /\ Forall (fun e => url_depths w !! e.1 = Some e.2) (to_crawl w)
  /\ (forall u, u ∈ extracted w -> u ∈ dom (discovered_urls w)).

End WalkRecords.

Module PipelineSpec.
Import ValueExtraction WorkflowEngine.

(** A request to cancel, as opposed to a move of one of the two threads. *)
Definition is_cancel (a : actor) : bool :=
  match a with CancelJob _ => true | _ => false end.

(** A state without its cancellation flags. *)
Definition unflagged (s : system) : system :=
  System (producer s) (successful s) (failed_urls s) (file_queue s) ∅
         (consumer s) (accumulated_data s) (file_count s) (log_file s)
         (progress_file s) (output_file s)
         (enqueued s) (taken s) (drained s).

Section PipelineSpec.
Variable job_id : option string.
Variable useful_urls : list string.
Variable extract_clean_content : string -> option ContentExtractor.fetch_result.
Variable save_as_markdown : Z -> string -> string.
Variable basename : string -> string.
Variable read_file_content : string -> option string.
Variable json_dumps : json -> string.
Variable make_prompt : string -> string -> string.
Variable create : string -> completion.
Variable json_loads : string -> option json.

(** The artifacts the loop of [extract_content] queues for [urls], the
    first of which is numbered [idx] by [enumerate]: one per page that
    was extracted, up to the first page for which the extractor returns
    [None], where the loop dies. *)
Fixpoint artifacts (idx : Z) (urls : list string) : list string :=
  match urls with
  | [] => []
  | url :: rest =>
      match extract_clean_content url with
      | None => []
      | Some data =>
          if ContentExtractor.extraction_successful data
          then save_as_markdown idx url :: artifacts (idx + 1) rest
          else artifacts (idx + 1) rest
      end
  end.

(** The entries the same loop appends to [failed_urls]. *)
Fixpoint failures (urls : list string) : list (string * string) :=
  match urls with
  | [] => []
  | url :: rest =>
      match extract_clean_content url with
      | None => []
      | Some data =>
          if ContentExtractor.extraction_successful data
          then failures rest
          else (url, default "Unknown"%string (ContentExtractor.error data))
                 :: failures rest
      end
  end.

(** The producer's variables agree with the URLs it has gone through. *)
Definition producer_ok (s : system) : Prop :=
  exists done todo,
    useful_urls = done ++ todo
    /\ Forall (fun url => is_Some (extract_clean_content url)) done
    /\ paths (enqueued s) = artifacts 1 done
    /\ failed_urls s = failures done
    /\ successful s = Z.of_nat (length (artifacts 1 done))
    /\ match producer s with
       | PLoop idx todo' => todo' = todo /\ idx = 1 + Z.of_nat (length done)
       | PReturned => todo = [] \/ is_Some job_id
       | PCrashed =>
           exists url rest,
             todo = url :: rest /\ extract_clean_content url = None
       end.

(** [extract_values], the sequential counterpart of the consumer, on the
    files [get_markdown_files] returned: what it leaves in the output
    file ([None]: the file is not written) and in the log.  An exception
    of [extract_value_from_file] ends it before [save_output]. *)
Definition extract_values (md_files : list string)
  : option json * list log_entry :=
  match md_files with
  | [] => (None, [])
  | _ =>
      match fold_artifacts basename read_file_content json_dumps make_prompt
              create json_loads md_files get_empty_structure [] with
      | (Returned accumulated_data, log) => (Some accumulated_data, log)
      | (Raised _, log) => (None, log)
      end
  end.

End PipelineSpec.
End PipelineSpec.

Module SaveResults.
Import PyStr.

(** A cell of a CSV row. *)
Inductive cell : Type :=
| CStr (s : str)
| CInt (n : Z).

(** Where [x] goes in a list that is sorted by priority, highest first:
    after the entries of higher priority and before those of the same. *)
Fixpoint insert_by_priority (x : str * Z) (l : list (str * Z))
  : list (str * Z) :=
  match l with
  | [] => [x]
  | y :: l' =>
      if bool_decide (x.2 < y.2) then y :: insert_by_priority x l'
      else x :: l
  end.

(** [sorted(items, key=lambda x: x[1], reverse=True)].  Python's sort is
    stable, also with [reverse=True]: entries of equal priority keep the
    order they have in [items].  There is one such list, and inserting
    the entries from the last to the first builds it. *)
Definition sorted_by_priority (items : list (str * Z)) : list (str * Z) :=
  foldr insert_by_priority [] items.

(** [l[:n]]: a negative [n] counts from the end. *)
Definition slice_to {A} (n : Z) (l : list A) : list A :=
  if bool_decide (0 <= n) then take (Z.to_nat n) l
  else take (length l - Z.to_nat (- n)) l.

(** The local [sorted_urls] of [save_results], from the items of
    [self.discovered_urls] in insertion order. *)
Definition sorted_urls (items : list (str * Z)) (max_urls : Z)
  : list (str * Z) :=
  slice_to max_urls (sorted_by_priority items).

(** The rows [save_results] writes to the CSV file. *)
Definition save_results (items : list (str * Z)) (max_urls : Z)
  : list (list cell) :=
  [CStr (py "url"); CStr (py "isUseful"); CStr (py "priority")]
  :: ((fun '(url, priority) => [CStr url; CStr (py ""); CInt priority])
        <$> sorted_urls items max_urls).

(** Highest priority first. *)
Fixpoint descending (l : list (str * Z)) : Prop :=
  match l with
  | [] => True
  | x :: l' => Forall (fun y => y.2 <= x.2) l' /\ descending l'
  end.

End SaveResults.

(* ===================================================================== *)
(** * Properties                                                          *)
(* ===================================================================== *)

(** ** The retrying fetcher *)

Section ExtractFacts.
Import ContentExtractor.
Variable fetch : string -> Z -> attempt_outcome.

Lemma backoff_trace_S a k :
  backoff_trace a (S k)
  = EvRequest a :: EvSleep (2 ^ (a + 1)) :: backoff_trace (a + 1) k.
Proof.
  unfold backoff_trace. rewrite seqZ_cons by lia. cbn [fmap list_fmap concat].
  replace (Z.pred (Z.of_nat (S k))) with (Z.of_nat k) by lia.
  replace (Z.succ a) with (a + 1) by lia.
  replace (a + 1 + Z.of_nat k) with (a + Z.of_nat (S k)) by lia.
  reflexivity.
Qed.

Lemma requests_backoff_trace a k :
  requests (backoff_trace a k) = seqZ a (Z.of_nat (S k)).
Proof.
  revert a. induction k as [|k IH]; intros a.
  - unfold backoff_trace. rewrite seqZ_nil by lia. cbn.
    rewrite seqZ_cons by lia. rewrite seqZ_nil by lia.
    by replace (a + Z.of_nat 0) with a by lia.
  - rewrite backoff_trace_S. cbn. fold (requests (backoff_trace (a + 1) k)).
    rewrite IH. rewrite (seqZ_cons a) by lia.
    f_equal. f_equal; lia.
Qed.

Lemma sleeps_backoff_trace a k :
  sleeps (backoff_trace a k) = (fun i => 2 ^ i) <$> seqZ (a + 1) (Z.of_nat k).
Proof.
  revert a. induction k as [|k IH]; intros a.
  - unfold backoff_trace. by rewrite !seqZ_nil by lia.
  - rewrite backoff_trace_S. cbn. fold (sleeps (backoff_trace (a + 1) k)).
    rewrite IH. rewrite (seqZ_cons (a + 1)) by lia. cbn.
    f_equal. f_equal; f_equal; lia.
Qed.

Lemma string_app_assoc (a b c : string) : (a +:+ b) +:+ c = a +:+ b +:+ c.
Proof.
  induction a as [|x a IH]; [reflexivity|].
  change (String x ((a +:+ b) +:+ c) = String x (a +:+ b +:+ c)).
  by rewrite IH.
Qed.

Lemma carries_message (a b c e : string) : carries (a +:+ b +:+ c +:+ e) e.
Proof.
  exists (a +:+ b +:+ c). unfold carries.
  rewrite (string_app_assoc a (b +:+ c) e). by rewrite (string_app_assoc b c e).
Qed.

Lemma for_attempt_all_transient url max_retries k a :
  a + Z.of_nat (S k) = max_retries ->
  (forall i, a <= i < max_retries ->
             is_Some (transient_error (fetch url i))) ->
  exists res e msg,
    for_attempt fetch url max_retries (seqZ a (Z.of_nat (S k)))
      = (Some res, backoff_trace a k)
    /\ extraction_successful res = false
    /\ attempts res = max_retries
    /\ transient_error (fetch url (max_retries - 1)) = Some e
    /\ error res = Some msg /\ carries msg e.
Proof.
  revert a. induction k as [|k IH]; intros a Hn Hall.
  - rewrite seqZ_cons by lia. rewrite seqZ_nil by lia. cbn [for_attempt].
    destruct (Hall a ltac:(lia)) as [e He].
    replace (max_retries - 1) with a by lia.
    rewrite bool_decide_eq_false_2 by lia.
    unfold backoff_trace. rewrite seqZ_nil by lia. cbn [fmap list_fmap concat app].
    replace (a + Z.of_nat 0) with a by lia.
    destruct (fetch url a) as [t w|e'|e'|e'] eqn:Hf; cbn in He; try discriminate;
      injection He as ->; rewrite ?bool_decide_eq_false_2 by lia;
      eexists _, e, _; (split; [reflexivity|]);
      cbn [failure extraction_successful attempts error];
      repeat split; apply carries_message.
  - rewrite seqZ_cons by lia. cbn [for_attempt].
    replace (Z.pred (Z.of_nat (S (S k)))) with (Z.of_nat (S k)) by lia.
    replace (Z.succ a) with (a + 1) by lia.
    destruct (IH (a + 1) ltac:(lia) ltac:(intros; apply Hall; lia))
      as (res & e & msg & Hrun & Hrest).
    destruct (Hall a ltac:(lia)) as [e0 He0].
    rewrite backoff_trace_S.
    destruct (fetch url a) as [t w|e'|e'|e'] eqn:Hf; cbn in He0; try discriminate;
      rewrite bool_decide_eq_true_2 by lia; rewrite Hrun;
      exists res, e, msg; (split; [reflexivity|exact Hrest]).
Qed.

(** C3. When every attempt fails with a timeout or a request error,
    [extract_clean_content] makes exactly [max_retries] requests, numbered
    [0 .. max_retries-1], sleeps [2^k] seconds after the [k]-th of them
    ([k = 1 .. max_retries-1]) and nothing after the last, and then returns
    (it does not raise) a result with [extraction_successful = False],
    [attempts = max_retries] and an [error] that ends in the error of the
    last attempt. *)
Theorem extract_clean_content_exhausts_retries url max_retries :
  1 <= max_retries ->
  (forall i, 0 <= i < max_retries ->
             is_Some (transient_error (fetch url i))) ->
  exists res tr e msg,
    extract_clean_content fetch url max_retries = (Some res, tr)
    /\ tr = backoff_trace 0 (Z.to_nat (max_retries - 1))
    /\ requests tr = seqZ 0 max_retries
    /\ Z.of_nat (length (requests tr)) = max_retries
    /\ sleeps tr = (fun k => 2 ^ k) <$> seqZ 1 (max_retries - 1)
    /\ last tr = Some (EvRequest (max_retries - 1))
    /\ extraction_successful res = false
    /\ attempts res = max_retries
    /\ transient_error (fetch url (max_retries - 1)) = Some e
    /\ error res = Some msg /\ carries msg e.
Proof.
  intros Hpos Hall. unfold extract_clean_content.
  set (k := Z.to_nat (max_retries - 1)).
  assert (Hk : Z.of_nat (S k) = max_retries) by (subst k; lia).
  destruct (for_attempt_all_transient url max_retries k 0 ltac:(lia) Hall)
    as (res & e & msg & Hrun & Hs & Ha & He & Hm & Hc).
  rewrite Hk in Hrun.
  exists res, (backoff_trace 0 k), e, msg.
  rewrite requests_backoff_trace, sleeps_backoff_trace, Hk.
  rewrite length_seqZ.
  repeat split; try assumption; try lia.
  - replace (Z.of_nat k) with (max_retries - 1) by lia. reflexivity.
  - unfold backoff_trace. rewrite last_snoc. do 2 f_equal. lia.
Qed.

End ExtractFacts.

(** A run with three attempts that all time out. *)
Lemma extract_clean_content_exhausts_retries_witness :
  exists res tr e msg,
    ContentExtractor.extract_clean_content
      (fun _ _ => ContentExtractor.Timeout "read timed out")
      "https://example.com/about" 3 = (Some res, tr)
    /\ tr = ContentExtractor.backoff_trace 0 (Z.to_nat (3 - 1))
    /\ ContentExtractor.requests tr = seqZ 0 3
    /\ Z.of_nat (length (ContentExtractor.requests tr)) = 3
    /\ ContentExtractor.sleeps tr = (fun k => 2 ^ k) <$> seqZ 1 (3 - 1)
    /\ last tr = Some (ContentExtractor.EvRequest (3 - 1))
    /\ ContentExtractor.extraction_successful res = false
    /\ ContentExtractor.attempts res = 3
    /\ ContentExtractor.transient_error
         (ContentExtractor.Timeout "read timed out") = Some e
    /\ ContentExtractor.error res = Some msg
    /\ ContentExtractor.carries msg e.
Proof.
  apply (extract_clean_content_exhausts_retries
           (fun _ _ => ContentExtractor.Timeout "read timed out")
           "https://example.com/about" 3).
  - lia.
  - intros i _. cbn. eauto.
Defined.

(** ** The producer/consumer pipeline *)

Section PipelineFacts.
Import ValueExtraction WorkflowEngine.
Variable job_id : option string.
Variable useful_urls : list string.
Variable extract_clean_content : string -> option ContentExtractor.fetch_result.
Variable save_as_markdown : Z -> string -> string.
Variable basename : string -> string.
Variable read_file_content : string -> option string.
Variable json_dumps : json -> string.
Variable make_prompt : string -> string -> string.
Variable create : string -> completion.
Variable json_loads : string -> option json.

Local Abbreviation extract_value_from_file :=
  (extract_value_from_file basename read_file_content json_dumps
     make_prompt create json_loads).
Local Abbreviation fold_artifacts :=
  (fold_artifacts basename read_file_content json_dumps
     make_prompt create json_loads).
Local Abbreviation producer_step :=
  (producer_step job_id extract_clean_content save_as_markdown).
Local Abbreviation consumer_step :=
  (consumer_step job_id basename read_file_content json_dumps
     make_prompt create json_loads).
Local Abbreviation step :=
  (step job_id extract_clean_content save_as_markdown basename
     read_file_content json_dumps make_prompt create json_loads).
Local Abbreviation run :=
  (run job_id extract_clean_content save_as_markdown basename
     read_file_content json_dumps make_prompt create json_loads).
Local Abbreviation invariant :=
  (invariant job_id basename read_file_content json_dumps
     make_prompt create json_loads).
Local Abbreviation consumer_ok :=
  (consumer_ok basename read_file_content json_dumps
     make_prompt create json_loads).
Local Abbreviation initial := (initial useful_urls).
Local Abbreviation cancelled := (cancelled job_id).

Lemma paths_app a b : paths (a ++ b) = paths a ++ paths b.
Proof. unfold paths. apply omap_app. Qed.

Lemma paths_Some ps : paths (Some <$> ps) = ps.
Proof. unfold paths. induction ps; cbn; by f_equal. Qed.

Lemma fold_artifacts_snoc ps p d l :
  fold_artifacts (ps ++ [p]) d l
  = match fold_artifacts ps d l with
    | (Returned d', l') => extract_value_from_file p d' l'
    | (Raised e, l') => (Raised e, l')
    end.
Proof.
  revert d l. induction ps as [|q ps IH]; intros d l; cbn.
  - by destruct (extract_value_from_file p d l) as [[?|?] ?].
  - destruct (extract_value_from_file q d l) as [[d'|e] l']; [apply IH|done].
Qed.

Lemma sentinel_is_last (ps pr : list string) q :
  (Some <$> ps) ++ [None] = (Some <$> pr) ++ None :: q -> ps = pr /\ q = [].
Proof.
  revert pr. induction ps as [|p ps IH]; intros [|r pr] H; cbn in H.
  - by injection H as <-.
  - discriminate.
  - discriminate.
  - injection H as -> H. by destruct (IH _ H) as [-> ->].
Qed.

Lemma cancelled_cancel_job j s :
  cancelled (job_cancellation s) = true ->
  cancelled (job_cancellation (cancel_job j s)) = true.
Proof.
  unfold WorkflowEngine.cancelled, cancel_job. cbn.
  destruct job_id as [i|]; [|done].
  destruct (bool_decide (j ∈ dom (job_cancellation s))); [|done].
  rewrite !andb_true_iff, !negb_true_iff, !bool_decide_eq_false.
  intros [[Hi Hsz] Hget]. repeat split; [done| |].
  - rewrite map_size_ne_0_lookup. exists j. by rewrite lookup_insert_eq.
  - destruct (decide (j = i)) as [->|Hne].
    + by rewrite lookup_insert_eq.
    + by rewrite lookup_insert_ne.
Qed.

Lemma invariant_initial jc : invariant (initial jc).
Proof. repeat split. Qed.

Lemma paths_snoc_Some items p : paths (items ++ [Some p]) = paths items ++ [p].
Proof. by rewrite paths_app. Qed.

Lemma paths_snoc_None items : paths (items ++ [None]) = paths items.
Proof. rewrite paths_app. apply app_nil_r. Qed.

(** The producer touches the queue and its own variables only. *)
Lemma producer_step_frame s s' :
  producer_step s = Some s' ->
  consumer s' = consumer s /\ taken s' = taken s /\ drained s' = drained s
  /\ accumulated_data s' = accumulated_data s /\ file_count s' = file_count s
  /\ log_file s' = log_file s /\ output_file s' = output_file s
  /\ job_cancellation s' = job_cancellation s
  /\ exists items, file_queue s' = file_queue s ++ items
                   /\ enqueued s' = enqueued s ++ items.
Proof.
  unfold WorkflowEngine.producer_step. intros H.
  repeat case_match; simplify_eq; cbn; repeat split;
    first [by exists [] ; rewrite !app_nil_r | by eexists].
Qed.

Lemma invariant_producer_step s s' :
  invariant s -> producer_step s = Some s' -> invariant s'.
Proof.
  intros (Hq & Hp & Hc) Hstep.
  destruct (producer_step_frame _ _ Hstep)
    as (Ec & Et & Ed & Ea & En & El & Eo & Ej & items & Eq & Ee).
  unfold WorkflowEngine.invariant, WorkflowEngine.consumer_ok, processed in *.
  rewrite Ec, Et, Ed, Ea, En, El, Eo, Ej, Eq. repeat split.
  - rewrite Ee, Hq. by rewrite <- !app_assoc.
  - clear Hc Ec Et Ed Ea En El Eo Ej Eq Ee.
    unfold WorkflowEngine.producer_step in Hstep.
    repeat case_match; simplify_eq; cbn in *;
      rewrite ?paths_snoc_Some, ?paths_snoc_None, ?fmap_app, ?app_nil_r in *;
      cbn; try done; by rewrite Hp at 1.
  - exact Hc.
Qed.

Lemma invariant_cancel_job j s : invariant s -> invariant (cancel_job j s).
Proof.
  intros (Hq & Hp & Hc). repeat split; [done..|].
  pose proof (cancelled_cancel_job j s) as Hmono.
  unfold WorkflowEngine.invariant, WorkflowEngine.consumer_ok, processed in *.
  cbn in *. destruct (consumer s); try done.
  destruct Hc as [Hok [Hs|(Ht & Hcan & Ho)]]; split; auto.
Qed.

Lemma invariant_consumer_step s s' :
  invariant s -> consumer_step s = Some s' -> invariant s'.
Proof.
  intros (Hq & Hp & Hc) Hstep.
  unfold WorkflowEngine.consumer_step in Hstep.
  unfold WorkflowEngine.invariant, WorkflowEngine.consumer_ok, processed in *.
  destruct (consumer s) eqn:Epc; [| |done..].
  - (* the cancellation check *)
    destruct Hc as ((Hfold & Hn) & Ht & Hd & Ho).
    destruct (cancelled (job_cancellation s)) eqn:Ecan; simplify_eq; cbn.
    + rewrite Hd in *. repeat split; try done.
      * by rewrite app_nil_r.
      * right. by rewrite Ho.
    + by repeat split.
  - (* file_queue.get() and the rest of the iteration *)
    destruct Hc as ((Hfold & Hn) & Ht & Hd & Ho).
    set (pr := paths (taken s)) in *.
    destruct (file_queue s) as [|[filepath|] rest] eqn:Eq; [done| |].
    + destruct (extract_value_from_file filepath (accumulated_data s)
                  (log_file s)) as [[d|e] l] eqn:Ex; simplify_eq; cbn;
        rewrite Ht, paths_snoc_Some, paths_Some, fold_artifacts_snoc, Hfold, Ex.
      * rewrite Hd, length_app, fmap_app. cbn.
        repeat split; try done; [|lia].
        rewrite Hq, Hd, Ht. cbn. by rewrite <- app_assoc.
      * rewrite fmap_app. cbn.
        repeat split; try done; [|by eexists].
        rewrite Hq, Hd, Ht. cbn. by rewrite <- app_assoc.
    + simplify_eq; cbn. rewrite Ht, paths_snoc_None, paths_Some, Hd.
      repeat split; try done.
      * rewrite Hq, Hd, Ht. cbn. by rewrite <- app_assoc.
      * by left.
Qed.

Lemma invariant_step a s s' : invariant s -> step a s = Some s' -> invariant s'.
Proof.
  destruct a as [| |j]; cbn; intros Hinv Hstep.
  - by eapply invariant_producer_step.
  - by eapply invariant_consumer_step.
  - simplify_eq. by apply invariant_cancel_job.
Qed.

Lemma run_cons a schedule s :
  run (a :: schedule) s = run schedule (default s (step a s)).
Proof. reflexivity. Qed.

Lemma invariant_run schedule s : invariant s -> invariant (run schedule s).
Proof.
  revert s. induction schedule as [|a schedule IH]; intros s Hinv; [done|].
  rewrite run_cons. apply IH. destruct (step a s) as [s'|] eqn:Hstep; [|done].
  by eapply invariant_step.
Qed.

Lemma reachable_invariant schedule jc : invariant (run schedule (initial jc)).
Proof. apply invariant_run, invariant_initial. Qed.

(** Once the consumer has returned nothing it owns changes any more. *)
Lemma returned_is_final later s :
  consumer s = CReturned ->
  let s' := run later s in
  consumer s' = CReturned /\ taken s' = taken s
  /\ accumulated_data s' = accumulated_data s
  /\ log_file s' = log_file s /\ output_file s' = output_file s.
Proof.
  revert s. induction later as [|a later IH]; intros s Hret; [done|].
  intros s'. subst s'. rewrite run_cons. destruct a as [| |j]; cbn [step].
  - destruct (producer_step s) as [s1|] eqn:Hstep; cbn [from_option id];
      [|by apply IH].
    destruct (producer_step_frame _ _ Hstep)
      as (Ec & Et & _ & Ea & _ & El & Eo & _).
    destruct (IH s1 ltac:(congruence)) as (? & ? & ? & ? & ?).
    repeat split; congruence.
  - unfold WorkflowEngine.consumer_step. rewrite Hret. by apply IH.
  - by apply (IH (cancel_job j s)).
Qed.

Lemma processed_prefix s :
  invariant s -> processed s `prefix_of` paths (enqueued s).
Proof.
  intros (Hq & _). unfold processed. rewrite Hq, paths_app. by eexists.
Qed.

(** Whatever raises inside the [try] block, the function returns the
    snapshot it was given and logs the error. *)
Lemma extract_value_from_file_catches filepath current_data log content e log' :
  read_file_content filepath = Some content ->
  try_extract create json_loads (basename filepath)
    (make_prompt (json_dumps current_data) content) current_data log
    = (Raised e, log') ->
  extract_value_from_file filepath current_data log
  = (Returned current_data,
     log_openai_request log' (basename filepath)
       (make_prompt (json_dumps current_data) content) ("ERROR: " +:+ e) None).
Proof.
  intros Hread Htry. unfold ValueExtraction.extract_value_from_file.
  by rewrite Hread, Htry.
Qed.

(** C9. When the AI call for an artifact raises, [extract_value_from_file]
    returns (it does not raise) the snapshot it was given, unchanged, after
    logging the error; in a run over several artifacts the snapshot after
    the failing one is the snapshot before it, and the artifacts after it
    are processed from there. *)
Theorem extract_value_from_file_ai_failure filepath current_data log content e :
  read_file_content filepath = Some content ->
  create (make_prompt (json_dumps current_data) content) = CreateRaises e ->
  let log' := log_openai_request log (basename filepath)
                (make_prompt (json_dumps current_data) content)
                ("ERROR: " +:+ e) None in
  extract_value_from_file filepath current_data log
    = (Returned current_data, log')
  /\ forall before after data0 log0,
       fold_artifacts before data0 log0 = (Returned current_data, log) ->
       fold_artifacts (before ++ filepath :: after) data0 log0
       = fold_artifacts after current_data log'.
Proof.
  intros Hread Hcreate log'.
  assert (Hone : extract_value_from_file filepath current_data log
                 = (Returned current_data, log')).
  { apply extract_value_from_file_catches; [done|].
    unfold try_extract. by rewrite Hcreate. }
  split; [done|].
  intros before. induction before as [|p before IH]; intros after d0 l0 Hb.
  - cbn in *. simplify_eq. by rewrite Hone.
  - cbn in *.
    destruct (extract_value_from_file p d0 l0) as [[d1|e1] l1]; [|done].
    by apply IH.
Qed.


(** What the consumer does when it finds the flag set at the top of its
    loop. *)
Lemma consumer_observes_cancellation s :
  invariant s ->
  consumer s = CPoll -> cancelled (job_cancellation s) = true ->
  exists s',
    consumer_step s = Some s'
    /\ consumer s' = CReturned
    /\ file_queue s' = [] /\ drained s' = file_queue s
    /\ taken s' = taken s /\ log_file s' = log_file s
    /\ accumulated_data s' = accumulated_data s
    /\ output_file s' = (if bool_decide (file_count s > 0)
                         then Some (accumulated_data s) else None)
    /\ consumer_ok s.
Proof.
  intros (Hq & Hp & Hc) Hpoll Hcan. rewrite Hpoll in Hc.
  destruct Hc as (Hok & Ht & Hd & Ho).
  unfold WorkflowEngine.consumer_step. rewrite Hpoll, Hcan.
  eexists. split; [reflexivity|]. cbn. rewrite Hd, Ho.
  repeat split; try done; apply Hok.
Qed.

(** C8, as the code has it.  The flag is tested at the top of the
    consumer's loop and nowhere else.  When the consumer, having
    processed [k >= 1] artifacts, finds it set there, it empties the
    queue without handing any item to the extraction step, writes the
    fold of the first [k] enqueued artifacts to the output file and
    returns; no later step of anyone changes what was processed or
    written. *)
Theorem cancellation_after_k_units schedule jc :
  let s := run schedule (initial jc) in
  consumer s = CPoll -> cancelled (job_cancellation s) = true ->
  0 < file_count s ->
  exists s' snapshot,
    consumer_step s = Some s'
    /\ consumer s' = CReturned
    /\ file_queue s' = [] /\ drained s' = file_queue s
    /\ processed s' = processed s /\ log_file s' = log_file s
    /\ processed s = take (Z.to_nat (file_count s)) (paths (enqueued s))
    /\ fold_artifacts (processed s) get_empty_structure []
       = (Returned snapshot, log_file s)
    /\ output_file s' = Some snapshot
    /\ forall later,
         let s'' := run later s' in
         consumer s'' = CReturned /\ processed s'' = processed s
         /\ log_file s'' = log_file s /\ output_file s'' = Some snapshot.
Proof.
  intros s Hpoll Hcan Hk.
  pose proof (reachable_invariant schedule jc) as Hinv. fold s in Hinv.
  destruct (consumer_observes_cancellation s Hinv Hpoll Hcan)
    as (s' & Hstep & Hret & Hq' & Hd' & Ht' & Hl' & Ha' & Ho' & Hfold & Hn).
  rewrite bool_decide_eq_true_2 in Ho' by lia.
  exists s', (accumulated_data s). repeat split; try done.
  - unfold processed. by rewrite Ht'.
  - destruct (processed_prefix s Hinv) as [rest ->].
    rewrite Hn, Nat2Z.id. by rewrite take_app_length.
  - by destruct (returned_is_final later s' Hret) as (? & ? & ? & ? & ?).
  - destruct (returned_is_final later s' Hret) as (_ & Ht & _).
    unfold processed. by rewrite Ht, Ht'.
  - destruct (returned_is_final later s' Hret) as (_ & _ & _ & Hl & _).
    by rewrite Hl.
  - destruct (returned_is_final later s' Hret) as (_ & _ & _ & _ & Ho).
    by rewrite Ho.
Qed.

(** C10. When the consumer finds the cancellation flag set before it has
    processed anything, it empties the queue and returns, and the output
    file is not written: neither by that step nor ever after. *)
Theorem cancellation_before_first_unit schedule jc :
  let s := run schedule (initial jc) in
  consumer s = CPoll -> cancelled (job_cancellation s) = true ->
  file_count s = 0 ->
  exists s',
    consumer_step s = Some s'
    /\ consumer s' = CReturned
    /\ file_queue s' = [] /\ drained s' = file_queue s
    /\ processed s' = [] /\ log_file s' = []
    /\ output_file s' = None
    /\ forall later, output_file (run later s') = None.
Proof.
  intros s Hpoll Hcan Hk.
  pose proof (reachable_invariant schedule jc) as Hinv. fold s in Hinv.
  destruct (consumer_observes_cancellation s Hinv Hpoll Hcan)
    as (s' & Hstep & Hret & Hq' & Hd' & Ht' & Hl' & Ha' & Ho' & Hfold & Hn).
  rewrite bool_decide_eq_false_2 in Ho' by lia.
  assert (Hnil : processed s = []).
  { apply length_zero_iff_nil. lia. }
  rewrite Hnil in Hfold. cbn in Hfold. simplify_eq.
  exists s'. repeat split; try done.
  - unfold processed in *. by rewrite Ht'.
  - congruence.
  - intros later.
    destruct (returned_is_final later s' Hret) as (_ & _ & _ & _ & Ho).
    by rewrite Ho.
Qed.

End PipelineFacts.

Section PipelineRuns.
Import ValueExtraction WorkflowEngine.

(** The AI call fails on artifact [B] after [A] changed the snapshot. *)
Lemma extract_value_from_file_ai_failure_witness :
  let data := ValueExtraction.JDict [("description"%string, ValueExtraction.JStr "A")] in
  let log' := ValueExtraction.log_openai_request [] "B" "AB"
                ("ERROR: " +:+ "rate limit") None in
  ValueExtraction.extract_value_from_file Sample.basename
    Sample.read_file_content Sample.json_dumps Sample.make_prompt
    Sample.create_failing Sample.json_loads "B" data []
    = (Returned data, log')
  /\ forall before after data0 log0,
       WorkflowEngine.fold_artifacts Sample.basename
         Sample.read_file_content Sample.json_dumps Sample.make_prompt
         Sample.create_failing Sample.json_loads before data0 log0
       = (Returned data, []) ->
       WorkflowEngine.fold_artifacts Sample.basename
         Sample.read_file_content Sample.json_dumps Sample.make_prompt
         Sample.create_failing Sample.json_loads
         (before ++ "B"%string :: after) data0 log0
       = WorkflowEngine.fold_artifacts Sample.basename
           Sample.read_file_content Sample.json_dumps Sample.make_prompt
           Sample.create_failing Sample.json_loads after data log'.
Proof.
  apply (extract_value_from_file_ai_failure Sample.basename
           Sample.read_file_content Sample.json_dumps Sample.make_prompt
           Sample.create_failing Sample.json_loads "B"
           (ValueExtraction.JDict
              [("description"%string, ValueExtraction.JStr "A")])
           [] "B" "rate limit"); reflexivity.
Defined.


(** Cancellation arrives after A was processed, with B and C queued. *)
Lemma cancellation_after_k_units_witness :
  let s := Sample.run (Some "job-1"%string) ["A"; "B"; "C"]%string
             {[ "job-1"%string := false ]}
             [Producer; Producer; Consumer; Consumer; Producer;
              CancelJob "job-1"] in
  exists s' snapshot,
    WorkflowEngine.consumer_step (Some "job-1"%string) Sample.basename
      Sample.read_file_content Sample.json_dumps Sample.make_prompt
      Sample.create Sample.json_loads s = Some s'
    /\ WorkflowEngine.consumer s' = CReturned
    /\ WorkflowEngine.file_queue s' = []
    /\ WorkflowEngine.processed s' = ["A"%string]
    /\ snapshot = ValueExtraction.JDict
                    [("description"%string, ValueExtraction.JStr "A")]
    /\ WorkflowEngine.output_file s' = Some snapshot.
Proof.
  intros s.
  destruct (cancellation_after_k_units (Some "job-1"%string)
              ["A"; "B"; "C"]%string
              Sample.extract_clean_content Sample.save_as_markdown
              Sample.basename Sample.read_file_content Sample.json_dumps
              Sample.make_prompt Sample.create Sample.json_loads
              [Producer; Producer; Consumer; Consumer; Producer;
               CancelJob "job-1"]
              {[ "job-1"%string := false ]})
    as (s' & snapshot & Hstep & Hret & Hq & _ & Hp & _ & _ & Hfold & Ho & _);
    [reflexivity..|].
  exists s', snapshot. repeat split; try assumption.
  vm_compute in Hfold. congruence.
Defined.

(** Cancellation arrives before the consumer has taken anything. *)
Lemma cancellation_before_first_unit_witness :
  let s := Sample.run (Some "job-1"%string) ["A"; "B"; "C"]%string
             {[ "job-1"%string := false ]}
             [Producer; Producer; CancelJob "job-1"] in
  exists s',
    WorkflowEngine.consumer_step (Some "job-1"%string) Sample.basename
      Sample.read_file_content Sample.json_dumps Sample.make_prompt
      Sample.create Sample.json_loads s = Some s'
    /\ WorkflowEngine.consumer s' = CReturned
    /\ WorkflowEngine.file_queue s' = []
    /\ WorkflowEngine.drained s' = [Some "A"; Some "B"]%string
    /\ WorkflowEngine.processed s' = []
    /\ WorkflowEngine.output_file s' = None.
Proof.
  intros s.
  destruct (cancellation_before_first_unit (Some "job-1"%string)
              ["A"; "B"; "C"]%string
              Sample.extract_clean_content Sample.save_as_markdown
              Sample.basename Sample.read_file_content Sample.json_dumps
              Sample.make_prompt Sample.create Sample.json_loads
              [Producer; Producer; CancelJob "job-1"]
              {[ "job-1"%string := false ]})
    as (s' & Hstep & Hret & Hq & Hd & Hp & _ & Ho & _); [reflexivity..|].
  exists s'. repeat split; assumption.
Defined.

(** The flag is tested at the top of the loop only.  Here the request
    arrives after [A] was processed and before [B] is taken off the
    queue, while the consumer waits in [file_queue.get()]: [B] is still
    processed, and the snapshot written is the fold of [A] and [B], not
    of [A] alone.  Only [C] is thrown away. *)
Lemma cancellation_while_waiting :
  let before := [Producer; Consumer; Consumer; Consumer; Producer; Producer;
                 CancelJob "job-1"] in
  let s := Sample.run (Some "job-1"%string) ["A"; "B"; "C"]%string
             {[ "job-1"%string := false ]} before in
  let s' := Sample.run (Some "job-1"%string) ["A"; "B"; "C"]%string
              {[ "job-1"%string := false ]}
              (before ++ [Consumer; Consumer]) in
  cancelled (Some "job-1"%string) (job_cancellation s) = true
  /\ processed s = ["A"%string]
  /\ taken s = [Some "A"%string]
  /\ file_queue s = [Some "B"; Some "C"]%string
  /\ accumulated_data s = JDict [("description"%string, JStr "A")]
  /\ consumer s' = CReturned
  /\ processed s' = ["A"; "B"]%string
  /\ drained s' = [Some "C"%string]
  /\ output_file s' = Some (JDict [("description"%string, JStr "AB")])
  /\ output_file s' <> Some (accumulated_data s).
Proof. by vm_compute. Qed.

End PipelineRuns.

(** ** URL normalization *)

Ltac each_ascii c := destruct c as [[] [] [] [] [] [] [] []].

Section StringFacts.
Import PyStr.

Lemma break_at_spec P (s a b : str) :
  break_at P s = (a, b) ->
  s = a ++ b /\ Forall (fun c => P c = false) a
  /\ (b = [] \/ exists c b', b = c :: b' /\ P c = true).
Proof.
  revert a b. induction s as [|c s IH]; intros a b; cbn.
  - intros [= <- <-]. auto.
  - destruct (P c) eqn:Hc.
    + intros [= <- <-]. split_and!; [done|constructor|]. right. eauto.
    + destruct (break_at P s) as [a' b'] eqn:Hs. intros [= <- <-].
      destruct (IH a' b' eq_refl) as (-> & Ha & Hb).
      split_and!; [done|by constructor|done].
Qed.

Lemma break_at_app P (a b : str) :
  Forall (fun c => P c = false) a ->
  (b = [] \/ exists c b', b = c :: b' /\ P c = true) ->
  break_at P (a ++ b) = (a, b).
Proof.
  intros Ha Hb. induction Ha as [|c a Hc Ha IH]; cbn.
  - destruct Hb as [->|(c & b' & -> & Hc)]; [done|]. cbn. by rewrite Hc.
  - by rewrite Hc, IH.
Qed.

Lemma break_at_none P (s : str) :
  Forall (fun c => P c = false) s -> break_at P s = (s, []).
Proof.
  intros Hs. rewrite <- (app_nil_r s) at 1. apply break_at_app; auto.
Qed.

Lemma has_char_false c (s : str) :
  has_char c s = false <-> Forall (fun x => is_char c x = false) s.
Proof.
  unfold has_char. induction s as [|x s IH]; cbn.
  - split; [constructor|done].
  - rewrite orb_false_iff, IH, Forall_cons. done.
Qed.

Lemma is_char_false c x : is_char c x = false <-> x <> c.
Proof. unfold is_char. apply bool_decide_eq_false. Qed.

Lemma lstrip_id P (s : str) :
  (s = [] \/ exists c s', s = c :: s' /\ P c = false) -> lstrip P s = s.
Proof. intros [->|(c & s' & -> & Hc)]; cbn; [done|by rewrite Hc]. Qed.

Lemma lstrip_app_keep P (a b : str) :
  lstrip P a <> [] -> lstrip P (a ++ b) = lstrip P a ++ b.
Proof.
  induction a as [|c a IH]; cbn; [done|]. destruct (P c); auto.
Qed.

Lemma lstrip_app_all P (a b : str) :
  lstrip P a = [] -> lstrip P (a ++ b) = lstrip P b.
Proof.
  induction a as [|c a IH]; cbn; [done|]. destruct (P c); [auto|done].
Qed.

(** [rstrip] leaves a string that ends in a character outside [P]. *)
Lemma rstrip_snoc_keep P (s : str) c :
  P c = false -> rstrip P (s ++ [c]) = s ++ [c].
Proof.
  intros Hc. unfold rstrip. rewrite rev_app_distr. cbn. rewrite Hc.
  change (c :: rev s) with (rev [c] ++ rev s).
  by rewrite <- rev_app_distr, rev_involutive.
Qed.

Lemma rstrip_app_keep P (a b : str) :
  rstrip P b <> [] -> rstrip P (a ++ b) = a ++ rstrip P b.
Proof.
  unfold rstrip. intros Hb. rewrite rev_app_distr, lstrip_app_keep.
  - by rewrite rev_app_distr, rev_involutive.
  - intros H. apply Hb. by rewrite H.
Qed.

Lemma rstrip_app_all P (a b : str) :
  rstrip P b = [] -> rstrip P (a ++ b) = rstrip P a.
Proof.
  unfold rstrip. intros Hb. rewrite rev_app_distr, lstrip_app_all; [done|].
  apply (f_equal (@rev ascii)) in Hb. by rewrite rev_involutive in Hb.
Qed.

Lemma lstrip_sublist_tail P (s : str) : exists a, s = a ++ lstrip P s.
Proof.
  induction s as [|c s [a Ha]]; cbn; [by exists []|].
  destruct (P c); [|by exists []]. exists (c :: a). cbn. by f_equal.
Qed.

Lemma lstrip_head P (s : str) c s' : lstrip P s = c :: s' -> P c = false.
Proof.
  induction s as [|x s IH]; cbn; [done|].
  destruct (P x) eqn:Hx; [done|]. by intros [= <- <-].
Qed.

(** [rstrip] cuts a tail and what is left does not end in [P]. *)
Lemma rstrip_spec P (s : str) :
  (exists t, s = rstrip P s ++ t)
  /\ (rstrip P s = [] \/ exists a c, rstrip P s = a ++ [c] /\ P c = false).
Proof.
  unfold rstrip. split.
  - destruct (lstrip_sublist_tail P (rev s)) as [a Ha].
    exists (rev a). rewrite <- rev_app_distr, <- Ha. by rewrite rev_involutive.
  - destruct (lstrip P (rev s)) as [|c t] eqn:E; [by left|right].
    exists (rev t), c. split; [done|]. by eapply lstrip_head.
Qed.

Lemma endswith_char (s : str) c :
  endswith s [c] = true <-> exists a, s = a ++ [c].
Proof.
  unfold endswith. cbn. split.
  - destruct (rev s) as [|x t] eqn:E; [done|]. cbn.
    rewrite andb_true_iff, bool_decide_eq_true. intros [-> _].
    exists (rev t). apply (f_equal (@rev ascii)) in E.
    rewrite rev_involutive in E. by rewrite E.
  - intros [a ->]. rewrite rev_app_distr. cbn.
    rewrite bool_decide_eq_true_2 by done. by destruct (rev a).
Qed.

Lemma endswith_char_false (s : str) c :
  (s = [] \/ exists a x, s = a ++ [x] /\ x <> c) -> endswith s [c] = false.
Proof.
  intros H. apply not_true_iff_false. rewrite endswith_char. intros [a' E].
  destruct H as [->|(a & x & -> & Hx)].
  - by destruct a'.
  - apply app_inj_tail in E as [_ ?]. done.
Qed.

Lemma filter_all {A} (P : A -> Prop) `{!forall x, Decision (P x)} (l : list A) :
  Forall P l -> filter P l = l.
Proof.
  induction 1 as [|x l Hx Hl IH]; [done|].
  by rewrite filter_cons_True, IH.
Qed.

Lemma split_no_sep c (p : str) : c ∉ p -> split c p = [p].
Proof.
  induction p as [|x p IH]; intros Hc; cbn; [done|].
  rewrite bool_decide_eq_false_2 by set_solver.
  rewrite IH by set_solver. done.
Qed.

Lemma split_app_sep c (p rest : str) :
  c ∉ p -> split c (p ++ c :: rest) = p :: split c rest.
Proof.
  induction p as [|x p IH]; intros Hc; cbn.
  - by rewrite bool_decide_eq_true_2.
  - rewrite bool_decide_eq_false_2 by set_solver.
    rewrite IH by set_solver. done.
Qed.

Lemma split_join c (pieces : list str) :
  pieces <> [] -> Forall (fun p => c ∉ p) pieces ->
  split c (join [c] pieces) = pieces.
Proof.
  intros Hne Hall. induction Hall as [|p pieces Hp Hall IH]; [done|].
  destruct pieces as [|p2 pieces].
  - cbn. by apply split_no_sep.
  - change (join [c] (p :: p2 :: pieces))
      with (p ++ c :: join [c] (p2 :: pieces)).
    rewrite split_app_sep by done. by rewrite IH.
Qed.

End StringFacts.

Section CodecFacts.
Import PyStr UrlLib.

Lemma always_safe_plain c :
  always_safe c = true -> c <> "%"%char /\ c <> "+"%char /\ c <> "="%char
                          /\ c <> "&"%char.
Proof. each_ascii c; vm_compute; intros H; by repeat split. Qed.

Lemma hex_digit_roundtrip c :
  let h1 := hex_digit (code c / 16) in
  let h2 := hex_digit (code c mod 16) in
  h1 <> "+"%char /\ h2 <> "+"%char
  /\ always_safe h1 = true /\ always_safe h2 = true
  /\ hex_value h1 = Some (code c / 16)%N
  /\ hex_value h2 = Some (code c mod 16)%N
  /\ ascii_of_N (16 * (code c / 16) + code c mod 16) = c.
Proof. each_ascii c; vm_compute; by repeat split. Qed.

Lemma query_char_plain c :
  query_char c = true ->
  c <> "#"%char /\ c <> "/"%char /\ c <> "?"%char /\ c <> ";"%char
  /\ unsafe_url_byte c = false /\ c0_control_or_space c = false.
Proof. each_ascii c; vm_compute; intros H; by repeat split. Qed.

Lemma unquote_plain c rest :
  c <> "%"%char -> unquote (c :: rest) = c :: unquote rest.
Proof.
  intros Hc. destruct rest as [|h1 [|h2 rest]]; cbn; try done.
  by rewrite bool_decide_eq_false_2.
Qed.

Lemma unquote_percent h1 h2 a b rest :
  hex_value h1 = Some a -> hex_value h2 = Some b ->
  unquote ("%"%char :: h1 :: h2 :: rest) = ascii_of_N (16 * a + b) :: unquote rest.
Proof. intros Ha Hb. cbn. by rewrite Ha, Hb. Qed.

Lemma unquote_plus_byte c rest :
  unquote (replace_char "+" " " (quote_plus_byte c) ++ rest) = c :: unquote rest.
Proof.
  unfold quote_plus_byte, replace_char.
  destruct (always_safe c) eqn:Hsafe.
  - destruct (always_safe_plain c Hsafe) as (? & ? & _).
    cbn [fmap list_fmap app].
    rewrite bool_decide_eq_false_2 by done. by apply unquote_plain.
  - case_bool_decide as Hsp.
    + subst c. cbn [fmap list_fmap app].
      rewrite bool_decide_eq_true_2 by done. by apply unquote_plain.
    + destruct (hex_digit_roundtrip c) as (H1 & H2 & _ & _ & Hv1 & Hv2 & Hc).
      cbn [fmap list_fmap app].
      rewrite (bool_decide_eq_false_2 _ H1), (bool_decide_eq_false_2 _ H2).
      rewrite (bool_decide_eq_false_2 ("%"%char = "+"%char)) by done.
      rewrite (unquote_percent _ _ _ _ _ Hv1 Hv2). by rewrite Hc.
Qed.

Lemma unquote_plus_quote_plus (s : str) : unquote_plus (quote_plus s) = s.
Proof.
  unfold unquote_plus, quote_plus. induction s as [|c s IH]; [done|].
  rewrite bind_cons. unfold replace_char in *. rewrite fmap_app.
  rewrite (unquote_plus_byte c). by rewrite IH.
Qed.

Lemma quote_plus_chars (s : str) :
  Forall (fun c => always_safe c = true \/ c = "+"%char \/ c = "%"%char)
    (quote_plus s).
Proof.
  unfold quote_plus. induction s as [|c s IH]; [constructor|].
  rewrite bind_cons. apply Forall_app. split; [|done].
  unfold quote_plus_byte. destruct (always_safe c) eqn:Hsafe.
  - apply Forall_singleton. by left.
  - destruct (hex_digit_roundtrip c) as (_ & _ & H1 & H2 & _).
    case_bool_decide.
    + apply Forall_singleton. right. by left.
    + repeat apply Forall_cons_2; [right; by right|by left|by left|].
      apply Forall_nil_2.
Qed.

Lemma quote_plus_no_sep (s : str) c :
  c = "="%char \/ c = "&"%char -> c ∉ quote_plus s.
Proof.
  intros Hc Hin. pose proof (quote_plus_chars s) as Hall.
  rewrite Forall_forall in Hall. destruct (Hall c Hin) as [Hs|[->| ->]].
  - destruct (always_safe_plain c Hs) as (_ & _ & ? & ?). by destruct Hc.
  - by destruct Hc.
  - by destruct Hc.
Qed.

Lemma quote_plus_query_chars (s : str) :
  Forall (fun c => query_char c = true) (quote_plus s).
Proof.
  eapply Forall_impl; [apply quote_plus_chars|]. cbn. unfold query_char.
  intros c [->|[->| ->]]; done.
Qed.

(** *** The query dict *)

Lemma urlencode_flatten d : urlencode d = join (py "&") (piece <$> flatten d).
Proof.
  unfold urlencode, flatten. f_equal.
  induction d as [|[k vs] d IH]; [done|].
  rewrite !bind_cons, fmap_app, IH. f_equal. cbn.
  by rewrite <- list_fmap_compose.
Qed.

Lemma piece_query_chars nv : Forall (fun c => query_char c = true) (piece nv).
Proof.
  unfold piece. rewrite !Forall_app. split_and!;
    [apply quote_plus_query_chars|by repeat constructor
    |apply quote_plus_query_chars].
Qed.

Lemma piece_no_amp nv : "&"%char ∉ piece nv.
Proof.
  unfold piece. rewrite !elem_of_app. intros [H|[H|H]].
  - by apply (quote_plus_no_sep nv.1 "&") in H; [|right].
  - cbn in H. set_solver.
  - by apply (quote_plus_no_sep nv.2 "&") in H; [|right].
Qed.

Lemma parse_piece nv :
  piece nv <> []
  /\ (let '(name, rest) := break_at (is_char "=") (piece nv) in
      (unquote_plus name, unquote_plus (tail rest))) = nv.
Proof.
  unfold piece. split; [by destruct (quote_plus nv.1)|].
  rewrite (break_at_app (is_char "=") (quote_plus nv.1)).
  - change (tail (py "=" ++ quote_plus nv.2)) with (quote_plus nv.2).
    rewrite !unquote_plus_quote_plus. by destruct nv.
  - apply Forall_forall. intros c Hc. apply is_char_false. intros ->.
    by apply (quote_plus_no_sep nv.1 "=") in Hc; [|left].
  - right. eexists _, _. split; [reflexivity|]. unfold is_char.
    by rewrite bool_decide_eq_true_2.
Qed.

Lemma parse_qsl_pieces (l : list (str * str)) :
  omap (fun name_value : str =>
          match name_value with
          | [] => None
          | _ =>
              let '(name, rest) := break_at (is_char "=") name_value in
              Some (unquote_plus name, unquote_plus (tail rest))
          end) (piece <$> l) = l.
Proof.
  induction l as [|nv l IH]; [done|]. cbn.
  destruct (parse_piece nv) as [Hne Hnv].
  destruct (piece nv) as [|c p] eqn:Ep; [done|].
  rewrite IH.
  destruct (break_at (is_char "=") (c :: p)) as [name rest]. cbn. by rewrite Hnv.
Qed.

Lemma parse_qsl_urlencode d : parse_qsl (urlencode d) = flatten d.
Proof.
  rewrite urlencode_flatten. unfold parse_qsl.
  destruct (flatten d) as [|nv l] eqn:El; [done|].
  change (py "&") with ["&"%char].
  rewrite split_join.
  - apply parse_qsl_pieces.
  - done.
  - apply Forall_fmap, Forall_forall. intros x _. apply piece_no_amp.
Qed.

Lemma dict_append_new (d : qdict) k v :
  k ∉ d.*1 -> dict_append d k v = d ++ [(k, [v])].
Proof.
  induction d as [|[k' vs] d IH]; cbn; [done|]. intros Hk.
  rewrite bool_decide_eq_false_2 by set_solver.
  rewrite IH by set_solver. done.
Qed.

Lemma dict_append_last (d : qdict) k vs v :
  k ∉ d.*1 -> dict_append (d ++ [(k, vs)]) k v = d ++ [(k, vs ++ [v])].
Proof.
  induction d as [|[k' vs'] d IH]; cbn.
  - by rewrite bool_decide_eq_true_2.
  - intros Hk. rewrite bool_decide_eq_false_2 by set_solver.
    rewrite IH by set_solver. done.
Qed.

Lemma fold_dict_append_values (d : qdict) k vs ws :
  k ∉ d.*1 ->
  fold_left (fun d nv => dict_append d nv.1 nv.2)
    ((fun v => (k, v)) <$> ws) (d ++ [(k, vs)])
  = d ++ [(k, vs ++ ws)].
Proof.
  intros Hk. revert vs. induction ws as [|w ws IH]; intros vs; cbn.
  - by rewrite app_nil_r.
  - rewrite dict_append_last by done. rewrite IH. by rewrite <- app_assoc.
Qed.

Lemma fold_dict_append_flatten (d2 d1 : qdict) :
  well_formed (d1 ++ d2) ->
  fold_left (fun d nv => dict_append d nv.1 nv.2) (flatten d2) d1 = d1 ++ d2.
Proof.
  revert d1. induction d2 as [|[k vs] d2 IH]; intros d1 [Hnd Hne].
  - by rewrite app_nil_r.
  - unfold flatten. rewrite bind_cons, fold_left_app. fold (flatten d2).
    assert (Hk : k ∉ d1.*1).
    { rewrite fmap_app in Hnd. apply NoDup_app in Hnd as (_ & Hd & _).
      intros Hin. apply (Hd k Hin). cbn. set_solver. }
    assert (Hvs : vs <> []).
    { apply Forall_app in Hne as [_ Hne]. by apply Forall_cons in Hne as [? _]. }
    destruct vs as [|v vs]; [done|]. cbn [fmap list_fmap fold_left fst snd].
    rewrite dict_append_new by done.
    rewrite (fold_dict_append_values d1 k [v] vs Hk).
    change ([v] ++ vs) with (v :: vs).
    rewrite IH; [by rewrite <- app_assoc|].
    rewrite <- app_assoc. by split.
Qed.

Lemma parse_qs_urlencode d : well_formed d -> parse_qs (urlencode d) = d.
Proof.
  intros Hd. unfold parse_qs. rewrite parse_qsl_urlencode.
  by apply (fold_dict_append_flatten d []).
Qed.

Lemma dict_append_well_formed d k v :
  well_formed d -> well_formed (dict_append d k v).
Proof.
  intros [Hnd Hne]. destruct (decide (k ∈ d.*1)) as [Hin|Hnew].
  - assert (Hkeys : (dict_append d k v).*1 = d.*1
                    /\ Forall (fun kv => kv.2 <> []) (dict_append d k v)).
    { clear Hnd. induction d as [|[k' vs] d IH]; cbn in *.
      - by apply elem_of_nil in Hin.
      - apply Forall_cons in Hne as [Hvs Hne].
        case_bool_decide as Hk; cbn.
        + split; [done|]. constructor; [|done]. cbn. by destruct vs.
        + apply elem_of_cons in Hin as [->|Hin]; [done|].
          destruct (IH Hne Hin) as [-> ?]. split; [done|]. by constructor. }
    destruct Hkeys as [Hk ?]. split; [by rewrite Hk|done].
  - rewrite dict_append_new by done. split.
    + rewrite fmap_app. cbn. apply NoDup_app. split_and!; [done| |].
      * intros x Hx ->%list_elem_of_singleton. done.
      * apply NoDup_singleton.
    + apply Forall_app. split; [done|]. by repeat constructor.
Qed.

Lemma parse_qs_well_formed qs : well_formed (parse_qs qs).
Proof.
  unfold parse_qs.
  assert (H : forall l d, well_formed d ->
            well_formed (fold_left (fun d nv => dict_append d nv.1 nv.2) l d)).
  { induction l as [|nv l IH]; intros d Hd; [done|]. cbn.
    by apply IH, dict_append_well_formed. }
  apply H. split; constructor.
Qed.

Lemma cleaned_params_well_formed d :
  well_formed d -> well_formed (SmartCrawler.cleaned_params d).
Proof.
  intros [Hnd Hne]. unfold SmartCrawler.cleaned_params. split.
  - eapply sublist_NoDup; [exact Hnd|]. apply fmap_sublist.
    apply (sublist_filter _).
  - rewrite Forall_forall in *. intros kv [_ Hkv]%list_elem_of_filter. auto.
Qed.

Lemma cleaned_params_idempotent d :
  SmartCrawler.cleaned_params (SmartCrawler.cleaned_params d)
  = SmartCrawler.cleaned_params d.
Proof.
  unfold SmartCrawler.cleaned_params. apply filter_all.
  apply Forall_forall. by intros x [? _]%list_elem_of_filter.
Qed.

Lemma urlencode_query_chars d :
  Forall (fun c => query_char c = true) (urlencode d).
Proof.
  rewrite urlencode_flatten. generalize (flatten d). intros l.
  induction l as [|nv l IH]; [constructor|].
  destruct l as [|nv2 l].
  - apply piece_query_chars.
  - change (join (py "&") (piece <$> nv :: nv2 :: l))
      with (piece nv ++ py "&" ++ join (py "&") (piece <$> nv2 :: l)).
    rewrite !Forall_app. split_and!; [apply piece_query_chars| |done].
    by repeat constructor.
Qed.

Lemma urlencode_nonempty d : well_formed d -> d <> [] -> urlencode d <> [].
Proof.
  intros [_ Hne] Hd. rewrite urlencode_flatten.
  destruct d as [|[k vs] d]; [done|].
  apply Forall_cons in Hne as [Hvs _]. destruct vs as [|v vs]; [done|].
  unfold flatten. rewrite bind_cons. cbn [fmap list_fmap fst snd app].
  destruct (parse_piece (k, v)) as [Hp _].
  destruct (piece (k, v)) as [|c p]; [done|].
  by destruct (piece <$> _).
Qed.

End CodecFacts.

Section UrlsplitFacts.
Import PyStr UrlLib.

Lemma scheme_char_facts c :
  scheme_char c = true ->
  c <> ":"%char /\ url_safe c
  /\ scheme_char (lower_char c) = true /\ is_upper (lower_char c) = false
  /\ (is_alpha c = true ->
      is_alpha (lower_char c) = true /\ c0_control_or_space c = false).
Proof. each_ascii c; vm_compute; intros H; by repeat split. Qed.

Lemma lower_char_fixed c : is_upper c = false -> lower_char c = c.
Proof. unfold lower_char. by intros ->. Qed.

Lemma no_delim_facts c :
  no_delim c <-> c <> "/"%char /\ c <> "?"%char /\ c <> "#"%char.
Proof.
  unfold no_delim, one_of. rewrite bool_decide_eq_false.
  rewrite !elem_of_cons, elem_of_nil. tauto.
Qed.

Lemma scheme_ok_lower c before :
  is_alpha c = true -> forallb scheme_char (c :: before) = true ->
  scheme_ok (lower (c :: before)).
Proof.
  intros Hc Hall. split.
  - exists (lower_char c), (lower before). split; [done|].
    apply andb_true_iff in Hall as [Hsc _].
    by destruct (scheme_char_facts c Hsc) as (_ & _ & _ & _ & [? _]).
  - unfold lower. apply Forall_fmap, Forall_forall. intros x Hx. cbn.
    rewrite forallb_forall in Hall.
    destruct (scheme_char_facts x) as (_ & _ & ? & ? & _); [|done].
    apply Hall. by apply list_elem_of_In.
Qed.

Lemma scheme_ok_facts s :
  scheme_ok s ->
  lower s = s /\ forallb scheme_char s = true
  /\ Forall (fun x => is_char ":" x = false) s
  /\ Forall url_safe s
  /\ exists c rest, s = c :: rest /\ is_alpha c = true
                    /\ c0_control_or_space c = false.
Proof.
  intros [(c & rest & -> & Hc) Hall]. split_and!.
  - unfold lower. induction Hall as [|x l [_ Hx] _ IH]; [done|].
    cbn. by rewrite lower_char_fixed, IH.
  - apply forallb_forall. intros x Hx%list_elem_of_In.
    rewrite Forall_forall in Hall. by apply Hall.
  - eapply Forall_impl; [exact Hall|]. cbn. intros x [Hx _].
    apply is_char_false. by destruct (scheme_char_facts x Hx).
  - eapply Forall_impl; [exact Hall|]. cbn. intros x [Hx _].
    by destruct (scheme_char_facts x Hx) as (_ & ? & _).
  - exists c, rest. split_and!; [done..|].
    apply Forall_cons in Hall as [[Hsc _] _].
    by destruct (scheme_char_facts c Hsc) as (_ & _ & _ & _ & H);
      destruct (H Hc).
Qed.

Lemma break_rest_head P (s a b : str) :
  break_at P s = (a, b) -> b = [] \/ exists c b', b = c :: b' /\ P c = true.
Proof. intros H. by destruct (break_at_spec P s a b H) as (_ & _ & ?). Qed.

Lemma Forall_app_l {A} (P : A -> Prop) (a b : list A) :
  Forall P (a ++ b) -> Forall P a.
Proof. by intros [? _]%Forall_app. Qed.

Lemma Forall_app_r {A} (P : A -> Prop) (a b : list A) :
  Forall P (a ++ b) -> Forall P b.
Proof. by intros [_ ?]%Forall_app. Qed.

(** *** The stages of [urlsplit] *)

Lemma split_netloc_cases (url : str) :
  (exists rest, url = "/"%char :: "/"%char :: rest
                /\ split_netloc url
                   = break_at (one_of ["/"; "?"; "#"]%char) rest)
  \/ split_netloc url = ([], url).
Proof.
  unfold split_netloc. destruct url as [|c1 url]; [by right|].
  destruct (decide (c1 = "/"%char)) as [->|Hc1];
    [|right; each_ascii c1; done].
  destruct url as [|c2 url]; [by right|].
  destruct (decide (c2 = "/"%char)) as [->|Hc2];
    [|right; each_ascii c2; done].
  left. by eexists.
Qed.

Lemma split_netloc_spec (url n rest : str) :
  split_netloc url = (n, rest) ->
  Forall no_delim n
  /\ (exists pre, url = pre ++ n ++ rest)
  /\ (n <> [] -> rest = [] \/ exists c r, rest = c :: r /\ ~ no_delim c).
Proof.
  intros H. destruct (split_netloc_cases url) as [(r & -> & E)|E];
    rewrite E in H.
  - destruct (break_at_spec _ _ _ _ H) as (-> & Hnd & Hhead). split_and!.
    + done.
    + by exists (py "//").
    + intros _. destruct Hhead as [->|(c & r' & -> & Hc)]; [by left|right].
      exists c, r'. split; [done|]. unfold no_delim. by rewrite Hc.
  - injection H as <- <-. split_and!; [done|by exists []|done].
Qed.

Lemma split_netloc_build (n rest : str) :
  Forall no_delim n ->
  (rest = [] \/ exists c r, rest = c :: r /\ ~ no_delim c) ->
  split_netloc (py "//" ++ n ++ rest) = (n, rest).
Proof.
  intros Hn Hrest. cbn. apply break_at_app; [done|].
  destruct Hrest as [->|(c & r & -> & Hc)]; [by left|right].
  exists c, r. split; [done|]. unfold no_delim in Hc.
  by destruct (one_of _ c).
Qed.

Lemma split_once_spec c (url b a : str) :
  split_once c url = (b, a) ->
  Forall (fun x => x <> c) b /\ exists t, url = b ++ t.
Proof.
  unfold split_once. destruct (break_at (is_char c) url) as [b' a'] eqn:E.
  destruct (break_at_spec _ _ _ _ E) as (-> & Hb & _). intros H.
  assert (b = b') as -> by (destruct a'; by injection H as <- _).
  split; [|by eexists].
  eapply Forall_impl; [exact Hb|]. intros x. apply is_char_false.
Qed.

Lemma split_once_none c (url : str) :
  Forall (fun x => x <> c) url -> split_once c url = (url, []).
Proof.
  intros H. unfold split_once. rewrite break_at_none; [done|].
  eapply Forall_impl; [exact H|]. intros x. apply is_char_false.
Qed.

Lemma split_once_build c (b a : str) :
  Forall (fun x => x <> c) b -> split_once c (b ++ c :: a) = (b, a).
Proof.
  intros H. unfold split_once. rewrite (break_at_app _ b (c :: a)); [done| |].
  - eapply Forall_impl; [exact H|]. intros x. apply is_char_false.
  - right. exists c, a. split; [done|]. unfold is_char.
    by rewrite bool_decide_eq_true_2.
Qed.

Lemma split_scheme_spec (url s rest : str) :
  split_scheme url = (s, rest) ->
  (s = [] \/ scheme_ok s) /\ exists pre, url = pre ++ rest.
Proof.
  unfold split_scheme.
  destruct (break_at (is_char ":") url) as [b a] eqn:E.
  destruct (break_at_spec _ _ _ _ E) as (-> & _ & _).
  destruct b as [|c before]; [intros [= <- <-]; split; [by left|by exists []]|].
  destruct a as [|x after]; [intros [= <- <-]; split; [by left|by exists []]|].
  destruct (is_alpha c && forallb scheme_char (c :: before)) eqn:Hok;
    [|intros [= <- <-]; split; [by left|by exists []]].
  apply andb_true_iff in Hok as [Hc Hall]. intros [= <- <-]. split.
  - right. by apply scheme_ok_lower.
  - exists ((c :: before) ++ [x]). by rewrite <- app_assoc.
Qed.

Lemma split_scheme_build (s rest : str) :
  scheme_ok s -> split_scheme (s ++ ":"%char :: rest) = (s, rest).
Proof.
  intros Hs. destruct (scheme_ok_facts s Hs)
    as (Hlow & Hall & Hcolon & _ & c & before & -> & Hc & _).
  unfold split_scheme.
  rewrite (break_at_app _ (c :: before) (":"%char :: rest)); [|done|].
  - rewrite Hc, Hall. cbn [andb]. by rewrite Hlow.
  - right. by eexists _, _.
Qed.

Lemma urlsplit_ok u s n p q f :
  urlsplit u = (s, n, p, q, f) -> components_ok s n p.
Proof.
  unfold urlsplit.
  set (u1 := filter _ (lstrip _ u)).
  assert (Hsafe : Forall url_safe u1).
  { subst u1. apply Forall_forall. intros c [Hc _]%list_elem_of_filter.
    unfold url_safe. by destruct (unsafe_url_byte c). }
  destruct (split_scheme u1) as [s' u2] eqn:E1.
  destruct (split_netloc u2) as [n' u3] eqn:E2.
  destruct (split_once "#" u3) as [u4 f'] eqn:E3.
  destruct (split_once "?" u4) as [p' q'] eqn:E4.
  intros [= <- <- <- <- <-].
  destruct (split_scheme_spec _ _ _ E1) as (Hs & pre1 & Eu1).
  destruct (split_netloc_spec _ _ _ E2) as (Hn & (pre2 & Eu2) & Hhead).
  destruct (split_once_spec _ _ _ _ E3) as (Hfrag & t3 & Eu3).
  destruct (split_once_spec _ _ _ _ E4) as (Hq & t4 & Eu4).
  assert (Hs2 : Forall url_safe u2) by (rewrite Eu1 in Hsafe; by eapply Forall_app_r).
  assert (Hsn : Forall url_safe (n' ++ u3)) by (rewrite Eu2 in Hs2; by eapply Forall_app_r).
  assert (Hs3 : Forall url_safe u3) by (by eapply Forall_app_r).
  assert (Hs4 : Forall url_safe u4) by (rewrite Eu3 in Hs3; by eapply Forall_app_l).
  assert (Hsp : Forall url_safe p') by (rewrite Eu4 in Hs4; by eapply Forall_app_l).
  split_and!; [done|done|by eapply Forall_app_l| |].
  - rewrite Eu4 in Hfrag. apply Forall_app_l in Hfrag.
    rewrite Forall_forall in *. intros c Hc. split_and!; auto.
  - intros Hne. destruct (Hhead Hne) as [->|(c & r & -> & Hc)].
    + destruct u4; [|done]. destruct p'; [|done]. by left.
    + destruct p' as [|x p']; [by left|right]. exists p'. f_equal.
      rewrite Eu4 in Eu3. cbn in Eu3. injection Eu3 as Ecx _. subst c.
      apply Forall_cons in Hq as [Hx2 _].
      rewrite Eu4 in Hfrag. apply Forall_cons in Hfrag as [Hx1 _].
      destruct (decide (x = "/"%char)) as [->|Hx]; [done|].
      exfalso. apply Hc. by apply no_delim_facts.
Qed.

(** Putting components back together and splitting again. *)
Lemma urlsplit_build (s n p e : str) :
  scheme_ok s -> Forall no_delim n -> Forall url_safe n ->
  Forall path_char p -> rooted p ->
  Forall (fun c => c <> "#"%char /\ url_safe c) e ->
  urlsplit (s ++ py "://" ++ n ++ p
              ++ match e with [] => [] | _ => py "?" ++ e end)
  = (s, n, p, e, []).
Proof.
  intros Hs Hn Hns Hp Hroot He.
  set (tail := match e with [] => [] | _ => py "?" ++ e end).
  assert (Htail : Forall (fun c => c <> "#"%char /\ url_safe c) tail).
  { subst tail. destruct e; [done|]. constructor; [done|exact He]. }
  destruct (scheme_ok_facts s Hs)
    as (_ & _ & _ & Hss & c & before & Es & Hc & Hc0).
  unfold urlsplit.
  rewrite lstrip_id by (right; exists c; eexists; rewrite Es; split; done).
  rewrite filter_all.
  2:{ rewrite !Forall_app. split_and!.
      - eapply Forall_impl; [exact Hss|]. unfold url_safe. by intros x ->.
      - by repeat constructor.
      - eapply Forall_impl; [exact Hns|]. unfold url_safe. by intros x ->.
      - eapply Forall_impl; [exact Hp|]. unfold path_char, url_safe.
        by intros x (_ & _ & ->).
      - eapply Forall_impl; [exact Htail|]. unfold url_safe.
        by intros x [_ ->]. }
  change (s ++ py "://" ++ n ++ p ++ tail)
    with (s ++ ":"%char :: (py "//" ++ n ++ (p ++ tail))).
  rewrite split_scheme_build by done.
  rewrite split_netloc_build; [|done|].
  2:{ destruct Hroot as [->|[p' ->]].
      - subst tail. destruct e; [by left|right].
        eexists _, _. split; [reflexivity|]. by rewrite no_delim_facts; intros (_ & ? & _).
      - right. eexists _, _. split; [reflexivity|].
        by rewrite no_delim_facts; intros (? & _). }
  rewrite split_once_none.
  2:{ apply Forall_app. split.
      - eapply Forall_impl; [exact Hp|]. by intros x (_ & ? & _).
      - eapply Forall_impl; [exact Htail|]. by intros x [? _]. }
  assert (Hpq : Forall (fun x => x <> "?"%char) p).
  { eapply Forall_impl; [exact Hp|]. by intros x (? & _). }
  subst tail. destruct e as [|x e].
  - rewrite app_nil_r. by rewrite split_once_none.
  - change (p ++ py "?" ++ x :: e) with (p ++ "?"%char :: (x :: e)).
    by rewrite split_once_build.
Qed.

End UrlsplitFacts.

Section NormalizerFacts.
Import PyStr UrlLib SmartCrawler.

Lemma last_segment_split (url : str) :
  take (length url - length (last_segment url)) url ++ last_segment url = url.
Proof.
  unfold last_segment.
  destruct (break_at (is_char "/") (rev url)) as [a b] eqn:E.
  destruct (break_at_spec _ _ _ _ E) as (Hrev & _). cbn [fst].
  apply (f_equal (@rev ascii)) in Hrev.
  rewrite rev_involutive, rev_app_distr in Hrev. rewrite Hrev.
  rewrite length_app, Nat.add_sub. by rewrite take_app_length.
Qed.

Lemma _splitparams_prefix (url p pr : str) :
  _splitparams url = (p, pr) -> exists t, url = p ++ t.
Proof.
  unfold _splitparams.
  destruct (break_at (is_char ";") (last_segment url)) as [b a] eqn:E.
  destruct (break_at_spec _ _ _ _ E) as (Hseg & _).
  destruct a as [|x a]; intros [= <- <-];
    [exists []; by rewrite app_nil_r|].
  exists (x :: a). rewrite <- app_assoc, <- Hseg.
  by rewrite last_segment_split.
Qed.

Lemma rooted_prefix (p t : str) : rooted (p ++ t) -> rooted p.
Proof.
  intros [H|[p' H]].
  - left. by destruct p.
  - destruct p as [|x p]; [by left|right]. injection H as -> _. by eexists.
Qed.

Lemma urlparse_ok u :
  components_ok (scheme (urlparse u)) (netloc (urlparse u))
    (path (urlparse u)).
Proof.
  unfold urlparse.
  destruct (urlsplit u) as [[[[s n] p0] q] f] eqn:E.
  destruct (urlsplit_ok _ _ _ _ _ _ E) as (Hs & Hn & Hns & Hp & Hroot).
  destruct (bool_decide (s ∈ uses_params) && has_char ";" p0);
    [|by split_and!].
  destruct (_splitparams p0) as [p pr] eqn:Ep. cbn.
  destruct (_splitparams_prefix _ _ _ Ep) as [t ->].
  split_and!; [done..|by eapply Forall_app_l|].
  intros Hne. by eapply rooted_prefix, Hroot.
Qed.

Lemma urlparse_build (s n p e : str) :
  scheme_ok s -> Forall no_delim n -> Forall url_safe n ->
  Forall path_char p -> rooted p -> has_char ";" p = false ->
  Forall (fun c => c <> "#"%char /\ url_safe c) e ->
  urlparse (s ++ py "://" ++ n ++ p
              ++ match e with [] => [] | _ => py "?" ++ e end)
  = {| scheme := s; netloc := n; path := p; params := [];
       query := e; fragment := [] |}.
Proof.
  intros Hs Hn Hns Hp Hroot Hsemi He. unfold urlparse.
  rewrite urlsplit_build by done. by rewrite Hsemi, andb_false_r.
Qed.

Lemma clean_url_eq u :
  clean_url u
  = let parsed := urlparse u in
    let clean_url :=
      with_query (scheme parsed ++ py "://" ++ netloc parsed ++ path parsed)
        (kept_query (query parsed)) in
    if endswith clean_url (py "/")
       && bool_decide (1 < length (path parsed))%nat
    then rstrip (is_char "/") clean_url
    else clean_url.
Proof.
  unfold clean_url, with_query, kept_query. cbn zeta.
  destruct (query (urlparse u)) as [|c q] eqn:Eq; [by rewrite app_nil_r|].
  pose proof (cleaned_params_well_formed _ (parse_qs_well_formed (c :: q)))
    as Hwf.
  destruct (cleaned_params (parse_qs (c :: q))) as [|kv d] eqn:Ed.
  - change (urlencode []) with (@nil ascii). by rewrite app_nil_r.
  - pose proof (urlencode_nonempty _ Hwf ltac:(done)) as Hne.
    destruct (urlencode (kv :: d)) as [|x e]; [done|].
    by rewrite <- !app_assoc.
Qed.

Lemma kept_query_ok q :
  kept_query q = []
  \/ exists d, d <> [] /\ well_formed d /\ cleaned_params d = d
               /\ kept_query q = urlencode d.
Proof.
  unfold kept_query. destruct q as [|c q]; [by left|].
  destruct (cleaned_params (parse_qs (c :: q))) as [|kv d] eqn:Ed; [by left|].
  right. exists (kv :: d). rewrite <- Ed. split_and!; [by rewrite Ed| | |done].
  - apply cleaned_params_well_formed, parse_qs_well_formed.
  - apply cleaned_params_idempotent.
Qed.

Lemma kept_query_urlencode d :
  d <> [] -> well_formed d -> cleaned_params d = d ->
  kept_query (urlencode d) = urlencode d.
Proof.
  intros Hd Hwf Hclean. unfold kept_query.
  pose proof (urlencode_nonempty d Hwf Hd) as Hne.
  destruct (urlencode d) as [|c e] eqn:Ee; [done|].
  by rewrite <- Ee, parse_qs_urlencode, Hclean.
Qed.

Lemma query_chars_ok (e : str) :
  Forall (fun c => query_char c = true) e ->
  Forall (fun c => c <> "#"%char /\ url_safe c) e.
Proof.
  intros H. eapply Forall_impl; [exact H|]. cbn. intros c Hc.
  by destruct (query_char_plain c Hc) as (? & _ & _ & _ & ? & _).
Qed.

Lemma endswith_slash_app_query (bare e : str) c :
  Forall (fun c => query_char c = true) (c :: e) ->
  endswith (with_query bare (c :: e)) (py "/") = false.
Proof.
  intros He. apply endswith_char_false. right. unfold with_query.
  destruct (exists_last (l := c :: e) ltac:(done)) as (e' & x & E).
  rewrite E in *. exists (bare ++ py "?" ++ e'), x.
  split; [by rewrite <- !app_assoc|].
  apply Forall_app_r in He. apply Forall_inv in He.
  by destruct (query_char_plain x He) as (_ & ? & _).
Qed.

(** A URL put together from good components, with nothing left for
    [clean_url] to strip, is its own normal form. *)
Lemma clean_url_fixed (s n p e : str) :
  scheme_ok s -> n <> [] -> Forall no_delim n -> Forall url_safe n ->
  Forall path_char p -> rooted p -> has_char ";" p = false ->
  (e = [] \/ exists d, d <> [] /\ well_formed d /\ cleaned_params d = d
                       /\ e = urlencode d) ->
  (e = [] ->
   endswith (s ++ py "://" ++ n ++ p) (py "/")
   && bool_decide (1 < length p)%nat = false) ->
  clean_url (with_query (s ++ py "://" ++ n ++ p) e)
  = with_query (s ++ py "://" ++ n ++ p) e.
Proof.
  intros Hs Hne Hn Hns Hp Hroot Hsemi He Hstrip.
  assert (Hchars : Forall (fun c => query_char c = true) e).
  { destruct He as [->|(d & _ & _ & _ & ->)]; [done|].
    apply urlencode_query_chars. }
  assert (Hparse : urlparse (with_query (s ++ py "://" ++ n ++ p) e)
                   = {| scheme := s; netloc := n; path := p; params := [];
                        query := e; fragment := [] |}).
  { unfold with_query. rewrite <- !app_assoc.
    apply urlparse_build; try done. by apply query_chars_ok. }
  rewrite clean_url_eq. cbn zeta. rewrite Hparse.
  cbn [scheme netloc path query].
  assert (Hk : kept_query e = e).
  { destruct He as [->|(d & ? & ? & ? & ->)]; [done|].
    by apply kept_query_urlencode. }
  rewrite Hk. destruct e as [|c e].
  - unfold with_query. rewrite !app_nil_r. by rewrite (Hstrip eq_refl).
  - by rewrite endswith_slash_app_query.
Qed.

Lemma has_char_prefix c (p t : str) :
  has_char c (p ++ t) = false -> has_char c p = false.
Proof. rewrite !has_char_false. apply Forall_app_l. Qed.

(** C5, as the code has it.  [clean_url] is idempotent on every URL with
    a scheme and a host whose path holds no [;]. *)
Theorem clean_url_idempotent u :
  scheme (urlparse u) <> [] -> netloc (urlparse u) <> [] ->
  has_char ";" (path (urlparse u)) = false ->
  clean_url (clean_url u) = clean_url u.
Proof.
  intros Hscheme Hnet Hsemi.
  destruct (urlparse_ok u) as (Hs & Hn & Hns & Hp & Hroot).
  destruct Hs as [Hs|Hs]; [done|]. specialize (Hroot Hnet).
  set (s := scheme (urlparse u)) in *. set (n := netloc (urlparse u)) in *.
  set (p := path (urlparse u)) in *.
  rewrite (clean_url_eq u). cbn zeta. fold s n p.
  set (e := kept_query (query (urlparse u))).
  pose proof (kept_query_ok (query (urlparse u))) as He. fold e in He.
  destruct (endswith (with_query (s ++ py "://" ++ n ++ p) e) (py "/")
            && bool_decide (1 < length p)%nat) eqn:Hstrip.
  - (* the trailing slashes are stripped *)
    apply andb_true_iff in Hstrip as [Hend Hlen].
    destruct e as [|c e].
    2:{ rewrite endswith_slash_app_query in Hend; [done|].
        destruct He as [?|(d & _ & _ & _ & ->)]; [done|].
        apply urlencode_query_chars. }
    unfold with_query in *. rewrite app_nil_r in *.
    destruct (rstrip_spec (is_char "/") p) as [[t Et] Hlast].
    set (p' := rstrip (is_char "/") p) in *.
    assert (Hn_last : exists a x, s ++ py "://" ++ n = a ++ [x]
                                  /\ is_char "/" x = false).
    { destruct (exists_last Hnet) as (n' & x & En). rewrite En in *.
      exists (s ++ py "://" ++ n'), x. split; [by rewrite <- !app_assoc|].
      apply Forall_app_r in Hn. apply Forall_inv in Hn.
      apply no_delim_facts in Hn. apply is_char_false. tauto. }
    assert (Hr : rstrip (is_char "/") (s ++ py "://" ++ n ++ p)
                 = s ++ py "://" ++ n ++ p').
    { destruct Hn_last as (a & x & Ea & Hx).
      replace (s ++ py "://" ++ n ++ p) with ((s ++ py "://" ++ n) ++ p)
        by (by rewrite <- !app_assoc).
      destruct (decide (p' = [])) as [Hp'|Hp'].
      - rewrite rstrip_app_all by done. rewrite Ea, rstrip_snoc_keep by done.
        rewrite <- Ea, Hp'. by rewrite app_nil_r.
      - rewrite rstrip_app_keep by done. by rewrite <- !app_assoc. }
    rewrite Hr.
    pose proof (clean_url_fixed s n p' [] Hs Hnet Hn Hns) as Hfix.
    unfold with_query in Hfix. rewrite !app_nil_r in Hfix. apply Hfix.
    + rewrite Et in Hp. by eapply Forall_app_l.
    + rewrite Et in Hroot. by eapply rooted_prefix.
    + rewrite Et in Hsemi. by eapply has_char_prefix.
    + by left.
    + intros _. apply andb_false_iff. left. apply endswith_char_false. right.
      destruct Hlast as [->|(a & x & -> & Hx)].
      * destruct Hn_last as (a & x & Ea & Hx). exists a, x.
        rewrite app_nil_r. split; [exact Ea|]. by apply is_char_false.
      * exists (s ++ py "://" ++ n ++ a), x.
        split; [by rewrite <- !app_assoc|]. by apply is_char_false.
  - (* nothing is stripped *)
    apply clean_url_fixed; try done.
    intros Ee. rewrite Ee in Hstrip. unfold with_query in Hstrip.
    by rewrite app_nil_r in Hstrip.
Qed.

End NormalizerFacts.

Section NormalizerRuns.
Import PyStr UrlLib SmartCrawler.

(** Stripping the trailing slash of [/a;b/] leaves a last segment with a
    [;], which the next [urlparse] takes for path parameters and drops. *)
Lemma clean_url_not_idempotent :
  clean_url (py "https://example.com/a;b/") = py "https://example.com/a;b"
  /\ clean_url (clean_url (py "https://example.com/a;b/"))
     = py "https://example.com/a"
  /\ clean_url (clean_url (py "https://example.com/a;b/"))
     <> clean_url (py "https://example.com/a;b/").
Proof. by vm_compute. Qed.

Lemma clean_url_idempotent_witness :
  clean_url (clean_url (py "https://Example.com/Team/?utm_source=ad&q=a+b&q=%7e#top"))
  = clean_url (py "https://Example.com/Team/?utm_source=ad&q=a+b&q=%7e#top").
Proof.
  apply (clean_url_idempotent
           (py "https://Example.com/Team/?utm_source=ad&q=a+b&q=%7e#top"));
    by vm_compute.
Defined.

End NormalizerRuns.

(** ** Priority scoring *)

Section PriorityFacts.
Import PyStr UrlLib SmartCrawler.

Lemma lstrip_slash_segments (s : str) :
  count_segments_from true (lstrip (is_char "/") s)
  = count_segments_from true s.
Proof.
  induction s as [|c s IH]; cbn; [done|].
  unfold is_char. case_bool_decide; [done|]. cbn.
  by rewrite bool_decide_eq_false_2.
Qed.

Lemma count_segments_from_snoc_slash b (s : str) :
  count_segments_from b (s ++ ["/"%char]) = count_segments_from b s.
Proof.
  revert b. induction s as [|c s IH]; intros b; cbn; [done|].
  case_bool_decide; by rewrite IH.
Qed.

Lemma lstrip_rev_segments b (s : str) :
  count_segments_from b (rev (lstrip (is_char "/") (rev s)))
  = count_segments_from b s.
Proof.
  induction s as [|c s IH] using rev_ind; [done|].
  rewrite rev_app_distr. cbn. unfold is_char at 1. case_bool_decide as Hc.
  - subst c. by rewrite IH, count_segments_from_snoc_slash.
  - change (c :: rev s) with (rev [c] ++ rev s).
    by rewrite <- rev_app_distr, rev_involutive.
Qed.

Lemma strip_slash_segments (s : str) :
  count_segments (strip (is_char "/") s) = count_segments s.
Proof.
  unfold count_segments, strip, rstrip. rewrite lstrip_rev_segments.
  apply lstrip_slash_segments.
Qed.

(** [split] and the segment count: the non-empty pieces are the segments. *)
Lemma split_segments (s : str) :
  length (filter (fun p : str => p <> []) (split "/" s))
  = count_segments_from true s
  /\ length (filter (fun p : str => p <> []) (tail (split "/" s)))
     = count_segments_from false s.
Proof.
  induction s as [|c s [IHt IHf]]; cbn [split count_segments_from]; [done|].
  case_bool_decide as Hc; cbn [tail].
  - rewrite filter_cons_False by (by intros H; apply H). done.
  - destruct (split "/" s) as [|h t] eqn:Es; cbn [tail] in *;
      rewrite filter_cons_True by done; cbn [length]; by rewrite <- IHf.
Qed.

Lemma path_parts_count (path : str) :
  length (filter (fun p : str => p <> [])
            (split "/" (strip (is_char "/") path)))
  = count_segments path.
Proof.
  rewrite <- strip_slash_segments. apply split_segments.
Qed.

Lemma clamp_range score : 0 <= clamp score <= 100.
Proof. unfold clamp. lia. Qed.

Lemma has_char_elem c (s : str) : has_char c s = true <-> c ∈ s.
Proof.
  unfold has_char. rewrite existsb_exists. split.
  - intros (x & Hin & Hx). apply bool_decide_eq_true in Hx. subst x.
    by apply list_elem_of_In.
  - intros Hin. exists c. split; [by apply list_elem_of_In|].
    by apply bool_decide_eq_true.
Qed.

Lemma split_once_tail c (url b a : str) :
  split_once c url = (b, a) -> a <> [] -> c ∈ url.
Proof.
  unfold split_once. destruct (break_at (is_char c) url) as [b' a'] eqn:E.
  destruct (break_at_spec _ _ _ _ E) as (-> & _ & Hhead).
  destruct a' as [|x a']; [by intros [= <- <-]|]. intros [= <- <-] _.
  destruct Hhead as [?|(y & t & [= <- <-] & Hy)]; [done|].
  apply bool_decide_eq_true in Hy. subst x. set_solver.
Qed.

(** A URL with a query holds a [?]. *)
Lemma query_question_mark (url : str) :
  query (urlparse url) <> [] -> has_char "?" url = true.
Proof.
  unfold urlparse.
  destruct (urlsplit url) as [[[[s n] p0] q] f] eqn:E.
  assert (Hq : query (let '(url0, params) :=
                        if bool_decide (s ∈ uses_params) && has_char ";" p0
                        then _splitparams p0 else (p0, []) in
                      Build_ParseResult s n url0 params q f) = q).
  { destruct (_ && _); [by destruct (_splitparams p0)|done]. }
  rewrite Hq. clear Hq. intros Hne. apply has_char_elem.
  revert E. unfold urlsplit.
  set (u1 := filter _ (lstrip _ url)).
  destruct (split_scheme u1) as [s' u2] eqn:E1.
  destruct (split_netloc u2) as [n' u3] eqn:E2.
  destruct (split_once "#" u3) as [u4 f'] eqn:E3.
  destruct (split_once "?" u4) as [p' q'] eqn:E4.
  intros [= <- <- <- <- <-].
  pose proof (split_once_tail _ _ _ _ E4 Hne) as H4.
  destruct (split_once_spec _ _ _ _ E3) as (_ & t3 & ->).
  destruct (split_netloc_spec _ _ _ E2) as (_ & (pre2 & ->) & _).
  destruct (split_scheme_spec _ _ _ E1) as (_ & pre1 & Eu1).
  assert (H1 : "?"%char ∈ u1) by (rewrite Eu1; set_solver).
  subst u1. apply list_elem_of_filter in H1 as [_ H1].
  destruct (lstrip_sublist_tail c0_control_or_space url) as [a Ha].
  rewrite Ha. set_solver.
Qed.

Lemma calculate_priority_as_computed url context depth :
  calculate_priority url context depth = priority_formula url context depth.
Proof.
  unfold calculate_priority, priority_formula, is_root.
  rewrite path_parts_count.
  set (p := path (urlparse url)).
  assert (Hroot : bool_decide (p ∈ [py "/"; py ""])
                  = bool_decide (p = py "/") || bool_decide (p = py "")).
  { repeat case_bool_decide; cbn; try done; exfalso; set_solver. }
  rewrite Hroot. destruct (_ || _); [done|].
  unfold clamp, context_bonus, segment_bonus.
  f_equal. f_equal.
  repeat case_bool_decide;
    destruct (count_segments p) as [|[|[|[|[|?]]]]]; cbn;
    destruct (has_char "?" url); lia.
Qed.

(** C4, as the code has it.  For every URL, context and crawl depth the
    score lies in [0,100] and is 100 when the path is [/] or empty.  For
    a URL whose path is [/] or empty or has at least one segment, and
    which holds a [?] only when it has a query, the score is the
    specified one: 100 for the root, and else the clamp to [0,100] of
    50 + context bonus (nav 30, footer 20, homepage 25, anything else 0)
    + segment bonus (1 segment 20, 2 segments 10, 3 segments 0,
    4 segments -10, 5 or more -20) - 5 * depth - 5 if the URL has a
    query.  Nothing is said of the other URLs. *)
Theorem calculate_priority_formula url context depth :
  0 <= calculate_priority url context depth <= 100
  /\ (is_root (path (urlparse url)) = true ->
      calculate_priority url context depth = 100)
  /\ ((is_root (path (urlparse url)) = true
       \/ (1 <= count_segments (path (urlparse url)))%nat) ->
      (has_char "?" url = true -> query (urlparse url) <> []) ->
      priority_as_specified url context depth
      = Some (calculate_priority url context depth)).
Proof.
  rewrite calculate_priority_as_computed.
  unfold priority_formula, priority_as_specified.
  destruct (is_root (path (urlparse url))) eqn:Hroot;
    [split; [lia|by split]|].
  split; [apply clamp_range|]. split; [done|].
  intros Hseg Hq. destruct Hseg as [?|Hseg]; [done|].
  assert (Hpen : (if has_char "?" url then 5 else 0)
                 = if bool_decide (query (urlparse url) = []) then 0 else 5).
  { case_bool_decide as Hempty.
    - destruct (has_char "?" url); [|done]. by destruct (Hq eq_refl).
    - by rewrite query_question_mark. }
  rewrite Hpen. unfold segment_bonus.
  destruct (count_segments (path (urlparse url))) as [|[|[|[|[|?]]]]];
    [lia|done..].
Qed.

(** [https://example.com//?a=1] is a URL [clean_url] leaves as it is
    and the filter lets through.  Its path [//] is not the root path and
    has no segment: the code scores it 25 with the bonus of its [else]
    branch, where the specification lists no bonus.  And a [?] inside
    the fragment costs 5 although the URL has no query. *)
Lemma calculate_priority_outside_listed_cases :
  clean_url (py "https://example.com//?a=1") = py "https://example.com//?a=1"
  /\ should_skip_url (py "https://example.com//?a=1") = false
  /\ path (urlparse (py "https://example.com//?a=1")) = py "//"
  /\ count_segments (py "//") = 0%nat
  /\ calculate_priority (py "https://example.com//?a=1") "" 0 = 25
  /\ priority_as_specified (py "https://example.com//?a=1") "" 0 = None
  /\ priority_as_specified (py "https://example.com//?a=1") "" 0
     <> Some (calculate_priority (py "https://example.com//?a=1") "" 0)
  /\ query (urlparse (py "https://example.com/a#b?c")) = []
  /\ priority_as_specified (py "https://example.com/a#b?c") "" 0 = Some 70
  /\ calculate_priority (py "https://example.com/a#b?c") "" 0 = 65.
Proof. by vm_compute. Qed.

(** A URL with two segments and a query, found in the navigation at
    depth 2. *)
Lemma calculate_priority_formula_witness :
  priority_as_specified (py "https://example.com/team/about?id=7") "nav" 2
  = Some (calculate_priority (py "https://example.com/team/about?id=7")
            "nav" 2).
Proof.
  destruct (calculate_priority_formula
              (py "https://example.com/team/about?id=7") "nav" 2)
    as (_ & _ & H).
  apply H.
  - right. vm_compute. lia.
  - intros _. by vm_compute.
Defined.

End PriorityFacts.

(** ** Breadth-first discovery *)

Section DiscoveryFacts.
Import PyStr UrlLib SmartCrawler.
Variable base_url : str.
Variable max_urls : Z.
Variable max_depth : Z.
Variable get_sitemap : str -> option sitemap_doc.
Variable get_sub_sitemap : str -> option (list str).
Variable extract_all_links : str -> list (str * string).

Local Abbreviation parse_sitemap :=
  (parse_sitemap base_url get_sitemap get_sub_sitemap).
Local Abbreviation seeded :=
  (seeded base_url get_sitemap get_sub_sitemap).
Local Abbreviation scan_links := (scan_links max_urls max_depth).
Local Abbreviation bfs_step := (bfs_step max_urls max_depth extract_all_links).
Local Abbreviation bfs := (bfs max_urls max_depth extract_all_links).
Local Abbreviation enough := (enough max_urls).
Local Abbreviation room := (room max_urls).
Local Abbreviation start := (start base_url).

Lemma len_insert_new (m : gmap str Z) u p :
  u ∉ dom m -> len (<[u := p]> m) = len m + 1.
Proof.
  intros Hu. unfold len. rewrite map_size_insert_None; [lia|].
  by apply not_elem_of_dom.
Qed.

(** *** Sitemap seeding *)

Lemma seed_sitemap_frame w u :
  to_crawl (seed_sitemap w u) = to_crawl w
  /\ crawled (seed_sitemap w u) = crawled w
  /\ extracted (seed_sitemap w u) = extracted w.
Proof. unfold seed_sitemap. by case_bool_decide. Qed.

Lemma fold_seed_sitemap_frame us w :
  to_crawl (fold_left seed_sitemap us w) = to_crawl w
  /\ crawled (fold_left seed_sitemap us w) = crawled w
  /\ extracted (fold_left seed_sitemap us w) = extracted w.
Proof.
  revert w. induction us as [|u us IH]; intros w; [done|]. cbn.
  destruct (IH (seed_sitemap w u)) as (-> & -> & ->). apply seed_sitemap_frame.
Qed.

(** A key keeps the value it was first given. *)
Lemma fold_seed_sitemap_keeps us w u :
  u ∈ dom (discovered_urls w) ->
  discovered_urls (fold_left seed_sitemap us w) !! u = discovered_urls w !! u
  /\ url_depths (fold_left seed_sitemap us w) !! u = url_depths w !! u.
Proof.
  revert w. induction us as [|v us IH]; intros w Hin; [done|]. cbn.
  unfold seed_sitemap at 2 4. case_bool_decide as Hv; [by apply IH|].
  assert (v <> u) by congruence.
  destruct (IH (Walk (<[v:=calculate_priority v "sitemap" 1]> (discovered_urls w))
                     (<[v:=1]> (url_depths w)) (to_crawl w) (crawled w)
                     (extracted w))) as [-> ->].
  - cbn. rewrite dom_insert_L. set_solver.
  - cbn. by rewrite !lookup_insert_ne.
Qed.

Lemma fold_seed_sitemap_records us w u :
  u ∈ us -> u ∉ dom (discovered_urls w) ->
  discovered_urls (fold_left seed_sitemap us w) !! u
    = Some (calculate_priority u "sitemap" 1)
  /\ url_depths (fold_left seed_sitemap us w) !! u = Some 1.
Proof.
  revert w. induction us as [|v us IH]; intros w Hin Hnew.
  - by apply elem_of_nil in Hin.
  - cbn. destruct (decide (v = u)) as [->|Hne].
    + unfold seed_sitemap at 2 4. rewrite bool_decide_eq_false_2 by done.
      match goal with |- context [fold_left _ _ ?w'] =>
        destruct (fold_seed_sitemap_keeps us w' u) as [-> ->] end.
      * cbn. rewrite dom_insert_L. set_solver.
      * cbn. by rewrite !lookup_insert_eq.
    + apply IH; [set_solver|]. unfold seed_sitemap.
      case_bool_decide; [done|]. cbn. rewrite dom_insert_L. set_solver.
Qed.

Lemma fold_seed_sitemap_dom us w :
  dom (discovered_urls (fold_left seed_sitemap us w))
  = dom (discovered_urls w) ∪ list_to_set us.
Proof.
  revert w. induction us as [|v us IH]; intros w; cbn; [set_solver|].
  rewrite IH. unfold seed_sitemap. case_bool_decide; cbn.
  - set_solver.
  - rewrite dom_insert_L. set_solver.
Qed.

(** *** One page's links *)

Lemma scan_links_spec d links w :
  let w' := scan_links d links w in
  crawled w' = crawled w /\ extracted w' = extracted w
  /\ dom (discovered_urls w) ⊆ dom (discovered_urls w')
  /\ len (discovered_urls w') <= Z.max max_urls (len (discovered_urls w))
  /\ exists appended,
       to_crawl w' = to_crawl w ++ appended
       /\ Forall (fun e => e.2 = d + 1 /\ e.2 <= max_depth
                           /\ e.1 ∉ dom (discovered_urls w)) appended
       /\ (length appended + room w' <= room w)%nat.
Proof.
  revert w. induction links as [|[u c] links IH]; intros w; cbn.
  - repeat split; [done|lia|]. exists []. rewrite app_nil_r. by repeat split.
  - case_bool_decide as Hfull.
    { repeat split; [done|lia|]. exists []. rewrite app_nil_r. by repeat split. }
    case_bool_decide as Hknown; [apply IH|].
    match goal with |- context [scan_links d links ?w1] =>
      destruct (IH w1) as (Hc & He & Hdom & Hlen & app & Hq & Hall & Hroom) end.
    cbn in Hc, He, Hdom, Hlen, Hq, Hall, Hroom.
    rewrite dom_insert_L in Hdom, Hall.
    unfold SmartCrawler.room in *. cbn in Hroom. rewrite len_insert_new in Hlen, Hroom by done.
    rewrite Hc, He. repeat split; [set_solver|lia|].
    case_bool_decide as Hdeep.
    + exists ((u, d + 1) :: app). rewrite Hq, <- app_assoc. repeat split.
      * constructor; [by repeat split|].
        eapply Forall_impl; [exact Hall|]. cbn.
        intros e (? & ? & Hnew). repeat split; [done..|].
        intros Hin. apply Hnew. by apply elem_of_union_r.
      * cbn. lia.
    + exists app. repeat split; [done| |lia].
      eapply Forall_impl; [exact Hall|]. cbn.
      intros e (? & ? & Hnew). repeat split; [done..|].
      intros Hin. apply Hnew. by apply elem_of_union_r.
Qed.

(** *** One iteration of the walk *)

Lemma bfs_step_spec w w' :
  bfs_step w = Some w' ->
  exists current_url current_depth rest appended,
    to_crawl w = (current_url, current_depth) :: rest
    /\ to_crawl w' = rest ++ appended
    /\ Forall (fun e => e.2 = current_depth + 1 /\ e.2 <= max_depth
                        /\ e.1 ∉ dom (discovered_urls w)) appended
    /\ dom (discovered_urls w) ⊆ dom (discovered_urls w')
    /\ len (discovered_urls w') <= Z.max max_urls (len (discovered_urls w))
    /\ (enough w' < enough w)%nat
    /\ (((current_url ∈ crawled w \/ current_depth > max_depth)
         /\ appended = [] /\ crawled w' = crawled w
         /\ extracted w' = extracted w)
        \/ ((current_url ∉ crawled w) /\ current_depth <= max_depth
            /\ crawled w' = {[ current_url ]} ∪ crawled w
            /\ extracted w' = extracted w ++ [current_url])).
Proof.
  unfold SmartCrawler.bfs_step. intros Hstep.
  destruct (to_crawl w) as [|[u d] rest] eqn:Hq; [done|].
  case_bool_decide as Hroom; [|done].
  exists u, d, rest.
  destruct (bool_decide (u ∈ crawled w) || bool_decide (d > max_depth)) eqn:Hskip.
  - simplify_eq. exists []. cbn. rewrite app_nil_r.
    split_and!; [done|done|constructor|done|lia| |].
    + unfold SmartCrawler.enough, SmartCrawler.room. cbn. rewrite Hq. cbn. lia.
    + left. split_and!; try done.
      apply orb_true_iff in Hskip as [H|H]; apply bool_decide_eq_true in H; auto.
  - simplify_eq.
    match goal with |- context [scan_links d ?links ?w1] =>
      destruct (scan_links_spec d links w1)
        as (Hc & He & Hdom & Hlen & app & Happ & Hall & Hmeasure) end.
    cbn in Hc, He, Hdom, Hlen, Happ, Hall, Hmeasure.
    exists app. split_and!; try done.
    + unfold SmartCrawler.enough. rewrite Happ, Hq, length_app. cbn.
      unfold SmartCrawler.room in *. cbn in Hmeasure. lia.
    + right. apply orb_false_iff in Hskip as [H1 H2].
      apply bool_decide_eq_false in H1, H2. split_and!; [done|lia|done..].
Qed.

Lemma seeded_frame :
  to_crawl seeded = [(base_url, 0)] /\ crawled seeded = ∅
  /\ extracted seeded = [].
Proof. apply (fold_seed_sitemap_frame parse_sitemap start). Qed.

Lemma walk_invariant_seeded :
  walk_invariant base_url max_urls max_depth get_sitemap get_sub_sitemap seeded.
Proof.
  unfold walk_invariant. destruct seeded_frame as (-> & -> & ->).
  split_and!; [|apply NoDup_nil_2|set_solver|done|lia].
  apply Forall_singleton. by left.
Qed.

Lemma walk_invariant_step w w' :
  walk_invariant base_url max_urls max_depth get_sitemap get_sub_sitemap w ->
  bfs_step w = Some w' ->
  walk_invariant base_url max_urls max_depth get_sitemap get_sub_sitemap w'.
Proof.
  intros (Hq & Hnd & Hcr & Hdom & Hlen) Hstep.
  destruct (bfs_step_spec w w' Hstep)
    as (u & d & rest & app & Eq & Eq' & Happ & Hdom' & Hlen' & _ & Hcase).
  rewrite Eq in Hq. apply Forall_cons in Hq as [_ Hrest].
  unfold walk_invariant. rewrite Eq'. split_and!.
  - apply Forall_app. split; [done|].
    eapply Forall_impl; [exact Happ|]. cbn.
    intros e (_ & ? & Hnew). right. split; [done|]. set_solver.
  - destruct Hcase as [(_ & _ & _ & ->)|(Hnew & _ & _ & ->)]; [done|].
    apply NoDup_app. repeat split; [done| |apply NoDup_singleton].
    intros x Hx ->%list_elem_of_singleton. by apply Hnew, Hcr.
  - intros x. destruct Hcase as [(_ & _ & -> & ->)|(_ & _ & -> & ->)];
      [apply Hcr|].
    rewrite elem_of_union, elem_of_singleton, elem_of_app,
            list_elem_of_singleton. specialize (Hcr x). tauto.
  - set_solver.
  - lia.
Qed.

Lemma walk_invariant_bfs n w :
  walk_invariant base_url max_urls max_depth get_sitemap get_sub_sitemap w ->
  walk_invariant base_url max_urls max_depth get_sitemap get_sub_sitemap
    (bfs n w).
Proof.
  revert w. induction n as [|n IH]; intros w Hinv; [done|]. cbn.
  destruct (bfs_step w) as [w'|] eqn:Hstep; [|done].
  apply IH. by eapply walk_invariant_step.
Qed.

(** The walk ends: after [enough w] iterations the loop condition fails. *)
Lemma bfs_finishes n w : (enough w <= n)%nat -> bfs_step (bfs n w) = None.
Proof.
  revert w. induction n as [|n IH]; intros w Hn; cbn.
  - unfold SmartCrawler.bfs_step, SmartCrawler.enough in *.
    destruct (to_crawl w); [done|cbn in Hn; lia].
  - destruct (bfs_step w) as [w'|] eqn:Hstep; [|done].
    apply IH. destruct (bfs_step_spec w w' Hstep)
      as (_ & _ & _ & _ & _ & _ & _ & _ & _ & Hlt & _). lia.
Qed.

(** *** What the sitemap contributes *)

Lemma keep_locs_spec locs u :
  u ∈ keep_locs locs ->
  should_skip_url u = false /\ exists loc, loc ∈ locs /\ u = clean_url loc.
Proof.
  unfold keep_locs. rewrite list_elem_of_filter, list_elem_of_fmap.
  intros [Hskip (loc & -> & Hloc)]. eauto.
Qed.

Lemma try_sitemaps_spec candidates u :
  u ∈ try_sitemaps get_sitemap get_sub_sitemap candidates ->
  should_skip_url u = false /\ exists loc, u = clean_url loc.
Proof.
  induction candidates as [|c candidates IH]; cbn; [by intros ?%elem_of_nil|].
  destruct (get_sitemap c) as [doc|]; [|done].
  destruct (sitemaps doc) as [|s subs].
  - intros (? & loc & _ & ->)%keep_locs_spec. eauto.
  - assert (Hsub : forall sub,
              u ∈ match get_sub_sitemap sub with
                  | Some locs => keep_locs locs
                  | None => []
                  end ->
              should_skip_url u = false /\ exists loc, u = clean_url loc).
    { intros sub Hu.
      destruct (get_sub_sitemap sub); [|by apply elem_of_nil in Hu].
      apply keep_locs_spec in Hu as (? & loc & _ & ->). eauto. }
    intros [Hu|(sub & Hu & _)%list_elem_of_bind]%elem_of_app; eauto.
Qed.

Lemma seeded_dom :
  dom (discovered_urls seeded) = {[ base_url ]} ∪ list_to_set parse_sitemap.
Proof.
  unfold SmartCrawler.seeded. rewrite fold_seed_sitemap_dom. cbn.
  by rewrite dom_singleton_L.
Qed.

Lemma fold_seed_sitemap_len us w :
  len (discovered_urls (fold_left seed_sitemap us w))
  <= len (discovered_urls w) + Z.of_nat (length us).
Proof.
  revert w. induction us as [|u us IH]; intros w; cbn [fold_left length]; [lia|].
  etrans; [apply IH|]. unfold seed_sitemap. case_bool_decide; cbn; [lia|].
  rewrite len_insert_new by done. lia.
Qed.

(** C1, as the code has it.  Sitemap seeding is not limited by the
    budget: after it the set holds at most one entry per sitemap location
    besides the base URL.  From then on a URL is added only while the set
    holds fewer than [max_urls] entries, so after every iteration of the
    walk, and after every link inside an iteration, the set holds at most
    [max (max_urls, size after seeding)] entries; without sitemap
    locations and with a budget of at least one that is [max_urls]. *)
Theorem discovered_urls_bounded_after_seeding n :
  let w := bfs n seeded in
  len (discovered_urls seeded) <= 1 + Z.of_nat (length parse_sitemap)
  /\ len (discovered_urls w)
     <= Z.max max_urls (len (discovered_urls seeded))
  /\ (forall current_depth page_links,
        len (discovered_urls (scan_links current_depth page_links w))
        <= Z.max max_urls (len (discovered_urls seeded)))
  /\ (parse_sitemap = [] -> 1 <= max_urls ->
        len (discovered_urls w) <= max_urls).
Proof.
  intros w.
  assert (Hseed : len (discovered_urls seeded)
                  <= 1 + Z.of_nat (length parse_sitemap)).
  { etrans; [apply fold_seed_sitemap_len|]. cbn.
    unfold len. rewrite map_size_singleton. lia. }
  destruct (walk_invariant_bfs n seeded walk_invariant_seeded)
    as (_ & _ & _ & _ & Hlen). fold w in Hlen.
  split_and!; [done|done| |].
  - intros d links.
    destruct (scan_links_spec d links w) as (_ & _ & _ & Hscan & _). lia.
  - intros Hnone Hpos. rewrite Hnone in Hseed. cbn [length] in Hseed. lia.
Qed.

(** C2, as the code has it.  When the walk starts the queue holds the
    base URL at depth 0 and nothing else.  A sitemap location, normalized
    and not skipped, is recorded in [discovered_urls] (scored with
    context [sitemap] and crawl depth 1) and in [url_depths] (depth 1)
    unless it is the base URL, but it is not put on the queue, and no
    later iteration puts it there. *)
Theorem frontier_at_start_of_walk :
  to_crawl seeded = [(base_url, 0)]
  /\ (forall u, u ∈ parse_sitemap ->
        should_skip_url u = false /\ exists loc, u = clean_url loc)
  /\ (forall u, u ∈ parse_sitemap -> u <> base_url ->
        discovered_urls seeded !! u = Some (calculate_priority u "sitemap" 1)
        /\ url_depths seeded !! u = Some 1)
  /\ (forall n e, e ∈ to_crawl (bfs n seeded) ->
        e = (base_url, 0) \/ e.1 ∉ parse_sitemap).
Proof.
  split_and!.
  - apply seeded_frame.
  - intros u. apply try_sitemaps_spec.
  - intros u Hu Hne. apply fold_seed_sitemap_records; [done|].
    cbn. rewrite dom_singleton_L. set_solver.
  - intros n e He.
    destruct (walk_invariant_bfs n seeded walk_invariant_seeded) as (Hq & _).
    rewrite Forall_forall in Hq. destruct (Hq e He) as [->|[_ Hnew]]; [by left|].
    right. rewrite seeded_dom in Hnew. set_solver.
Qed.

(** C6. After any number of iterations of the walk: every queue entry is
    the seed pair or has depth at most [max_depth]; no page has been
    handed to [extract_all_links] twice, and those pages are exactly the
    set [crawled]; and the next iteration takes the head [(url, depth)]
    off the queue, appends only entries of depth [depth + 1 <= max_depth],
    and extracts links from [url] only if [url] is not in [crawled] (else
    it appends nothing and extracts nothing). *)
Theorem walk_depth_and_visit_once n :
  let w := bfs n seeded in
  Forall (fun e => e = (base_url, 0) \/ e.2 <= max_depth) (to_crawl w)
  /\ NoDup (extracted w)
  /\ (forall u, u ∈ crawled w <-> u ∈ extracted w)
  /\ forall w', bfs_step w = Some w' ->
       exists current_url current_depth rest appended,
         to_crawl w = (current_url, current_depth) :: rest
         /\ to_crawl w' = rest ++ appended
         /\ Forall (fun e => e.2 = current_depth + 1 /\ e.2 <= max_depth)
              appended
         /\ (((current_url ∈ crawled w \/ current_depth > max_depth)
              /\ appended = [] /\ extracted w' = extracted w)
             \/ ((current_url ∉ crawled w) /\ current_depth <= max_depth
                 /\ extracted w' = extracted w ++ [current_url])).
Proof.
  intros w.
  destruct (walk_invariant_bfs n seeded walk_invariant_seeded)
    as (Hq & Hnd & Hcr & _). fold w in Hq, Hnd, Hcr.
  split_and!; [|done|done|].
  - eapply Forall_impl; [exact Hq|]. cbn. tauto.
  - intros w' Hstep.
    destruct (bfs_step_spec w w' Hstep)
      as (u & d & rest & app & Eq & Eq' & Happ & _ & _ & _ & Hcase).
    exists u, d, rest, app. split_and!; [done|done| |].
    + eapply Forall_impl; [exact Happ|]. cbn. tauto.
    + destruct Hcase as [(? & ? & _ & ?)|(? & ? & _ & ?)]; [left|right]; done.
Qed.

(** [discover_important_pages] runs the loop to its end. *)
Lemma discover_important_pages_ends :
  bfs_step (discover_important_pages base_url max_urls max_depth get_sitemap
              get_sub_sitemap extract_all_links) = None.
Proof. unfold discover_important_pages. by apply bfs_finishes. Qed.

End DiscoveryFacts.

Section DiscoveryRuns.
Import PyStr SmartCrawler.

(** With a budget of 2 the three sitemap locations are all recorded: the
    set holds 4 entries when the walk starts and when it ends. *)
Lemma sitemap_seeding_exceeds_budget :
  len (discovered_urls SampleSite.seeded) = 4
  /\ ~ len (discovered_urls (SampleSite.discover_important_pages 2 3)) <= 2.
Proof. split; [reflexivity|]. vm_compute. intros H. by apply H. Qed.

(** [/about] comes from the sitemap and the home page links to it, yet
    it is not on the queue when the walk starts and its links are never
    extracted. *)
Lemma sitemap_location_not_enqueued :
  py "https://example.com/about"
    ∈ parse_sitemap SampleSite.base_url SampleSite.get_sitemap
        SampleSite.get_sub_sitemap
  /\ ~ (py "https://example.com/about", 1) ∈ to_crawl SampleSite.seeded
  /\ ~ py "https://example.com/about"
       ∈ extracted (SampleSite.discover_important_pages 10 3).
Proof.
  split_and!.
  - vm_compute. apply list_elem_of_here.
  - intros H. vm_compute in H. by apply list_elem_of_singleton in H.
  - intros H. vm_compute in H. set_solver.
Qed.

Lemma discovered_urls_bounded_after_seeding_witness :
  len (discovered_urls
         (bfs 10 3 SampleSite.extract_all_links 1
            (seeded (py "https://example.org") (fun _ => None)
               (fun _ => None)))) <= 10.
Proof.
  apply (discovered_urls_bounded_after_seeding (py "https://example.org")
           10 3 (fun _ => None) (fun _ => None)
           SampleSite.extract_all_links 1); [reflexivity|lia].
Defined.

Lemma walk_depth_and_visit_once_witness :
  let w := bfs 10 3 SampleSite.extract_all_links 2 SampleSite.seeded in
  Forall (fun e => e = (SampleSite.base_url, 0) \/ e.2 <= 3) (to_crawl w)
  /\ NoDup (extracted w).
Proof.
  intros w.
  destruct (walk_depth_and_visit_once SampleSite.base_url 10 3
              SampleSite.get_sitemap SampleSite.get_sub_sitemap
              SampleSite.extract_all_links 2) as (Hq & Hnd & _).
  split; [exact Hq|exact Hnd].
Defined.

End DiscoveryRuns.

(** ** More on the retrying fetcher *)

Section BackoffFacts.
Import ContentExtractor Backoff.
Variable fetch : string -> Z -> attempt_outcome.

Lemma retries_trace_S a k :
  retries_trace a (S k)
  = EvRequest a :: EvSleep (2 ^ (a + 1)) :: retries_trace (a + 1) k.
Proof.
  unfold retries_trace. rewrite seqZ_cons by lia. cbn [fmap list_fmap concat].
  replace (Z.pred (Z.of_nat (S k))) with (Z.of_nat k) by lia.
  by replace (Z.succ a) with (a + 1) by lia.
Qed.

Lemma requests_app tr1 tr2 : requests (tr1 ++ tr2) = requests tr1 ++ requests tr2.
Proof. apply omap_app. Qed.

Lemma sleeps_app tr1 tr2 : sleeps (tr1 ++ tr2) = sleeps tr1 ++ sleeps tr2.
Proof. apply omap_app. Qed.

Lemma requests_retries_trace a k :
  requests (retries_trace a k) = seqZ a (Z.of_nat k).
Proof.
  revert a. induction k as [|k IH]; intros a.
  - by rewrite seqZ_nil by lia.
  - rewrite retries_trace_S. cbn. fold (requests (retries_trace (a + 1) k)).
    rewrite IH, (seqZ_cons a) by lia. f_equal. f_equal; lia.
Qed.

Lemma sleeps_retries_trace a k :
  sleeps (retries_trace a k) = (fun i => 2 ^ i) <$> seqZ (a + 1) (Z.of_nat k).
Proof.
  revert a. induction k as [|k IH]; intros a.
  - by rewrite !seqZ_nil by lia.
  - rewrite retries_trace_S. cbn. fold (sleeps (retries_trace (a + 1) k)).
    rewrite IH, (seqZ_cons (a + 1)) by lia. cbn. f_equal. f_equal; f_equal; lia.
Qed.

(** While attempts fail transiently and are not the last one, the loop
    goes on. *)
Lemma for_attempt_retries url max_retries k a m :
  0 <= m -> a + Z.of_nat k < max_retries ->
  (forall i, a <= i < a + Z.of_nat k ->
             is_Some (transient_error (fetch url i))) ->
  for_attempt fetch url max_retries (seqZ a (Z.of_nat k + m))
  = let '(r, tr) := for_attempt fetch url max_retries
                      (seqZ (a + Z.of_nat k) m) in
    (r, retries_trace a k ++ tr).
Proof.
  revert a. induction k as [|k IH]; intros a Hm Hlt Hall.
  - replace (a + Z.of_nat 0) with a by lia.
    replace (Z.of_nat 0 + m) with m by lia.
    by destruct (for_attempt _ _ _ _).
  - rewrite seqZ_cons by lia. cbn [for_attempt].
    replace (Z.pred (Z.of_nat (S k) + m)) with (Z.of_nat k + m) by lia.
    replace (Z.succ a) with (a + 1) by lia.
    rewrite (IH (a + 1)) by (try done; try lia; intros; apply Hall; lia).
    replace (a + 1 + Z.of_nat k) with (a + Z.of_nat (S k)) by lia.
    rewrite retries_trace_S.
    destruct (Hall a ltac:(lia)) as [e He].
    destruct (for_attempt fetch url max_retries
                (seqZ (a + Z.of_nat (S k)) m)) as [r tr].
    destruct (fetch url a) as [t w|e'|e'|e']; cbn in He; try discriminate;
      by rewrite bool_decide_eq_true_2 by lia.
Qed.

(** A page that is fetched at attempt [k] (0-based) after [k] transient
    failures yields a success result with [attempts = k + 1]; the waits
    before it were 2, 4, ..., 2^k seconds and nothing follows the
    successful request. *)
Theorem extract_clean_content_recovers url max_retries k text wc :
  0 <= k < max_retries ->
  (forall i, 0 <= i < k -> is_Some (transient_error (fetch url i))) ->
  fetch url k = Fetched text wc ->
  extract_clean_content fetch url max_retries
  = (Some (FetchResult url text None true (k + 1)),
     retries_trace 0 (Z.to_nat k) ++ [EvRequest k])
  /\ sleeps (retries_trace 0 (Z.to_nat k) ++ [EvRequest k])
     = (fun i => 2 ^ i) <$> seqZ 1 k.
Proof.
  intros Hk Hall Hfetch. unfold extract_clean_content. split.
  - replace max_retries
      with (Z.of_nat (Z.to_nat k) + (max_retries - k)) at 2 by lia.
    rewrite for_attempt_retries; [|lia|lia|intros; apply Hall; lia].
    replace (0 + Z.of_nat (Z.to_nat k)) with k by lia.
    rewrite seqZ_cons by lia. cbn [for_attempt]. by rewrite Hfetch.
  - rewrite sleeps_app, sleeps_retries_trace. cbn. rewrite app_nil_r.
    by replace (Z.of_nat (Z.to_nat k)) with k by lia.
Qed.

(** An error that is not a request error ends the call at once: the
    failure result carries the error text unchanged and the number of the
    attempt, and no sleep and no further request follow. *)
Theorem extract_clean_content_no_retry_on_other_error url max_retries k e :
  0 <= k < max_retries ->
  (forall i, 0 <= i < k -> is_Some (transient_error (fetch url i))) ->
  fetch url k = OtherException e ->
  exists tr,
    extract_clean_content fetch url max_retries
    = (Some (FetchResult url "" (Some e) false (k + 1)), tr)
    /\ requests tr = seqZ 0 (k + 1)
    /\ last tr = Some (EvRequest k)
    /\ length (sleeps tr) = Z.to_nat k.
Proof.
  intros Hk Hall Hfetch. unfold extract_clean_content.
  exists (retries_trace 0 (Z.to_nat k) ++ [EvRequest k]). split_and!.
  - replace max_retries
      with (Z.of_nat (Z.to_nat k) + (max_retries - k)) at 2 by lia.
    rewrite for_attempt_retries; [|lia|lia|intros; apply Hall; lia].
    replace (0 + Z.of_nat (Z.to_nat k)) with k by lia.
    rewrite seqZ_cons by lia. cbn [for_attempt]. by rewrite Hfetch.
  - rewrite requests_app, requests_retries_trace. cbn.
    replace (k + 1) with (Z.of_nat (S (Z.to_nat k))) by lia.
    rewrite seqZ_S. do 2 f_equal. lia.
  - by rewrite last_snoc.
  - rewrite sleeps_app, sleeps_retries_trace. cbn.
    rewrite app_nil_r, length_fmap, length_seqZ. lia.
Qed.

(** Whatever the network does, a call with [max_retries >= 1] returns a
    result (never [None], never an exception); its [attempts] field is the
    number of requests made, between 1 and [max_retries]; and the time
    slept is at most [2^max_retries - 2] seconds. *)
Lemma for_attempt_bounded url max_retries k a :
  0 <= a -> a + Z.of_nat (S k) = max_retries ->
  exists res tr,
    for_attempt fetch url max_retries (seqZ a (Z.of_nat (S k)))
      = (Some res, tr)
    /\ a + Z.of_nat (length (requests tr)) = attempts res
    /\ a + 1 <= attempts res <= max_retries
    /\ 0 <= total_sleep tr <= 2 ^ max_retries - 2 ^ (a + 1).
Proof.
  revert a. induction k as [|k IH]; intros a Ha Hn.
  - rewrite seqZ_cons by lia. rewrite seqZ_nil by lia. cbn [for_attempt].
    assert (H2 : 2 ^ max_retries = 2 ^ (a + 1)) by (f_equal; lia).
    destruct (fetch url a) as [t w|e|e|e];
      rewrite ?bool_decide_eq_false_2 by lia;
      eexists _, _; (split; [reflexivity|]); cbn; lia.
  - rewrite seqZ_cons by lia. cbn [for_attempt].
    replace (Z.pred (Z.of_nat (S (S k)))) with (Z.of_nat (S k)) by lia.
    replace (Z.succ a) with (a + 1) by lia.
    destruct (IH (a + 1) ltac:(lia) ltac:(lia))
      as (res & tr & Hrun & Hreq & Hatt & Hsl).
    assert (Hpow : 2 ^ (a + 1 + 1) = 2 * 2 ^ (a + 1))
      by (replace (a + 1 + 1) with (Z.succ (a + 1)) by lia;
          apply Z.pow_succ_r; lia).
    assert (Hmono : 2 ^ (a + 1 + 1) <= 2 ^ max_retries)
      by (apply Z.pow_le_mono_r; lia).
    assert (Hpos : 0 < 2 ^ (a + 1)) by (apply Z.pow_pos_nonneg; lia).
    destruct (fetch url a) as [t w|e|e|e];
      rewrite ?bool_decide_eq_true_2 by lia; rewrite ?Hrun.
    + eexists _, _. split; [reflexivity|]. cbn. lia.
    + exists res, (EvRequest a :: EvSleep (2 ^ (a + 1)) :: tr).
      split; [reflexivity|]. unfold total_sleep in *. cbn.
      fold (requests tr). fold (sleeps tr). lia.
    + exists res, (EvRequest a :: EvSleep (2 ^ (a + 1)) :: tr).
      split; [reflexivity|]. unfold total_sleep in *. cbn.
      fold (requests tr). fold (sleeps tr). lia.
    + eexists _, _. split; [reflexivity|]. cbn. lia.
Qed.

Theorem extract_clean_content_bounded url max_retries :
  1 <= max_retries ->
  exists res tr,
    extract_clean_content fetch url max_retries = (Some res, tr)
    /\ attempts res = Z.of_nat (length (requests tr))
    /\ 1 <= attempts res <= max_retries
    /\ 0 <= total_sleep tr <= 2 ^ max_retries - 2.
Proof.
  intros Hpos. unfold extract_clean_content.
  destruct (for_attempt_bounded url max_retries
              (Z.to_nat (max_retries - 1)) 0 ltac:(lia) ltac:(lia))
    as (res & tr & Hrun & Hreq & Hatt & Hsl).
  replace (Z.of_nat (S (Z.to_nat (max_retries - 1)))) with max_retries
    in Hrun by lia.
  change (2 ^ (0 + 1)) with 2 in Hsl.
  exists res, tr. split_and!; try done; lia.
Qed.

Lemma sum_powers_of_two k :
  foldr Z.add 0 ((fun i => 2 ^ i) <$> seqZ (0 + 1) (Z.of_nat k))
  = 2 ^ (1 + Z.of_nat k) - 2.
Proof.
  assert (Hgen : forall l z, foldr Z.add z l = foldr Z.add 0 l + z).
  { induction l as [|x l IHl]; intros z; cbn; [lia|]. rewrite IHl. lia. }
  induction k as [|k IH].
  - by rewrite seqZ_nil by lia.
  - rewrite seqZ_S, fmap_app, foldr_app. cbn [fmap list_fmap foldr].
    rewrite Hgen, IH.
    replace (1 + Z.of_nat (S k)) with (Z.succ (1 + Z.of_nat k)) by lia.
    rewrite Z.pow_succ_r by lia.
    replace (0 + 1 + Z.of_nat k) with (1 + Z.of_nat k) by lia. lia.
Qed.

(** When every attempt fails transiently the bound is met: the call
    sleeps [2^max_retries - 2] seconds in all. *)
Theorem extract_clean_content_worst_case_sleep url max_retries :
  1 <= max_retries ->
  (forall i, 0 <= i < max_retries ->
             is_Some (transient_error (fetch url i))) ->
  total_sleep (snd (extract_clean_content fetch url max_retries))
  = 2 ^ max_retries - 2.
Proof.
  intros Hpos Hall. unfold extract_clean_content.
  set (k := Z.to_nat (max_retries - 1)).
  destruct (for_attempt_all_transient fetch url max_retries k 0
              ltac:(lia) Hall) as (res & e & msg & Hrun & _).
  replace (Z.of_nat (S k)) with max_retries in Hrun by lia.
  rewrite Hrun. cbn [snd]. unfold total_sleep.
  rewrite sleeps_backoff_trace, sum_powers_of_two. f_equal. f_equal. lia.
Qed.

End BackoffFacts.

Lemma extract_clean_content_recovers_witness :
  ContentExtractor.extract_clean_content
    (fun _ i => if bool_decide (i < 2) then ContentExtractor.Timeout "slow"
                else ContentExtractor.Fetched "page text" 2)
    "https://example.com/about" 5
  = (Some (ContentExtractor.FetchResult "https://example.com/about"
             "page text" None true (2 + 1)),
     Backoff.retries_trace 0 (Z.to_nat 2) ++ [ContentExtractor.EvRequest 2])
  /\ ContentExtractor.sleeps
       (Backoff.retries_trace 0 (Z.to_nat 2) ++ [ContentExtractor.EvRequest 2])
     = (fun i => 2 ^ i) <$> seqZ 1 2.
Proof.
  apply (extract_clean_content_recovers
           (fun _ i => if bool_decide (i < 2)
                       then ContentExtractor.Timeout "slow"
                       else ContentExtractor.Fetched "page text" 2)
           "https://example.com/about" 5 2 "page text" 2).
  - lia.
  - intros i Hi. rewrite bool_decide_eq_true_2 by lia. by eexists.
  - reflexivity.
Defined.

Lemma extract_clean_content_no_retry_on_other_error_witness :
  exists tr,
    ContentExtractor.extract_clean_content
      (fun _ i => if bool_decide (i < 1) then ContentExtractor.Timeout "slow"
                  else ContentExtractor.OtherException "bad markup")
      "https://example.com/about" 5
    = (Some (ContentExtractor.FetchResult "https://example.com/about" ""
               (Some "bad markup"%string) false (1 + 1)), tr)
    /\ ContentExtractor.requests tr = seqZ 0 (1 + 1)
    /\ last tr = Some (ContentExtractor.EvRequest 1)
    /\ length (ContentExtractor.sleeps tr) = Z.to_nat 1.
Proof.
  apply (extract_clean_content_no_retry_on_other_error
           (fun _ i => if bool_decide (i < 1)
                       then ContentExtractor.Timeout "slow"
                       else ContentExtractor.OtherException "bad markup")
           "https://example.com/about" 5 1 "bad markup").
  - lia.
  - intros i Hi. rewrite bool_decide_eq_true_2 by lia. by eexists.
  - reflexivity.
Defined.

Lemma extract_clean_content_bounded_witness :
  exists res tr,
    ContentExtractor.extract_clean_content
      (fun _ _ => ContentExtractor.RequestException "refused")
      "https://example.com/" 3 = (Some res, tr)
    /\ ContentExtractor.attempts res
       = Z.of_nat (length (ContentExtractor.requests tr))
    /\ 1 <= ContentExtractor.attempts res <= 3
    /\ 0 <= Backoff.total_sleep tr <= 2 ^ 3 - 2.
Proof.
  apply (extract_clean_content_bounded
           (fun _ _ => ContentExtractor.RequestException "refused")
           "https://example.com/" 3). lia.
Defined.

Lemma extract_clean_content_worst_case_sleep_witness :
  Backoff.total_sleep
    (snd (ContentExtractor.extract_clean_content
            (fun _ _ => ContentExtractor.RequestException "refused")
            "https://example.com/" 5))
  = 2 ^ 5 - 2.
Proof.
  apply (extract_clean_content_worst_case_sleep
           (fun _ _ => ContentExtractor.RequestException "refused")
           "https://example.com/" 5); [lia|].
  intros i _. by eexists.
Defined.

(** ** More on the URL normalizer *)

Section NormalizerMore.
Import PyStr UrlLib SmartCrawler.

Lemma scheme_char_not_hash c : scheme_char c = true -> c <> "#"%char.
Proof. each_ascii c; vm_compute; intros H; done. Qed.

Lemma parse_qs_kept_query q :
  parse_qs (kept_query q) = cleaned_params (parse_qs q).
Proof.
  unfold kept_query. destruct q as [|c q]; [done|].
  apply parse_qs_urlencode, cleaned_params_well_formed, parse_qs_well_formed.
Qed.

Lemma kept_query_chars q : Forall (fun c => query_char c = true) (kept_query q).
Proof.
  unfold kept_query. destruct q; [done|]. apply urlencode_query_chars.
Qed.

(** The URL [clean_url] returns, and how it parses again. *)
Lemma clean_url_parsed u :
  scheme (urlparse u) <> [] -> netloc (urlparse u) <> [] ->
  has_char ";" (path (urlparse u)) = false ->
  exists p',
    (p' = path (urlparse u)
     \/ (p' = rstrip (is_char "/") (path (urlparse u))
         /\ kept_query (query (urlparse u)) = []))
    /\ clean_url u
       = with_query (scheme (urlparse u) ++ py "://" ++ netloc (urlparse u)
                       ++ p')
           (kept_query (query (urlparse u)))
    /\ urlparse (clean_url u)
       = {| scheme := scheme (urlparse u); netloc := netloc (urlparse u);
            path := p'; params := [];
            query := kept_query (query (urlparse u)); fragment := [] |}.
Proof.
  intros Hscheme Hnet Hsemi.
  destruct (urlparse_ok u) as (Hs & Hn & Hns & Hp & Hroot).
  destruct Hs as [Hs|Hs]; [done|]. specialize (Hroot Hnet).
  set (s := scheme (urlparse u)) in *. set (n := netloc (urlparse u)) in *.
  set (p := path (urlparse u)) in *.
  rewrite (clean_url_eq u). cbn zeta. fold s n p.
  set (e := kept_query (query (urlparse u))).
  pose proof (kept_query_chars (query (urlparse u))) as He. fold e in He.
  assert (Hbuild : forall p0 t, p = p0 ++ t ->
            urlparse (with_query (s ++ py "://" ++ n ++ p0) e)
            = {| scheme := s; netloc := n; path := p0; params := [];
                 query := e; fragment := [] |}).
  { intros p0 t Ep. unfold with_query. rewrite <- !app_assoc.
    apply urlparse_build; try done.
    - rewrite Ep in Hp. by eapply Forall_app_l.
    - rewrite Ep in Hroot. by eapply rooted_prefix.
    - rewrite Ep in Hsemi. by eapply has_char_prefix.
    - by apply query_chars_ok. }
  destruct (endswith (with_query (s ++ py "://" ++ n ++ p) e) (py "/")
            && bool_decide (1 < length p)%nat) eqn:Hstrip.
  - apply andb_true_iff in Hstrip as [Hend Hlen].
    assert (Ee : e = []).
    { destruct e as [|c e']; [done|].
      by rewrite endswith_slash_app_query in Hend. }
    rewrite Ee in *. clear Hend.
    destruct (rstrip_spec (is_char "/") p) as [[t Et] _].
    set (p' := rstrip (is_char "/") p) in *.
    assert (Hr : rstrip (is_char "/") (with_query (s ++ py "://" ++ n ++ p) [])
                 = with_query (s ++ py "://" ++ n ++ p') []).
    { unfold with_query. rewrite !app_nil_r.
      destruct (exists_last Hnet) as (n' & x & En).
      assert (Hx : is_char "/" x = false).
      { rewrite En in Hn. apply Forall_app_r in Hn. apply Forall_inv in Hn.
        apply no_delim_facts in Hn. apply is_char_false. tauto. }
      replace (s ++ py "://" ++ n ++ p) with ((s ++ py "://" ++ n) ++ p)
        by (by rewrite <- !app_assoc).
      destruct (decide (p' = [])) as [Hp'|Hp'].
      - rewrite rstrip_app_all by done. rewrite Hp', app_nil_r.
        rewrite En.
        replace (s ++ py "://" ++ n' ++ [x])
          with ((s ++ py "://" ++ n') ++ [x]) by (by rewrite <- !app_assoc).
        by rewrite rstrip_snoc_keep.
      - rewrite rstrip_app_keep by done. by rewrite <- !app_assoc. }
    exists p'. split; [by right|]. rewrite Hr. split; [done|].
    by apply (Hbuild p' t).
  - exists p. split; [by left|]. split; [done|].
    apply (Hbuild p []). by rewrite app_nil_r.
Qed.

(** Normalizing a URL with a scheme and a host (and no [;] in its path)
    keeps the scheme and the host, drops the fragment, keeps the path up
    to trailing slashes, and the result parses into exactly these parts. *)
Theorem clean_url_keeps_site u :
  scheme (urlparse u) <> [] -> netloc (urlparse u) <> [] ->
  has_char ";" (path (urlparse u)) = false ->
  let r := urlparse (clean_url u) in
  scheme r = scheme (urlparse u)
  /\ netloc r = netloc (urlparse u)
  /\ (path r = path (urlparse u)
      \/ path r = rstrip (is_char "/") (path (urlparse u)))
  /\ params r = [] /\ fragment r = [].
Proof.
  intros Hs Hn Hsemi.
  destruct (clean_url_parsed u Hs Hn Hsemi) as (p' & Hp' & _ & Hr).
  cbn zeta. rewrite Hr. cbn. split_and!; try done.
  destruct Hp' as [->|[-> _]]; [by left|by right].
Qed.

(** The query parameters of the normalized URL are exactly the
    parameters of the original whose name is not a tracking parameter,
    with their values and in their order; no tracking parameter is left. *)
Theorem clean_url_filters_parameters u :
  scheme (urlparse u) <> [] -> netloc (urlparse u) <> [] ->
  has_char ";" (path (urlparse u)) = false ->
  parse_qs (query (urlparse (clean_url u)))
  = filter (fun kv => kv.1 ∉ tracking_params) (parse_qs (query (urlparse u)))
  /\ forall k, k ∈ tracking_params ->
       k ∉ (parse_qs (query (urlparse (clean_url u)))).*1.
Proof.
  intros Hs Hn Hsemi.
  destruct (clean_url_parsed u Hs Hn Hsemi) as (p' & _ & _ & Hr).
  rewrite Hr. cbn [query]. rewrite parse_qs_kept_query.
  split; [done|]. intros k Hk [kv [-> Hin]]%list_elem_of_fmap.
  by apply list_elem_of_filter in Hin as [Hnot _].
Qed.

(** No normalized URL holds a [#], whatever the input was. *)
Theorem clean_url_has_no_fragment u : "#"%char ∉ clean_url u.
Proof.
  rewrite clean_url_eq. cbn zeta.
  destruct (urlparse_ok u) as (Hs & Hn & _ & Hp & _).
  set (s := scheme (urlparse u)) in *. set (n := netloc (urlparse u)) in *.
  set (p := path (urlparse u)) in *.
  set (e := kept_query (query (urlparse u))).
  pose proof (kept_query_chars (query (urlparse u))) as He. fold e in He.
  assert (Hall : Forall (fun c => c <> "#"%char)
                   (with_query (s ++ py "://" ++ n ++ p) e)).
  { unfold with_query. rewrite !Forall_app. split_and!.
    - destruct Hs as [->|[_ Hs]]; [done|].
      eapply Forall_impl; [exact Hs|]. cbn. intros c [Hc _].
      by apply scheme_char_not_hash.
    - by repeat constructor.
    - eapply Forall_impl; [exact Hn|]. intros c Hc.
      apply no_delim_facts in Hc. tauto.
    - eapply Forall_impl; [exact Hp|]. by intros c (_ & ? & _).
    - destruct e as [|c e]; [done|]. constructor; [done|].
      eapply Forall_impl; [exact He|]. cbn. intros x Hx.
      by destruct (query_char_plain x Hx). }
  assert (Hgoal : forall w : str, Forall (fun c => c <> "#"%char) w ->
                                  "#"%char ∉ w).
  { intros w Hw Hin. rewrite Forall_forall in Hw. by apply (Hw _ Hin). }
  destruct (_ && _); apply Hgoal; [|done].
  destruct (rstrip_spec (is_char "/")
              (with_query (s ++ py "://" ++ n ++ p) e)) as [[t Et] _].
  rewrite Et in Hall. by eapply Forall_app_l.
Qed.

(** A normalized URL ends in a slash only when the path of the original
    is the root or empty. *)
Theorem clean_url_trailing_slash u :
  endswith (clean_url u) (py "/") = true ->
  (length (path (urlparse u)) <= 1)%nat.
Proof.
  rewrite clean_url_eq. cbn zeta.
  set (w := with_query _ _).
  destruct (endswith w (py "/")) eqn:Hend; cbn [andb].
  - case_bool_decide as Hlen; [|lia].
    destruct (rstrip_spec (is_char "/") w) as [_ Hlast].
    change (py "/") with ["/"%char]. rewrite endswith_char_false; [done|].
    destruct Hlast as [->|(a & c & -> & Hc)]; [by left|right].
    exists a, c. split; [done|]. by apply is_char_false.
  - by rewrite Hend.
Qed.

End NormalizerMore.

Lemma clean_url_keeps_site_witness :
  let u := PyStr.py "HTTPS://Example.com/team/?utm_source=ad&id=7#top" in
  let r := UrlLib.urlparse (SmartCrawler.clean_url u) in
  UrlLib.scheme r = UrlLib.scheme (UrlLib.urlparse u)
  /\ UrlLib.netloc r = UrlLib.netloc (UrlLib.urlparse u)
  /\ (UrlLib.path r = UrlLib.path (UrlLib.urlparse u)
      \/ UrlLib.path r
         = PyStr.rstrip (PyStr.is_char "/")
             (UrlLib.path (UrlLib.urlparse u)))
  /\ UrlLib.params r = [] /\ UrlLib.fragment r = [].
Proof.
  apply (clean_url_keeps_site
           (PyStr.py "HTTPS://Example.com/team/?utm_source=ad&id=7#top"));
    by vm_compute.
Defined.

Lemma clean_url_filters_parameters_witness :
  let u := PyStr.py "https://example.com/team?utm_source=ad&id=7&gclid=x" in
  UrlLib.parse_qs (UrlLib.query (UrlLib.urlparse (SmartCrawler.clean_url u)))
  = filter (fun kv => kv.1 ∉ SmartCrawler.tracking_params)
      (UrlLib.parse_qs (UrlLib.query (UrlLib.urlparse u)))
  /\ forall k, k ∈ SmartCrawler.tracking_params ->
       k ∉ (UrlLib.parse_qs
              (UrlLib.query (UrlLib.urlparse (SmartCrawler.clean_url u)))).*1.
Proof.
  apply (clean_url_filters_parameters
           (PyStr.py "https://example.com/team?utm_source=ad&id=7&gclid=x"));
    by vm_compute.
Defined.

Lemma clean_url_trailing_slash_witness :
  (length (UrlLib.path (UrlLib.urlparse (PyStr.py "https://example.com/")))
   <= 1)%nat.
Proof.
  apply (clean_url_trailing_slash (PyStr.py "https://example.com/")).
  by vm_compute.
Defined.

(** ** More on the skip filter and the scores *)

Section FilterMore.
Import PyStr UrlLib SmartCrawler.

Lemma startswith_app (s p t : str) :
  startswith s p = true -> startswith (s ++ t) p = true.
Proof.
  revert s. induction p as [|a p IH]; intros s.
  - intros _. by destruct (s ++ t).
  - destruct s as [|b s]; cbn; [done|].
    intros [? ?]%andb_true_iff. apply andb_true_iff.
    split; [done|by apply IH].
Qed.

Lemma contains_app_r (sub s t : str) :
  contains sub s = true -> contains sub (s ++ t) = true.
Proof.
  induction s as [|c s IH]; cbn.
  - rewrite orb_false_r. destruct sub; [|done]. by destruct t.
  - rewrite !orb_true_iff. intros [H|H]; [left|right; by apply IH].
    by apply (startswith_app (c :: s)).
Qed.

Lemma contains_app_l (sub s a : str) :
  contains sub s = true -> contains sub (a ++ s) = true.
Proof.
  intros H. induction a as [|c a IH]; [done|].
  cbn. rewrite IH. apply orb_true_r.
Qed.

(** The filter looks for its patterns anywhere in the URL and in any
    letter case: when a URL is skipped, so is every URL that contains it,
    whatever the case of its letters. *)
Theorem should_skip_url_substring (u v a b : str) :
  should_skip_url u = true -> lower v = a ++ lower u ++ b ->
  should_skip_url v = true.
Proof.
  unfold should_skip_url. rewrite !existsb_exists.
  intros (pat & Hin & Hc) Hv. exists pat. split; [done|].
  rewrite Hv. by apply contains_app_l, contains_app_r.
Qed.

Lemma calculate_priority_bounds url context depth :
  0 <= calculate_priority url context depth <= 100.
Proof.
  unfold calculate_priority.
  destruct (bool_decide (path (urlparse url) ∈ [py "/"; py ""])); lia.
Qed.

(** The score never grows with the crawl depth. *)
Theorem calculate_priority_antitone_in_depth url context d1 d2 :
  d1 <= d2 ->
  calculate_priority url context d2 <= calculate_priority url context d1.
Proof.
  intros Hd. unfold calculate_priority.
  destruct (bool_decide (path (urlparse url) ∈ [py "/"; py ""])); [done|].
  destruct (bool_decide (context = "nav"%string)),
    (bool_decide (context = "footer"%string)),
    (bool_decide (context = "homepage"%string)),
    (has_char "?" url),
    (length _) as [|[|[|[|[|?]]]]]; lia.
Qed.

(** The score lies between 0 and 100, and the contexts rank
    nav, homepage, footer, anything else: a link scores at least as high
    in an earlier one as in a later one, and every context other than
    these three scores what [body] and [sitemap] score. *)
Theorem calculate_priority_context_order url context depth :
  0 <= calculate_priority url context depth <= 100
  /\ calculate_priority url "body" depth
     <= calculate_priority url context depth
  /\ calculate_priority url context depth
     <= calculate_priority url "nav" depth
  /\ calculate_priority url "footer" depth
     <= calculate_priority url "homepage" depth
  /\ calculate_priority url "homepage" depth
     <= calculate_priority url "nav" depth
  /\ calculate_priority url "sitemap" depth
     = calculate_priority url "body" depth
  /\ (context <> "nav"%string -> context <> "homepage"%string ->
      context <> "footer"%string ->
      calculate_priority url context depth
      = calculate_priority url "body" depth
      /\ calculate_priority url context depth
         <= calculate_priority url "footer" depth).
Proof.
  unfold calculate_priority.
  destruct (bool_decide (path (urlparse url) ∈ [py "/"; py ""])); [lia|].
  repeat match goal with
  | |- context [bool_decide (?a = ?b)] =>
      first [ rewrite (bool_decide_eq_true_2 (a = b)) by done
            | rewrite (bool_decide_eq_false_2 (a = b)) by done ]
  end.
  destruct (bool_decide_reflect (context = "nav"%string)),
    (bool_decide_reflect (context = "footer"%string)),
    (bool_decide_reflect (context = "homepage"%string)),
    (has_char "?" url),
    (length _) as [|[|[|[|[|?]]]]]; split_and!; try lia;
    intros; try done; lia.
Qed.

End FilterMore.

Lemma should_skip_url_substring_witness :
  SmartCrawler.should_skip_url
    (PyStr.py "https://example.com/Docs/Guide.PDF?page=2") = true.
Proof.
  apply (should_skip_url_substring (PyStr.py ".pdf")
           (PyStr.py "https://example.com/Docs/Guide.PDF?page=2")
           (PyStr.py "https://example.com/docs/guide")
           (PyStr.py "?page=2")); by vm_compute.
Defined.

Lemma calculate_priority_antitone_in_depth_witness :
  SmartCrawler.calculate_priority (PyStr.py "https://example.com/a/b") "nav" 3
  <= SmartCrawler.calculate_priority (PyStr.py "https://example.com/a/b")
       "nav" 1.
Proof.
  apply (calculate_priority_antitone_in_depth
           (PyStr.py "https://example.com/a/b") "nav" 1 3). lia.
Defined.

(** ** More on the walk *)

Section WalkMore.
Import PyStr UrlLib SmartCrawler WalkRecords.
Variable base_url : str.
Variable max_urls : Z.
Variable max_depth : Z.
Variable get_sitemap : str -> option sitemap_doc.
Variable get_sub_sitemap : str -> option (list str).
Variable extract_all_links : str -> list (str * string).

Local Abbreviation parse_sitemap :=
  (parse_sitemap base_url get_sitemap get_sub_sitemap).
Local Abbreviation seeded :=
  (seeded base_url get_sitemap get_sub_sitemap).
Local Abbreviation scan_links := (scan_links max_urls max_depth).
Local Abbreviation bfs_step := (bfs_step max_urls max_depth extract_all_links).
Local Abbreviation bfs := (bfs max_urls max_depth extract_all_links).
Local Abbreviation enough := (enough max_urls).
Local Abbreviation start := (start base_url).
Local Abbreviation recorded := (recorded max_depth).
Local Abbreviation discover_important_pages :=
  (discover_important_pages base_url max_urls max_depth get_sitemap
     get_sub_sitemap extract_all_links).

(** Recording a new URL. *)
Lemma recorded_insert w u p d q :
  recorded w -> u ∉ dom (discovered_urls w) ->
  0 <= p <= 100 -> 0 <= d <= Z.max 1 (max_depth + 1) ->
  (q = to_crawl w \/ q = to_crawl w ++ [(u, d)]) ->
  let w' := Walk (<[u := p]> (discovered_urls w)) (<[u := d]> (url_depths w))
                 q (crawled w) (extracted w) in
  recorded w' /\ discovered_urls w ⊆ discovered_urls w'
  /\ url_depths w ⊆ url_depths w'.
Proof.
  intros (R1 & R2 & R3 & R4 & R5) Hnew Hp Hd Hq w'. subst w'.
  assert (Hnew' : u ∉ dom (url_depths w)) by (by rewrite <- R1).
  split_and!; [unfold WalkRecords.recorded; cbn; split_and!|..].
  - by rewrite !dom_insert_L, R1.
  - intros v p'. rewrite lookup_insert_Some.
    intros [[<- <-]|[_ H]]; [done|by eapply R2].
  - intros v d'. rewrite lookup_insert_Some.
    intros [[<- <-]|[_ H]]; [done|by eapply R3].
  - assert (Hold : Forall (fun e => <[u:=d]> (url_depths w) !! e.1 = Some e.2)
                     (to_crawl w)).
    { eapply Forall_impl; [exact R4|]. cbn. intros e He.
      rewrite lookup_insert_ne; [done|]. intros Eu.
      apply Hnew', elem_of_dom. rewrite Eu. by eexists. }
    destruct Hq as [Eq|Eq]; rewrite Eq; [done|].
    apply Forall_app. split; [done|].
    apply Forall_singleton. cbn. by rewrite lookup_insert_eq.
  - intros v Hv. rewrite dom_insert_L. apply elem_of_union_r. by apply R5.
  - cbn. apply insert_subseteq. by apply not_elem_of_dom.
  - cbn. apply insert_subseteq. by apply not_elem_of_dom.
Qed.

Lemma recorded_seed_sitemap w u :
  recorded w ->
  recorded (seed_sitemap w u)
  /\ discovered_urls w ⊆ discovered_urls (seed_sitemap w u)
  /\ url_depths w ⊆ url_depths (seed_sitemap w u).
Proof.
  intros Hrec. unfold seed_sitemap. case_bool_decide as Hknown; [done|].
  apply recorded_insert; try done; [apply calculate_priority_bounds|lia|].
  by left.
Qed.

Lemma recorded_fold_seed_sitemap us w :
  recorded w ->
  recorded (fold_left seed_sitemap us w)
  /\ discovered_urls w ⊆ discovered_urls (fold_left seed_sitemap us w)
  /\ url_depths w ⊆ url_depths (fold_left seed_sitemap us w).
Proof.
  revert w. induction us as [|u us IH]; intros w Hrec; [done|]. cbn.
  destruct (recorded_seed_sitemap w u Hrec) as (H1 & H2 & H3).
  destruct (IH _ H1) as (H4 & H5 & H6).
  split_and!; [done|by etrans|by etrans].
Qed.

Lemma recorded_seeded :
  recorded seeded
  /\ discovered_urls seeded !! base_url = Some 100
  /\ url_depths seeded !! base_url = Some 0.
Proof.
  destruct (recorded_fold_seed_sitemap parse_sitemap start) as (H1 & H2 & H3).
  - unfold WalkRecords.recorded. cbn. split_and!.
    + by rewrite !dom_singleton_L.
    + intros u p [_ <-]%lookup_singleton_Some. lia.
    + intros u d [_ <-]%lookup_singleton_Some. lia.
    + apply Forall_singleton. cbn. by rewrite lookup_singleton_eq.
    + by intros u ?%elem_of_nil.
  - split_and!; [done|..].
    + eapply lookup_weaken; [|exact H2]. cbn. by rewrite lookup_singleton_eq.
    + eapply lookup_weaken; [|exact H3]. cbn. by rewrite lookup_singleton_eq.
Qed.

Lemma recorded_scan_links d links w :
  0 <= d <= max_depth -> recorded w ->
  let w' := scan_links d links w in
  recorded w' /\ discovered_urls w ⊆ discovered_urls w'
  /\ url_depths w ⊆ url_depths w'.
Proof.
  intros Hd. revert w. induction links as [|[u c] links IH]; intros w Hrec;
    cbn; [done|].
  case_bool_decide as Hfull; [done|].
  case_bool_decide as Hknown; [by apply IH|].
  match goal with |- context [scan_links d links ?w1] =>
    assert (Hins : recorded w1 /\ discovered_urls w ⊆ discovered_urls w1
                   /\ url_depths w ⊆ url_depths w1) end.
  { apply recorded_insert; try done;
      [apply calculate_priority_bounds|lia|].
    case_bool_decide; [by right|by left]. }
  destruct Hins as (H1 & H2 & H3). destruct (IH _ H1) as (H4 & H5 & H6).
  split_and!; [done|by etrans|by etrans].
Qed.

Lemma recorded_bfs_step w w' :
  recorded w -> bfs_step w = Some w' ->
  recorded w' /\ discovered_urls w ⊆ discovered_urls w'
  /\ url_depths w ⊆ url_depths w'
  /\ (length (extracted w') + enough w' <= length (extracted w) + enough w)%nat.
Proof.
  intros Hrec Hstep.
  destruct (bfs_step_spec max_urls max_depth get_sitemap get_sub_sitemap
              extract_all_links w w' Hstep)
    as (u & d & rest & app & Eq & _ & _ & _ & _ & Hlt & Hcase).
  assert (Hlen : (length (extracted w') + enough w'
                  <= length (extracted w) + enough w)%nat).
  { destruct Hcase as [(_ & _ & _ & ->)|(_ & _ & _ & ->)];
      rewrite ?length_app; cbn; lia. }
  revert Hstep. unfold SmartCrawler.bfs_step. rewrite Eq.
  case_bool_decide as Hroom; [|done].
  destruct Hrec as (R1 & R2 & R3 & R4 & R5).
  rewrite Eq in R4. apply Forall_cons in R4 as [Hu Hrest]. cbn in Hu.
  destruct (bool_decide (u ∈ crawled w) || bool_decide (d > max_depth))
    eqn:Hskip; intros [= <-].
  - split_and!; done.
  - apply orb_false_iff in Hskip as [_ Hdeep%bool_decide_eq_false].
    match goal with |- context [scan_links d ?links ?w1] =>
      destruct (recorded_scan_links d links w1) as (H1 & H2 & H3) end.
    + pose proof (R3 _ _ Hu). lia.
    + unfold WalkRecords.recorded. cbn. split_and!; try done.
      intros v [Hv| ->%list_elem_of_singleton]%elem_of_app; [by apply R5|].
      rewrite R1. apply elem_of_dom. by eexists.
    + split_and!; done.
Qed.

Lemma recorded_bfs n w :
  recorded w ->
  recorded (bfs n w) /\ discovered_urls w ⊆ discovered_urls (bfs n w)
  /\ url_depths w ⊆ url_depths (bfs n w)
  /\ (length (extracted (bfs n w)) + enough (bfs n w)
      <= length (extracted w) + enough w)%nat.
Proof.
  revert w. induction n as [|n IH]; intros w Hrec; [done|]. cbn.
  destruct (bfs_step w) as [w'|] eqn:Hstep; [|done].
  destruct (recorded_bfs_step w w' Hrec Hstep) as (H1 & H2 & H3 & H4).
  destruct (IH w' H1) as (H5 & H6 & H7 & H8).
  split_and!; [done|by etrans|by etrans|lia].
Qed.

(** A URL keeps the score and the depth it was first recorded with: the
    home page stays at score 100 and depth 0 whatever the sitemap and the
    pages say, and no later iteration of the walk changes an entry, even
    when the URL is found again higher up or in a better context. *)
Theorem first_record_wins n :
  let w := bfs n seeded in
  discovered_urls w !! base_url = Some 100
  /\ url_depths w !! base_url = Some 0
  /\ forall m u,
       (forall p, discovered_urls w !! u = Some p ->
                  discovered_urls (bfs m w) !! u = Some p)
       /\ (forall d, url_depths w !! u = Some d ->
                     url_depths (bfs m w) !! u = Some d).
Proof.
  intros w. destruct recorded_seeded as (Hrec & Hp & Hd).
  destruct (recorded_bfs n seeded Hrec) as (Hrec' & Hs1 & Hs2 & _).
  fold w in Hrec', Hs1, Hs2. split_and!.
  - by eapply lookup_weaken.
  - by eapply lookup_weaken.
  - intros m u. destruct (recorded_bfs m w Hrec') as (_ & Hm1 & Hm2 & _).
    split; intros x Hx; by eapply lookup_weaken.
Qed.

(** In every state of the walk the two dicts have the same keys; every
    score lies between 0 and 100; every depth lies between 0 and
    [max_depth + 1] (or 1, the depth given to sitemap locations); every
    queue entry carries the depth recorded for its URL; and every page
    whose links were extracted is a recorded URL. *)
Theorem walk_records_consistent n :
  let w := bfs n seeded in
  dom (discovered_urls w) = dom (url_depths w)
  /\ (forall u p, discovered_urls w !! u = Some p -> 0 <= p <= 100)
  /\ (forall u d, url_depths w !! u = Some d ->
                  0 <= d <= Z.max 1 (max_depth + 1))
  /\ (forall u d, (u, d) ∈ to_crawl w -> url_depths w !! u = Some d)
  /\ (forall u, u ∈ extracted w -> u ∈ dom (discovered_urls w)).
Proof.
  intros w. destruct recorded_seeded as (Hrec & _).
  destruct (recorded_bfs n seeded Hrec) as ((R1 & R2 & R3 & R4 & R5) & _).
  fold w in R1, R2, R3, R4, R5. split_and!; try done.
  intros u d Hin. rewrite Forall_forall in R4. apply (R4 _ Hin).
Qed.

(** The walk ends: after [1 + max (0, max_urls - n0)] iterations, where
    [n0] URLs are recorded when it starts, the loop condition fails, more
    iterations change nothing, and no more pages than that were fetched
    for their links. *)
Theorem discover_important_pages_terminates n :
  (enough seeded <= n)%nat ->
  bfs n seeded = discover_important_pages
  /\ (to_crawl discover_important_pages = []
      \/ max_urls <= len (discovered_urls discover_important_pages))
  /\ enough seeded
     = S (Z.to_nat (max_urls - len (discovered_urls seeded)))
  /\ (length (extracted discover_important_pages) <= enough seeded)%nat.
Proof.
  intros Hn.
  assert (Hstable : forall k w, bfs_step w = None -> bfs k w = w).
  { intros k w Hw. destruct k; [done|]. cbn. by rewrite Hw. }
  assert (Hadd : forall a b w, bfs (a + b) w = bfs b (bfs a w)).
  { induction a as [|a IH]; intros b w; [done|]. cbn.
    destruct (bfs_step w) as [w'|] eqn:Hw; [apply IH|].
    symmetry. by apply Hstable. }
  pose proof (discover_important_pages_ends base_url max_urls max_depth
                get_sitemap get_sub_sitemap extract_all_links) as Hend.
  split_and!.
  - replace n with (enough seeded + (n - enough seeded))%nat by lia.
    rewrite Hadd. by apply Hstable.
  - revert Hend. unfold SmartCrawler.bfs_step.
    destruct (to_crawl discover_important_pages) as [|[u d] rest];
      [by left|].
    case_bool_decide; [by destruct (_ || _)|]. intros _. right. lia.
  - unfold SmartCrawler.enough, SmartCrawler.room.
    by destruct (seeded_frame base_url get_sitemap get_sub_sitemap) as (-> & _).
  - destruct recorded_seeded as (Hrec & _).
    destruct (recorded_bfs (enough seeded) seeded Hrec) as (_ & _ & _ & H).
    destruct (seeded_frame base_url get_sitemap get_sub_sitemap)
      as (_ & _ & He). rewrite He in H. cbn [length] in H.
    unfold SmartCrawler.discover_important_pages. lia.
Qed.

End WalkMore.

Lemma discover_important_pages_terminates_witness :
  SmartCrawler.bfs 10 3 SampleSite.extract_all_links 20 SampleSite.seeded
  = SampleSite.discover_important_pages 10 3.
Proof.
  apply (discover_important_pages_terminates SampleSite.base_url 10 3
           SampleSite.get_sitemap SampleSite.get_sub_sitemap
           SampleSite.extract_all_links 20).
  vm_compute. lia.
Defined.

(** ** More on the producer and the consumer *)

Section PipelineMore.
Import ValueExtraction WorkflowEngine PipelineSpec.
Variable job_id : option string.
Variable useful_urls : list string.
Variable extract_clean_content : string -> option ContentExtractor.fetch_result.
Variable save_as_markdown : Z -> string -> string.
Variable basename : string -> string.
Variable read_file_content : string -> option string.
Variable json_dumps : json -> string.
Variable make_prompt : string -> string -> string.
Variable create : string -> completion.
Variable json_loads : string -> option json.

Local Abbreviation extract_value_from_file :=
  (extract_value_from_file basename read_file_content json_dumps
     make_prompt create json_loads).
Local Abbreviation fold_artifacts :=
  (fold_artifacts basename read_file_content json_dumps
     make_prompt create json_loads).
Local Abbreviation producer_step :=
  (producer_step job_id extract_clean_content save_as_markdown).
Local Abbreviation consumer_step :=
  (consumer_step job_id basename read_file_content json_dumps
     make_prompt create json_loads).
Local Abbreviation step :=
  (step job_id extract_clean_content save_as_markdown basename
     read_file_content json_dumps make_prompt create json_loads).
Local Abbreviation run :=
  (run job_id extract_clean_content save_as_markdown basename
     read_file_content json_dumps make_prompt create json_loads).
Local Abbreviation invariant :=
  (invariant job_id basename read_file_content json_dumps
     make_prompt create json_loads).
Local Abbreviation initial := (initial useful_urls).
Local Abbreviation cancelled := (cancelled job_id).
Local Abbreviation artifacts :=
  (artifacts extract_clean_content save_as_markdown).
Local Abbreviation failures := (failures extract_clean_content).
Local Abbreviation producer_ok :=
  (producer_ok job_id useful_urls extract_clean_content save_as_markdown).

Lemma artifacts_app idx done rest :
  Forall (fun url => is_Some (extract_clean_content url)) done ->
  artifacts idx (done ++ rest)
  = artifacts idx done ++ artifacts (idx + Z.of_nat (length done)) rest.
Proof.
  intros Hdone. revert idx.
  induction Hdone as [|url done [data Hd] _ IH]; intros idx; cbn.
  - by rewrite Z.add_0_r.
  - rewrite Hd, IH.
    replace (idx + 1 + Z.of_nat (length done))
      with (idx + Z.of_nat (S (length done))) by lia.
    by destruct (ContentExtractor.extraction_successful data).
Qed.

Lemma failures_app done rest :
  Forall (fun url => is_Some (extract_clean_content url)) done ->
  failures (done ++ rest) = failures done ++ failures rest.
Proof.
  induction 1 as [|url done [data Hd] _ IH]; cbn; [done|].
  rewrite Hd, IH. by destruct (ContentExtractor.extraction_successful data).
Qed.

Lemma artifacts_failures_length idx done :
  Forall (fun url => is_Some (extract_clean_content url)) done ->
  (length (artifacts idx done) + length (failures done) = length done)%nat.
Proof.
  intros Hdone. revert idx.
  induction Hdone as [|url done [data Hd] _ IH]; intros idx; cbn; [done|].
  rewrite Hd. specialize (IH (idx + 1)).
  destruct (ContentExtractor.extraction_successful data); cbn; lia.
Qed.

Lemma producer_ok_initial jc : producer_ok (initial jc).
Proof. exists [], useful_urls. by split_and!. Qed.

Lemma producer_ok_producer_step s s' :
  producer_ok s -> producer_step s = Some s' -> producer_ok s'.
Proof.
  intros (done & todo & Eu & Hdone & Hp & Hf & Hn & Hpc).
  unfold WorkflowEngine.producer_step.
  destruct (producer s) as [idx todo'| |]; [|done..].
  destruct Hpc as [-> ->]. destruct todo as [|url todo].
  { intros [= <-]. exists done, []. cbn.
    rewrite paths_snoc_None. split_and!; try done. by left. }
  destruct (WorkflowEngine.cancelled job_id (job_cancellation s)) eqn:Hcan.
  { intros [= <-]. exists done, (url :: todo). cbn.
    rewrite paths_snoc_None. split_and!; try done. right.
    unfold WorkflowEngine.cancelled in Hcan. by destruct job_id. }
  destruct (extract_clean_content url) as [data|] eqn:Hd.
  2:{ intros [= <-]. exists done, (url :: todo). cbn.
      split_and!; try done. by eexists _, _. }
  assert (Hdone' : Forall (fun url => is_Some (extract_clean_content url))
                     (done ++ [url])).
  { apply Forall_app. split; [done|]. apply Forall_singleton. by eexists. }
  destruct (ContentExtractor.extraction_successful data) eqn:Hok;
    intros [= <-]; exists (done ++ [url]), todo; cbn;
    rewrite ?paths_snoc_Some, artifacts_app, failures_app by done;
    cbn; rewrite Hd, Hok, ?app_nil_r; cbn;
    rewrite <- ?app_assoc, ?length_app; cbn.
  - split_and!; try done; [by rewrite Hp|lia|lia].
  - split_and!; try done; [by rewrite Hf|lia].
Qed.

Lemma producer_ok_step a s s' :
  producer_ok s -> step a s = Some s' -> producer_ok s'.
Proof.
  destruct a as [| |j]; cbn; intros Hok Hstep.
  - by eapply producer_ok_producer_step.
  - revert Hstep. unfold WorkflowEngine.consumer_step.
    repeat case_match; intros; simplify_eq; exact Hok.
  - by simplify_eq.
Qed.

Lemma producer_ok_run schedule s :
  producer_ok s -> producer_ok (run schedule s).
Proof.
  revert s. induction schedule as [|a schedule IH]; intros s Hok; [done|].
  rewrite run_cons. apply IH. destruct (step a s) as [s'|] eqn:Hstep; [|done].
  by eapply producer_ok_step.
Qed.

(** In every state the pipeline reaches, the producer has gone through
    an initial segment [done] of the useful URLs, for each of which the
    extractor returned a result: the queue was given one artifact for
    every page of [done] that was extracted, numbered by the position of
    its URL, [failed_urls] holds the others with their error, and
    [successful] counts the artifacts.  With no job id the producer
    returns only when no URL is left, and it dies only at a URL for which
    the extractor returns [None]. *)
Theorem producer_bookkeeping schedule jc :
  let s := run schedule (initial jc) in
  exists done todo,
    useful_urls = done ++ todo
    /\ Forall (fun url => is_Some (extract_clean_content url)) done
    /\ paths (enqueued s) = artifacts 1 done
    /\ failed_urls s = failures done
    /\ successful s = Z.of_nat (length (paths (enqueued s)))
    /\ successful s + Z.of_nat (length (failed_urls s))
       = Z.of_nat (length done)
    /\ (producer s = PReturned -> job_id = None -> todo = [])
    /\ (producer s = PCrashed ->
        exists url, head todo = Some url /\ extract_clean_content url = None).
Proof.
  intros s.
  destruct (producer_ok_run schedule (initial jc) (producer_ok_initial jc))
    as (done & todo & Eu & Hdone & Hp & Hf & Hn & Hpc).
  fold s in Hp, Hf, Hn, Hpc.
  exists done, todo. split_and!; try done.
  - by rewrite Hp.
  - rewrite Hn, Hf.
    pose proof (artifacts_failures_length 1 done Hdone). lia.
  - intros Hr Hj. rewrite Hr in Hpc. destruct Hpc as [?|[j Hsome]]; [done|].
    congruence.
  - intros Hc. rewrite Hc in Hpc. destruct Hpc as (url & rest & -> & Hnone).
    by exists url.
Qed.


Lemma run_app a b s : run (a ++ b) s = run b (run a s).
Proof. apply fold_left_app. Qed.

(** The consumer touches neither the producer's variables nor the flags. *)
Lemma consumer_step_frame s s' :
  consumer_step s = Some s' ->
  producer s' = producer s /\ enqueued s' = enqueued s
  /\ job_cancellation s' = job_cancellation s
  /\ successful s' = successful s /\ failed_urls s' = failed_urls s.
Proof.
  unfold WorkflowEngine.consumer_step. intros H.
  repeat case_match; simplify_eq; by cbn.
Qed.

(** A producer that has died stays dead. *)
Lemma crashed_is_final later s :
  producer s = PCrashed -> producer (run later s) = PCrashed.
Proof.
  revert s. induction later as [|a later IH]; intros s Hc; [done|].
  rewrite run_cons. apply IH. destruct a as [| |j]; cbn [WorkflowEngine.step].
  - unfold WorkflowEngine.producer_step. by rewrite Hc.
  - destruct (consumer_step s) as [s'|] eqn:Hs; [|done]. cbn.
    destruct (consumer_step_frame _ _ Hs) as (-> & _). done.
  - done.
Qed.

(** The producer dies when the extractor returns [None] for a page.  It
    has not queued the sentinel then and never will: in every later
    state it is dead, the queue was never given a sentinel, and the
    consumer can have returned only by observing a cancellation; with no
    job id it has not returned. *)
Theorem producer_crash_starves_consumer schedule jc :
  let s := run schedule (initial jc) in
  producer s = PCrashed ->
  forall later,
    let s' := run later s in
    producer s' = PCrashed
    /\ (None ∉ enqueued s')
    /\ (consumer s' = CReturned -> cancelled (job_cancellation s') = true)
    /\ (job_id = None -> consumer s' <> CReturned).
Proof.
  intros s Hcrash later s'.
  assert (Hc : producer s' = PCrashed) by (by apply crashed_is_final).
  assert (Hinv : invariant s').
  { subst s' s. rewrite <- run_app.
    apply (reachable_invariant job_id useful_urls extract_clean_content
             save_as_markdown basename read_file_content json_dumps
             make_prompt create json_loads). }
  destruct Hinv as (Hq & Hp & Hcons). rewrite Hc, app_nil_r in Hp.
  assert (Hnone : None ∉ enqueued s').
  { rewrite Hp. by intros (p & ? & _)%list_elem_of_fmap. }
  assert (Hret : consumer s' = CReturned ->
                 cancelled (job_cancellation s') = true).
  { intros Hr. rewrite Hr in Hcons.
    destruct Hcons as (_ & [(Ht & _)|(_ & Hcan & _)]); [|done].
    exfalso. apply Hnone. rewrite Hq, Ht. set_solver. }
  split_and!; try done.
  intros Hj Hr. specialize (Hret Hr).
  unfold WorkflowEngine.cancelled in Hret. by rewrite Hj in Hret.
Qed.


Lemma fold_artifacts_app_raised ps qs d l e l' :
  fold_artifacts ps d l = (Raised e, l') ->
  fold_artifacts (ps ++ qs) d l = (Raised e, l').
Proof.
  revert d l. induction ps as [|p ps IH]; intros d l; cbn; [done|].
  destruct (extract_value_from_file p d l) as [[d1|e1] l1]; [apply IH|done].
Qed.

(** The producer alone, to its end. *)
Lemma produce_all todo idx s :
  producer s = PLoop idx todo ->
  cancelled (job_cancellation s) = false ->
  Forall (fun url => is_Some (extract_clean_content url)) todo ->
  let s' := run (replicate (S (length todo)) Producer) s in
  producer s' = PReturned
  /\ file_queue s' = file_queue s ++ (Some <$> artifacts idx todo) ++ [None]
  /\ enqueued s' = enqueued s ++ (Some <$> artifacts idx todo) ++ [None]
  /\ consumer s' = consumer s
  /\ job_cancellation s' = job_cancellation s.
Proof.
  revert idx s. induction todo as [|url todo IH]; intros idx s Hpc Hcan Hall.
  - cbn. unfold WorkflowEngine.producer_step. rewrite Hpc. by cbn.
  - apply Forall_cons in Hall as [[data Hd] Hall]. cbv zeta.
    change (replicate (S (length (url :: todo))) Producer)
      with (Producer :: replicate (S (length todo)) Producer).
    rewrite run_cons. cbn [WorkflowEngine.step].
    remember (producer_step s) as r eqn:Hr.
    unfold WorkflowEngine.producer_step in Hr. rewrite Hpc, Hcan, Hd in Hr.
    cbn [artifacts PipelineSpec.artifacts]. rewrite Hd.
    destruct (ContentExtractor.extraction_successful data); subst r;
      cbn [from_option id];
      match goal with |- context [run _ ?s1] =>
        destruct (IH (idx + 1) s1 eq_refl Hcan Hall)
          as (H1 & H2 & H3 & H4 & H5) end;
      cbn [file_queue enqueued consumer job_cancellation] in H2, H3, H4, H5;
      rewrite H1, H2, H3, H4, H5; cbn [fmap list_fmap];
      by rewrite <- ?app_assoc.
Qed.

Lemma consumer_stuck k s :
  consumer_step s = None -> run (replicate k Consumer) s = s.
Proof.
  intros Hs. induction k as [|k IH]; [done|].
  cbn [replicate]. rewrite run_cons. cbn [WorkflowEngine.step].
  by rewrite Hs.
Qed.

(** The consumer alone, on a queue that ends with the sentinel. *)
(** The consumer's two moves for one queue item: the check, and
    [file_queue.get()] with what follows. *)
Lemma consumer_takes item rest s :
  consumer s = CPoll ->
  cancelled (job_cancellation s) = false ->
  file_queue s = item :: rest ->
  exists s1 s2,
    consumer_step s = Some s1 /\ consumer_step s1 = Some s2
    /\ producer s2 = producer s /\ enqueued s2 = enqueued s
    /\ job_cancellation s2 = job_cancellation s
    /\ match item with
       | None => consumer s2 = CReturned
       | Some p =>
           (consumer s2 = CPoll /\ file_queue s2 = rest)
           \/ exists e, consumer s2 = CCrashed e
       end.
Proof.
  intros Hpc Hcan Hq.
  assert (H1 : exists s1, consumer_step s = Some s1 /\ consumer s1 = CGet
                          /\ file_queue s1 = item :: rest
                          /\ producer s1 = producer s
                          /\ enqueued s1 = enqueued s
                          /\ job_cancellation s1 = job_cancellation s).
  { unfold WorkflowEngine.consumer_step. rewrite Hpc, Hcan.
    eexists. split; [reflexivity|]. by cbn. }
  destruct H1 as (s1 & Hs1 & Hpc1 & Hq1 & Hp1 & He1 & Hj1).
  exists s1. unfold WorkflowEngine.consumer_step at 2. rewrite Hpc1, Hq1.
  destruct item as [p|].
  - destruct (extract_value_from_file p (accumulated_data s1) (log_file s1))
      as [[d|e] l]; eexists; (split; [done|]); (split; [reflexivity|]);
      cbn; split_and!; try done; [by left|right; by eexists].
  - eexists. split; [done|]. split; [reflexivity|]. by cbn.
Qed.

(** The consumer alone, on a queue that ends with the sentinel. *)
Lemma consume_all ps s :
  consumer s = CPoll ->
  cancelled (job_cancellation s) = false ->
  file_queue s = (Some <$> ps) ++ [None] ->
  let s' := run (replicate (2 * S (length ps)) Consumer) s in
  (consumer s' = CReturned \/ exists e, consumer s' = CCrashed e)
  /\ producer s' = producer s /\ enqueued s' = enqueued s
  /\ job_cancellation s' = job_cancellation s.
Proof.
  revert s. induction ps as [|p ps IH]; intros s Hpc Hcan Hq; cbv zeta.
  - destruct (consumer_takes None [] s Hpc Hcan Hq)
      as (s1 & s2 & H1 & H2 & Hp & He & Hj & Hc).
    change (replicate (2 * S (length (@nil string))) Consumer)
      with [Consumer; Consumer]. rewrite !run_cons.
    cbn [WorkflowEngine.step]. rewrite H1. cbn [from_option id].
    rewrite H2. cbn. split_and!; try done. by left.
  - destruct (consumer_takes (Some p) _ s Hpc Hcan Hq)
      as (s1 & s2 & H1 & H2 & Hp & He & Hj & Hc).
    replace (2 * S (length (p :: ps)))%nat
      with (S (S (2 * S (length ps))))%nat by (cbn [length]; lia).
    cbn [replicate]. rewrite !run_cons.
    cbn [WorkflowEngine.step]. rewrite H1. cbn [from_option id].
    rewrite H2. cbn [from_option id].
    destruct Hc as [[Hc Hq2]|[e Hc]].
    + destruct (IH s2 Hc ltac:(by rewrite Hj) Hq2) as (I1 & I2 & I3 & I4).
      split_and!; [done|congruence..].
    + rewrite consumer_stuck
        by (unfold WorkflowEngine.consumer_step; by rewrite Hc).
      split_and!; try done. right. by eexists.
Qed.

(** The run in which the producer goes through all URLs and then the
    consumer through the queue. *)
Lemma complete_run jc data log :
  cancelled jc = false ->
  Forall (fun url => is_Some (extract_clean_content url)) useful_urls ->
  fold_artifacts (artifacts 1 useful_urls) get_empty_structure []
    = (Returned data, log) ->
  let s := run (replicate (S (length useful_urls)) Producer
                ++ replicate (2 * S (length (artifacts 1 useful_urls)))
                     Consumer) (initial jc) in
  producer s = PReturned /\ consumer s = CReturned /\ file_queue s = []
  /\ processed s = artifacts 1 useful_urls
  /\ output_file s = Some data /\ log_file s = log.
Proof.
  intros Hcan Hall Hfold s.
  pose proof (reachable_invariant job_id useful_urls extract_clean_content
                save_as_markdown basename read_file_content json_dumps
                make_prompt create json_loads
                (replicate (S (length useful_urls)) Producer
                 ++ replicate (2 * S (length (artifacts 1 useful_urls)))
                      Consumer) jc) as Hinv.
  fold s in Hinv. subst s. rewrite run_app in *.
  destruct (produce_all useful_urls 1 (initial jc) eq_refl Hcan Hall)
    as (P1 & P2 & P3 & P4 & P5).
  change (file_queue (initial jc)) with (@nil (option string)) in P2.
  change (enqueued (initial jc)) with (@nil (option string)) in P3.
  change (consumer (initial jc)) with CPoll in P4.
  change (job_cancellation (initial jc)) with jc in P5.
  set (s1 := run (replicate (S (length useful_urls)) Producer) (initial jc))
    in *. cbn [app] in P2, P3.
  destruct (consume_all (artifacts 1 useful_urls) s1 P4
              ltac:(by rewrite P5) P2) as (C1 & C2 & C3 & C4).
  set (s := run _ s1) in *. clearbody s s1.
  destruct Hinv as (Hq & Hp & Hcons).
  assert (Hpaths : paths (enqueued s) = artifacts 1 useful_urls).
  { rewrite C3, P3, paths_snoc_None. apply paths_Some. }
  destruct C1 as [C1|[e C1]]; rewrite C1 in Hcons.
  - destruct Hcons as ((Hf & _) & [(Ht & Hd & Ho)|(_ & Hcan' & _)]).
    2:{ rewrite C4, P5 in Hcan'. congruence. }
    rewrite C2, P1, Hpaths in Hp. rewrite Hp, Ht, Hd in Hq.
    rewrite <- app_assoc in Hq. cbn [app] in Hq.
    apply sentinel_is_last in Hq as [Epr Eq].
    rewrite <- Epr in Hf. rewrite Hfold in Hf. injection Hf as Ea El.
    split_and!; [by rewrite C2|done|done|done|by rewrite Ho, Ea|done].
  - exfalso. destruct Hcons as (Ht & l & Hraised).
    assert (Hpre : processed s `prefix_of` artifacts 1 useful_urls).
    { rewrite <- Hpaths. unfold processed. rewrite Hq, paths_app.
      by eexists. }
    destruct Hpre as [rest Erest].
    apply (fold_artifacts_app_raised _ rest) in Hraised.
    rewrite <- Erest, Hfold in Hraised. discriminate.
Qed.

(** When no cancellation is pending, every page yields a result and the
    extraction step goes through on the artifacts, the pipeline can run
    to its end: after the producer's moves and then the consumer's, both
    have returned, the queue is empty, every artifact was processed in
    order, and the output file holds the fold of the extraction step over
    the artifacts. *)
Theorem pipeline_completes jc data log :
  cancelled jc = false ->
  Forall (fun url => is_Some (extract_clean_content url)) useful_urls ->
  fold_artifacts (artifacts 1 useful_urls) get_empty_structure []
    = (Returned data, log) ->
  let s := run (replicate (S (length useful_urls)) Producer
                ++ replicate (2 * S (length (artifacts 1 useful_urls)))
                     Consumer) (initial jc) in
  producer s = PReturned /\ consumer s = CReturned /\ file_queue s = []
  /\ processed s = artifacts 1 useful_urls
  /\ output_file s = Some data /\ log_file s = log.
Proof. apply complete_run. Qed.

(** [extract_values], run on the artifacts the pipeline produced, leaves
    the same output file and the same log as the pipeline, unless there
    is no artifact at all: then the pipeline writes the empty structure
    and [extract_values] writes nothing. *)
Theorem extract_values_agrees_with_pipeline jc data log :
  cancelled jc = false ->
  Forall (fun url => is_Some (extract_clean_content url)) useful_urls ->
  fold_artifacts (artifacts 1 useful_urls) get_empty_structure []
    = (Returned data, log) ->
  let s := run (replicate (S (length useful_urls)) Producer
                ++ replicate (2 * S (length (artifacts 1 useful_urls)))
                     Consumer) (initial jc) in
  let sequential :=
    extract_values basename read_file_content json_dumps make_prompt create
      json_loads (artifacts 1 useful_urls) in
  (artifacts 1 useful_urls <> [] ->
     sequential = (output_file s, log_file s))
  /\ (artifacts 1 useful_urls = [] ->
      sequential = (None, [])
      /\ output_file s = Some get_empty_structure /\ log_file s = []).
Proof.
  intros Hcan Hall Hfold s sequential.
  destruct (complete_run jc data log Hcan Hall Hfold)
    as (_ & _ & _ & _ & Ho & Hl). fold s in Ho, Hl.
  subst sequential. unfold extract_values. rewrite Ho, Hl. split.
  - intros Hne. destruct (artifacts 1 useful_urls); [done|]. by rewrite Hfold.
  - intros He. rewrite He in *. cbn in Hfold. by injection Hfold as <- <-.
Qed.


(** *** Cancellation *)

(** Without a job id neither thread looks at the flags. *)
Lemma unflagged_step a s s0 :
  is_cancel a = false -> unflagged s = unflagged s0 ->
  unflagged (default s
               (WorkflowEngine.step None extract_clean_content
                  save_as_markdown basename read_file_content json_dumps
                  make_prompt create json_loads a s))
  = unflagged (default s0
                 (WorkflowEngine.step None extract_clean_content
                    save_as_markdown basename read_file_content json_dumps
                    make_prompt create json_loads a s0)).
Proof.
  intros Ha Heq. destruct s, s0. unfold unflagged in Heq.
  cbn [producer successful failed_urls file_queue consumer accumulated_data
       file_count log_file progress_file output_file enqueued taken drained]
    in Heq.
  injection Heq as -> -> -> -> -> -> -> -> -> -> -> -> ->.
  destruct a as [| |j]; [| |done]; cbn.
  - unfold WorkflowEngine.producer_step. cbn. repeat case_match; by cbn.
  - unfold WorkflowEngine.consumer_step. cbn. repeat case_match; by cbn.
Qed.

Lemma unflagged_run schedule s s0 :
  unflagged s = unflagged s0 ->
  unflagged (WorkflowEngine.run None extract_clean_content save_as_markdown
               basename read_file_content json_dumps make_prompt create
               json_loads schedule s)
  = unflagged (WorkflowEngine.run None extract_clean_content
                 save_as_markdown basename read_file_content json_dumps
                 make_prompt create json_loads
                 (filter (fun a => is_cancel a = false) schedule) s0).
Proof.
  revert s s0. induction schedule as [|a schedule IH]; intros s s0 Heq;
    [done|].
  destruct (is_cancel a) eqn:Ha.
  - rewrite filter_cons_False by (by rewrite Ha).
    destruct a as [| |j]; try done. by apply IH.
  - rewrite filter_cons_True by done. apply IH. by apply unflagged_step.
Qed.

(** The two methods look at the flag only when they were given a job
    id.  Called without one, as [run_pipeline_async] calls them, they
    take no notice of cancellation requests: whatever the schedule, the
    pipeline is in the state it would be in had no request been made,
    the flags themselves apart. *)
Theorem cancellation_needs_job_id schedule jc :
  let run_without_id :=
    WorkflowEngine.run None extract_clean_content save_as_markdown basename
      read_file_content json_dumps make_prompt create json_loads in
  unflagged (run_without_id schedule (initial jc))
  = unflagged (run_without_id
                 (filter (fun a => is_cancel a = false) schedule)
                 (initial jc))
  /\ WorkflowEngine.cancelled None
       (job_cancellation (run_without_id schedule (initial jc))) = false.
Proof. cbv zeta. split; [by apply unflagged_run|reflexivity]. Qed.

(** What a set flag still lets the consumer do, seen from a state [s0]. *)
Lemma after_cancellation s0 later :
  cancelled (job_cancellation s0) = true ->
  let s' := run later s0 in
  cancelled (job_cancellation s') = true
  /\ ((consumer s' = CGet /\ consumer s0 = CGet
       /\ taken s' = taken s0)
      \/ (consumer s' <> CGet
          /\ ((taken s' = taken s0 \/ taken s' = taken s0 ++ [None])
              \/ (consumer s0 = CGet
                  /\ exists p, taken s' = taken s0 ++ [Some p])))).
Proof.
  intros Hcan. induction later as [|a later IH] using rev_ind; cbv zeta.
  - split; [done|]. cbn.
    destruct (consumer s0) eqn:Hc; [right|left|right|right]; split; auto.
  - rewrite run_app. cbn zeta in IH. destruct IH as (Hcan' & IH).
    set (s1 := run later s0) in *. clearbody s1.
    change (run [a] s1) with (default s1 (step a s1)).
    destruct a as [| |j]; cbn [WorkflowEngine.step].
    + destruct (producer_step s1) as [s2|] eqn:Hs; [|done]. cbn.
      destruct (producer_step_frame job_id extract_clean_content
                  save_as_markdown s1 s2 Hs)
        as (-> & -> & _ & _ & _ & _ & _ & -> & _). done.
    + destruct (consumer_step s1) as [s2|] eqn:Hs; [|done]. cbn.
      destruct (consumer_step_frame _ _ Hs) as (_ & _ & Hj & _).
      rewrite Hj. split; [done|]. revert Hs.
      unfold WorkflowEngine.consumer_step.
      destruct IH as [(Hc & Hc0 & Ht)|(Hc & Ht)].
      * rewrite Hc.
        destruct (file_queue s1) as [|[p|] rest]; [done| |].
        -- destruct (extract_value_from_file p _ _) as [[d|e] l];
             intros [= <-]; cbn; right; (split; [done|]); right;
             (split; [done|]); exists p; by rewrite Ht.
        -- intros [= <-]. cbn. right. split; [done|]. left. right.
           by rewrite Ht.
      * destruct (consumer s1) eqn:Hc1; [|done..].
        rewrite Hcan'. intros [= <-]. cbn. right. split; [done|].
        exact Ht.
    + cbn. split; [by apply cancelled_cancel_job|]. exact IH.
Qed.

(** Once the flag is set the consumer processes at most one more
    artifact: none if it is at the check at the top of its loop (or has
    ended), and the one it is already waiting for in [file_queue.get()]
    otherwise.  The flag, once set, stays set. *)
Theorem cancellation_lets_one_more_unit schedule jc :
  let s := run schedule (initial jc) in
  cancelled (job_cancellation s) = true ->
  forall later,
    let s' := run later s in
    cancelled (job_cancellation s') = true
    /\ processed s `prefix_of` processed s'
    /\ (length (processed s') <= S (length (processed s)))%nat
    /\ (consumer s <> CGet -> processed s' = processed s).
Proof.
  intros s Hcan later s'.
  destruct (after_cancellation s later Hcan) as (Hcan' & Hcases).
  fold s' in Hcan', Hcases. split; [done|]. unfold processed.
  destruct Hcases as [(_ & _ & ->)|(_ & [[-> | ->]|(Hget & p & ->)])];
    rewrite ?paths_snoc_None, ?paths_snoc_Some, ?length_app; cbn.
  - split_and!; [done|lia|done].
  - split_and!; [done|lia|done].
  - split_and!; [done|lia|done].
  - split_and!; [by eexists|lia|done].
Qed.

(** With [max_retries <= 0] the loop of [extract_clean_content] has
    no iteration, and the method returns [None] without a request. *)
Lemma extract_clean_content_no_attempt fetch url max_retries :
  max_retries <= 0 ->
  ContentExtractor.extract_clean_content fetch url max_retries = (None, []).
Proof.
  intros Hn. unfold ContentExtractor.extract_clean_content.
  by rewrite seqZ_nil by lia.
Qed.

End PipelineMore.

Section NoAttempts.
Import ValueExtraction WorkflowEngine PipelineSpec.
Variable fetch : string -> Z -> ContentExtractor.attempt_outcome.
Variable max_retries : Z.
Variable save_as_markdown : Z -> string -> string.
Variable basename : string -> string.
Variable read_file_content : string -> option string.
Variable json_dumps : json -> string.
Variable make_prompt : string -> string -> string.
Variable create : string -> completion.
Variable json_loads : string -> option json.

(** The pipeline as [run_pipeline_async] starts it: no job id, and the
    extractor of content_crawler.py with the configured [max_retries]. *)
Local Abbreviation run_with_extractor :=
  (WorkflowEngine.run None
     (fun url =>
        fst (ContentExtractor.extract_clean_content fetch url max_retries))
     save_as_markdown basename read_file_content json_dumps make_prompt
     create json_loads).

(** With [max_retries <= 0] in the configuration and at least one
    useful URL the pipeline cannot end: [extract_clean_content] returns
    [None] for the first page, so the producer never returns and never
    queues anything, and the consumer, which processes nothing, never
    returns either. *)
Theorem no_attempts_no_end url urls schedule jc :
  max_retries <= 0 ->
  let s := run_with_extractor schedule (initial (url :: urls) jc) in
  ContentExtractor.extract_clean_content fetch url max_retries = (None, [])
  /\ producer s <> PReturned /\ consumer s <> CReturned
  /\ enqueued s = [] /\ processed s = [].
Proof.
  intros Hn s. split; [by apply extract_clean_content_no_attempt|].
  set (ecc := fun u : string =>
                fst (ContentExtractor.extract_clean_content fetch u
                       max_retries)) in *.
  assert (Hnone : forall u, ecc u = None).
  { intros u. unfold ecc. by rewrite extract_clean_content_no_attempt. }
  destruct (producer_ok_run None (url :: urls) ecc save_as_markdown basename
              read_file_content json_dumps make_prompt create json_loads
              schedule (initial (url :: urls) jc)
              (producer_ok_initial None (url :: urls) ecc save_as_markdown
                 jc))
    as (done & todo & Eu & Hdone & Hp & _ & _ & Hpc). fold s in Hp, Hpc.
  assert (Edone : done = []).
  { destruct done as [|u done]; [done|].
    apply Forall_cons in Hdone as [[d Hd] _]. by rewrite Hnone in Hd. }
  subst done. cbn in Eu, Hp. subst todo.
  pose proof (reachable_invariant None (url :: urls) ecc save_as_markdown
                basename read_file_content json_dumps make_prompt create
                json_loads schedule jc) as (Hq & He & Hcons).
  fold s in Hq, He, Hcons. rewrite Hp in He. cbn [fmap list_fmap app] in He.
  assert (Hnr : producer s <> PReturned).
  { intros Hr. rewrite Hr in Hpc. destruct Hpc as [?|[j ?]]; done. }
  assert (Hen : enqueued s = []) by (by destruct (producer s)).
  rewrite Hen in Hq. symmetry in Hq.
  apply app_eq_nil in Hq as [Ht _].
  split_and!; [done| |done|by unfold processed; rewrite Ht].
  intros Hr. rewrite Hr in Hcons.
  destruct Hcons as (_ & [(Ht' & _)|(_ & Hcan & _)]); [|done].
  rewrite Ht in Ht'. by destruct (Some <$> processed s).
Qed.

End NoAttempts.

Section PipelineMoreRuns.
Import ValueExtraction WorkflowEngine PipelineSpec.

(** The extractor returns [None] for the only page: the producer dies
    at once, and the consumer waits for ever. *)
Lemma producer_crash_starves_consumer_witness :
  let s' := WorkflowEngine.run None (fun _ => None) Sample.save_as_markdown
              Sample.basename Sample.read_file_content Sample.json_dumps
              Sample.make_prompt Sample.create Sample.json_loads
              ([Producer] ++ [Consumer; Consumer; Producer; Consumer])
              (initial ["A"%string] ∅) in
  producer s' = PCrashed /\ consumer s' <> CReturned.
Proof.
  intros s'.
  destruct (producer_crash_starves_consumer None ["A"%string]
              (fun _ => None) Sample.save_as_markdown
              Sample.basename Sample.read_file_content Sample.json_dumps
              Sample.make_prompt Sample.create Sample.json_loads
              [Producer] ∅ ltac:(vm_compute; reflexivity)
              [Consumer; Consumer; Producer; Consumer])
    as (Hc & _ & _ & Hnever).
  split; [exact Hc|]. by apply Hnever.
Defined.

(** Two pages, both extracted, no cancellation. *)
Lemma pipeline_completes_witness :
  let s := Sample.run None ["A"; "B"]%string ∅
             (replicate 3 Producer ++ replicate 6 Consumer) in
  consumer s = CReturned
  /\ processed s = ["A"; "B"]%string
  /\ output_file s = Some (JDict [("description"%string, JStr "AB")]).
Proof.
  intros s.
  destruct (pipeline_completes None ["A"; "B"]%string
              Sample.extract_clean_content Sample.save_as_markdown
              Sample.basename Sample.read_file_content Sample.json_dumps
              Sample.make_prompt Sample.create Sample.json_loads ∅
              (JDict [("description"%string, JStr "AB")])
              (snd (fold_artifacts Sample.basename Sample.read_file_content
                      Sample.json_dumps Sample.make_prompt Sample.create
                      Sample.json_loads ["A"; "B"]%string
                      get_empty_structure [])))
    as (_ & Hc & _ & Hp & Ho & _).
  - reflexivity.
  - repeat constructor; by eexists.
  - reflexivity.
  - split_and!; [exact Hc|exact Hp|exact Ho].
Defined.

Lemma extract_values_agrees_with_pipeline_witness :
  let s := Sample.run None ["A"; "B"]%string ∅
             (replicate 3 Producer ++ replicate 6 Consumer) in
  extract_values Sample.basename Sample.read_file_content Sample.json_dumps
    Sample.make_prompt Sample.create Sample.json_loads ["A"; "B"]%string
  = (output_file s, log_file s).
Proof.
  intros s.
  destruct (extract_values_agrees_with_pipeline None ["A"; "B"]%string
              Sample.extract_clean_content Sample.save_as_markdown
              Sample.basename Sample.read_file_content Sample.json_dumps
              Sample.make_prompt Sample.create Sample.json_loads ∅
              (JDict [("description"%string, JStr "AB")])
              (snd (fold_artifacts Sample.basename Sample.read_file_content
                      Sample.json_dumps Sample.make_prompt Sample.create
                      Sample.json_loads ["A"; "B"]%string
                      get_empty_structure [])))
    as (Hsome & _).
  - reflexivity.
  - repeat constructor; by eexists.
  - reflexivity.
  - by apply Hsome.
Defined.

(** The flag is set while the consumer waits for [B]: [B] is processed,
    [C] is not. *)
Lemma cancellation_lets_one_more_unit_witness :
  let s := Sample.run (Some "job-1"%string) ["A"; "B"; "C"]%string
             {[ "job-1"%string := false ]}
             [Producer; Consumer; Consumer; Consumer; Producer; Producer;
              CancelJob "job-1"] in
  let s' := WorkflowEngine.run (Some "job-1"%string)
              Sample.extract_clean_content Sample.save_as_markdown
              Sample.basename Sample.read_file_content Sample.json_dumps
              Sample.make_prompt Sample.create Sample.json_loads
              [Consumer; Consumer; Consumer] s in
  processed s `prefix_of` processed s'
  /\ (length (processed s') <= S (length (processed s)))%nat.
Proof.
  intros s s'.
  pose proof (cancellation_lets_one_more_unit (Some "job-1"%string)
                ["A"; "B"; "C"]%string
                Sample.extract_clean_content Sample.save_as_markdown
                Sample.basename Sample.read_file_content Sample.json_dumps
                Sample.make_prompt Sample.create Sample.json_loads
                [Producer; Consumer; Consumer; Consumer; Producer; Producer;
                 CancelJob "job-1"]
                {[ "job-1"%string := false ]}) as H.
  cbv zeta in H.
  destruct (H ltac:(vm_compute; reflexivity) [Consumer; Consumer; Consumer])
    as (_ & Hpre & Hlen & _).
  split; [exact Hpre|exact Hlen].
Defined.

(** No retries configured, one page to extract. *)
Lemma no_attempts_no_end_witness :
  let s := WorkflowEngine.run None
             (fun url =>
                fst (ContentExtractor.extract_clean_content
                       (fun _ _ => ContentExtractor.Fetched "text" 1) url 0))
             Sample.save_as_markdown Sample.basename
             Sample.read_file_content Sample.json_dumps Sample.make_prompt
             Sample.create Sample.json_loads
             [Producer; Consumer; Consumer; Producer; Consumer]
             (initial ["A"%string] ∅) in
  producer s <> PReturned /\ consumer s <> CReturned.
Proof.
  intros s.
  destruct (no_attempts_no_end
              (fun _ _ => ContentExtractor.Fetched "text" 1) 0
              Sample.save_as_markdown Sample.basename
              Sample.read_file_content Sample.json_dumps Sample.make_prompt
              Sample.create Sample.json_loads "A"%string []
              [Producer; Consumer; Consumer; Producer; Consumer] ∅
              ltac:(lia))
    as (_ & Hp & Hc & _).
  split; [exact Hp|exact Hc].
Defined.

End PipelineMoreRuns.

(** ** The output file of the crawler *)

Section SaveResultsFacts.
Import PyStr SaveResults.

Lemma insert_by_priority_perm x l : insert_by_priority x l ≡ₚ x :: l.
Proof.
  induction l as [|y l IH]; cbn; [done|].
  case_bool_decide; [|done]. rewrite IH. apply Permutation_swap.
Qed.

Lemma insert_by_priority_descending x l :
  descending l -> descending (insert_by_priority x l).
Proof.
  induction l as [|y l IH]; cbn; [done|]. intros [Hy Hl].
  case_bool_decide as Hlt; cbn.
  - split; [|by apply IH]. rewrite insert_by_priority_perm.
    constructor; [lia|done].
  - split_and!; [|done..]. constructor; [lia|].
    eapply Forall_impl; [exact Hy|]. cbn. lia.
Qed.

Lemma insert_by_priority_filter p x l :
  filter (fun y : str * Z => y.2 = p) (insert_by_priority x l)
  = filter (fun y : str * Z => y.2 = p) (x :: l).
Proof.
  induction l as [|y l IH]; cbn; [done|].
  case_bool_decide as Hlt; [|done].
  rewrite filter_cons, IH, filter_cons.
  repeat case_decide; try done. lia.
Qed.

Lemma sorted_by_priority_perm items : sorted_by_priority items ≡ₚ items.
Proof.
  induction items as [|x items IH]; cbn; [done|].
  by rewrite insert_by_priority_perm, IH.
Qed.

Lemma sorted_by_priority_descending items :
  descending (sorted_by_priority items).
Proof.
  induction items as [|x items IH]; cbn; [done|].
  by apply insert_by_priority_descending.
Qed.

Lemma sorted_by_priority_stable p items :
  filter (fun y : str * Z => y.2 = p) (sorted_by_priority items)
  = filter (fun y : str * Z => y.2 = p) items.
Proof.
  induction items as [|x items IH]; [done|].
  cbn [sorted_by_priority foldr]. fold (sorted_by_priority items).
  by rewrite insert_by_priority_filter, !filter_cons, IH.
Qed.

Lemma descending_take n l :
  descending l ->
  descending (take n l)
  /\ forall x y, x ∈ take n l -> y ∈ drop n l -> y.2 <= x.2.
Proof.
  revert n. induction l as [|z l IH]; intros n Hl.
  - rewrite take_nil, drop_nil. split; [done|]. by intros x y ?%elem_of_nil.
  - destruct n as [|n]; cbn.
    + split; [done|]. by intros x y ?%elem_of_nil.
    + destruct Hl as [Hz Hl]. destruct (IH n Hl) as [Ht Hd]. split_and!.
      * rewrite <- (take_drop n l) in Hz. by apply Forall_app in Hz as [? _].
      * done.
      * intros x y [->|Hx]%elem_of_cons Hy; [|by apply Hd].
        rewrite Forall_forall in Hz. apply Hz.
        rewrite <- (take_drop n l). set_solver.
Qed.

Lemma slice_to_take {A} n (l : list A) :
  exists k, slice_to n l = take k l
            /\ (0 <= n -> k = Z.to_nat n).
Proof.
  unfold slice_to. case_bool_decide; eexists; (split; [done|]); [done|lia].
Qed.

(** The rows are the items of the dict sorted by priority, highest
    first, cut after [max_urls] rows: they are in descending order, no
    row left out has a higher priority than a row kept, rows of equal
    priority are in the order in which the dict holds them, and for
    [max_urls >= 0] there are [min (max_urls, len (items))] of them.
    The file holds the header row and then one row for each. *)
Theorem save_results_sorted_top items max_urls :
  let rows := sorted_urls items max_urls in
  descending rows
  /\ (exists left_out,
        rows ++ left_out ≡ₚ items
        /\ forall x y, x ∈ rows -> y ∈ left_out -> y.2 <= x.2)
  /\ (forall p, filter (fun y : str * Z => y.2 = p) rows
                `prefix_of` filter (fun y : str * Z => y.2 = p) items)
  /\ (0 <= max_urls ->
      length rows = (Z.to_nat max_urls `min` length items)%nat)
  /\ save_results items max_urls
     = [CStr (py "url"); CStr (py "isUseful"); CStr (py "priority")]
       :: ((fun '(url, priority) => [CStr url; CStr (py ""); CInt priority])
             <$> rows).
Proof.
  intros rows. subst rows. unfold sorted_urls.
  destruct (slice_to_take max_urls (sorted_by_priority items))
    as (k & Ek & Hk).
  unfold save_results, sorted_urls. rewrite Ek.
  destruct (descending_take k _ (sorted_by_priority_descending items))
    as [Hdesc Htop].
  split_and!; [done| | | |done].
  - exists (drop k (sorted_by_priority items)). split; [|done].
    rewrite take_drop. apply sorted_by_priority_perm.
  - intros p. rewrite <- (sorted_by_priority_stable p items).
    rewrite <- (take_drop k (sorted_by_priority items)) at 2.
    rewrite filter_app. by eexists.
  - intros Hn. rewrite (Hk Hn), length_take.
    by rewrite (Permutation_length (sorted_by_priority_perm items)).
Qed.

(** The home page leads the file: when the base URL is the first key of
    the dict, with priority 100, and no priority is above 100, the first
    row after the header is the base URL's. *)
Theorem save_results_home_page_first base_url rest max_urls :
  1 <= max_urls -> Forall (fun x => x.2 <= 100) rest ->
  head (sorted_urls ((base_url, 100) :: rest) max_urls)
  = Some (base_url, 100)
  /\ save_results ((base_url, 100) :: rest) max_urls !! 1%nat
     = Some [CStr base_url; CStr (py ""); CInt 100].
Proof.
  intros Hn Hall.
  assert (Hs : sorted_by_priority ((base_url, 100) :: rest)
               = (base_url, 100) :: sorted_by_priority rest).
  { assert (Hins : forall l : list (str * Z),
              Forall (fun x => x.2 <= 100) l ->
              insert_by_priority (base_url, 100) l = (base_url, 100) :: l).
    { intros l [|y l' Hy _]; cbn; [done|].
      by rewrite bool_decide_eq_false_2 by lia. }
    apply Hins. fold (sorted_by_priority rest).
    by rewrite sorted_by_priority_perm. }
  unfold save_results, sorted_urls, slice_to.
  rewrite bool_decide_eq_true_2 by lia. rewrite Hs.
  destruct (Z.to_nat max_urls) as [|k] eqn:Ek; [lia|]. by cbn.
Qed.

End SaveResultsFacts.

Lemma save_results_home_page_first_witness :
  head (SaveResults.sorted_urls
          [(PyStr.py "https://example.com", 100);
           (PyStr.py "https://example.com/careers", 100);
           (PyStr.py "https://example.com/about", 95)] 2)
  = Some (PyStr.py "https://example.com", 100).
Proof.
  destruct (save_results_home_page_first (PyStr.py "https://example.com")
              [(PyStr.py "https://example.com/careers", 100);
               (PyStr.py "https://example.com/about", 95)] 2) as [H _].
  - lia.
  - repeat constructor; cbn; lia.
  - exact H.
Defined.
